(** * The text-reveal animator of [pr3/assets/js/script.js]

    A shallow embedding of [animateTextScramble], its per-frame callback
    [step] and [escapeHtml], together with the small part of the browser
    they talk to (element content, the animation-frame callback list and
    the [textAnimationRafs] side table), followed by the other parts of
    the script: translations, projects, the details modal, the theme
    switch and the language of the page.

    Conventions
    - a JavaScript string is the list of its UTF-16 code units ([Z]);
    - a JavaScript number is a binary64 value; a finite one is given by
      the rational it stands for, and [-], [/] and [*] round their exact
      result to the nearest binary64 value, ties to even
      ([Binary64.round]). Timestamps ([performance.now()], the argument
      of a frame callback) are finite and far from the largest binary64
      value, so no operation of [step] overflows or yields NaN; the sign
      of zero makes no difference to [step] and is not represented;
    - handles returned by [requestAnimationFrame] are [positive]: the
      platform hands out integers greater than zero, so the truthiness
      test [if (previousRaf)] is the test that the table has an entry. *)

From Stdlib Require Import ZArith QArith Qround Qminmax Qpower Lia Lqa List Bool Ascii String.
From Stdlib Require Import DecimalString Permutation.
From stdpp Require Import base option list gmap.
Import ListNotations.

#[local] Open Scope Z_scope.

(** ** Strings *)

Module JS.

Abbreviation jsstring := (list Z).

(** Code units of an ASCII literal of the source. *)
Definition lit (s : string) : jsstring :=
  List.map (fun a => Z.of_N (N_of_ascii a)) (list_ascii_of_string s).

Definition AMP : Z := 38.     (* & *)
Definition LT : Z := 60.      (* < *)
Definition GT : Z := 62.      (* > *)
Definition QUOT : Z := 34.    (* double quote *)
Definition APOS : Z := 39.    (* ' *)
Definition SPACE : Z := 32.
Definition NBSP : Z := 160.    (* U+00A0, no-break space *)
Definition SLASH : Z := 47.
Definition NUL : Z := 0.
Definition LF : Z := 10.
Definition CR : Z := 13.

(** [s.replaceAll(pat, rep)] for a pattern of one code unit, which is the
    only form the source uses; none of its replacement texts contains [$]. *)
Definition replaceAll (pat : Z) (rep : jsstring) (s : jsstring) : jsstring :=
  flat_map (fun c => if c =? pat then rep else [c]) s.

Definition ent_amp : jsstring := Eval cbv in lit "&amp;".
Definition ent_lt : jsstring := Eval cbv in lit "&lt;".
Definition ent_gt : jsstring := Eval cbv in lit "&gt;".
Definition ent_quot : jsstring := Eval cbv in lit "&quot;".
Definition ent_apos : jsstring := Eval cbv in lit "&#039;".

(** script.js, [escapeHtml]: five replacements, the ampersand first. *)
Definition escapeHtml (str : jsstring) : jsstring :=
  replaceAll APOS ent_apos
    (replaceAll QUOT ent_quot
      (replaceAll GT ent_gt
        (replaceAll LT ent_lt
          (replaceAll AMP ent_amp str)))).

(** What one code unit becomes under [escapeHtml]. *)
Definition escapeUnit (c : Z) : jsstring :=
  if c =? AMP then ent_amp
  else if c =? LT then ent_lt
  else if c =? GT then ent_gt
  else if c =? QUOT then ent_quot
  else if c =? APOS then ent_apos
  else [c].

(** The five cases of [escapeUnit], as a view. *)
Inductive escaped_unit (c : Z) : jsstring -> Prop :=
  | esc_amp : c = AMP -> escaped_unit c ent_amp
  | esc_lt : c = LT -> escaped_unit c ent_lt
  | esc_gt : c = GT -> escaped_unit c ent_gt
  | esc_quot : c = QUOT -> escaped_unit c ent_quot
  | esc_apos : c = APOS -> escaped_unit c ent_apos
  | esc_self : c <> AMP -> c <> LT -> c <> GT -> c <> QUOT -> c <> APOS ->
               escaped_unit c [c].

Fixpoint starts_with (p s : jsstring) : bool :=
  match p, s with
  | [], _ => true
  | _ :: _, [] => false
  | a :: p', b :: s' => (a =? b) && starts_with p' s'
  end.

(** The entity that begins [s], if any: the unit it stands for and the
    number of code units it occupies. *)
Definition entity_at (s : jsstring) : option (Z * nat) :=
  match s with
  | [] => None
  | c :: _ =>
    if negb (c =? AMP) then None
    else if starts_with ent_amp s then Some (AMP, 5%nat)
    else if starts_with ent_lt s then Some (LT, 4%nat)
    else if starts_with ent_gt s then Some (GT, 4%nat)
    else if starts_with ent_quot s then Some (QUOT, 6%nat)
    else if starts_with ent_apos s then Some (APOS, 6%nat)
    else None
  end.

(** Decoder of the five entities [escapeHtml] produces. [skip] counts the
    code units of an entity that are still to be passed over. *)
Fixpoint decodeFrom (skip : nat) (s : jsstring) : jsstring :=
  match s with
  | [] => []
  | c :: rest =>
    match skip with
    | S k => decodeFrom k rest
    | O =>
      match entity_at s with
      | Some (u, n) => u :: decodeFrom (Nat.pred n) rest
      | None => c :: decodeFrom 0 rest
      end
    end
  end.

Definition decodeEntities (s : jsstring) : jsstring := decodeFrom 0 s.

(** No code unit of [m] opens or closes a tag or an attribute value, and
    every ampersand of [m] begins one of the five entities. *)
Fixpoint well_escaped (m : jsstring) : bool :=
  match m with
  | [] => true
  | c :: rest =>
    negb (c =? LT) && negb (c =? GT) && negb (c =? QUOT) && negb (c =? APOS)
    && (if c =? AMP then match entity_at m with Some _ => true | None => false end
        else true)
    && well_escaped rest
  end.

(** White space and line terminators, as [String.prototype.trim] sees them. *)
Definition is_js_space (c : Z) : bool :=
  ((9 <=? c) && (c <=? 13)) || (c =? SPACE) || (c =? NBSP) || (c =? 5760)
  || ((8192 <=? c) && (c <=? 8202)) || (c =? 8232) || (c =? 8233)
  || (c =? 8239) || (c =? 8287) || (c =? 12288) || (c =? 65279).

Fixpoint drop_leading (p : Z -> bool) (s : jsstring) : jsstring :=
  match s with
  | [] => []
  | c :: rest => if p c then drop_leading p rest else s
  end.

Fixpoint drop_trailing (p : Z -> bool) (s : jsstring) : jsstring :=
  match s with
  | [] => []
  | c :: rest =>
    match drop_trailing p rest with
    | [] => if p c then [] else [c]
    | r => c :: r
    end
  end.

Definition trim (s : jsstring) : jsstring :=
  drop_trailing is_js_space (drop_leading is_js_space s).

(** [s.replace(/(?:\u00A0)+$/u, e)] with [e] the empty string: the run of
    U+00A0 that ends the string, if there is one, is removed. The pattern
    is anchored at the end and has no [g] flag. *)
Definition stripTrailingNbsp (s : jsstring) : jsstring :=
  drop_trailing (fun c => c =? NBSP) s.

Definition is_high_surrogate (c : Z) : bool := (55296 <=? c) && (c <=? 56319).
Definition is_low_surrogate (c : Z) : bool := (56320 <=? c) && (c <=? 57343).

(** [Array.from(str)]: the string iterator yields one string per code
    point; a high surrogate followed by a low one is one element, any
    other code unit stands alone. *)
Fixpoint Array_from (s : jsstring) : list jsstring :=
  match s with
  | [] => []
  | c :: rest =>
    match rest with
    | d :: rest' =>
      if is_high_surrogate c && is_low_surrogate d
      then [c; d] :: Array_from rest'
      else [c] :: Array_from rest
    | [] => [[c]]
    end
  end.

(** A string that ends in something other than U+00A0. *)
Definition ends_visibly (c : jsstring) : Prop :=
  exists a u, c = a ++ [u] /\ u <> NBSP.

(** One element of [Array.from(str)]: a code unit on its own or a
    surrogate pair. *)
Definition code_point (c : jsstring) : Prop :=
  (exists u, c = [u])
  \/ (exists h l, c = [h; l] /\ is_high_surrogate h = true /\ is_low_surrogate l = true).

(** [arr.join(e)] with [e] the empty string as separator. *)
Definition join (arr : list jsstring) : jsstring := concat arr.

End JS.

(** ** The browser side *)

Module Browser.
Import JS.

(** What an element holds is what was last assigned to it: plain text
    ([el.textContent = s]) or markup ([el.innerHTML = m]; the markup an
    element has in the page is the [InnerHTML] case too). *)
Inductive content : Type :=
  | TextContent (s : jsstring)
  | InnerHTML (markup : jsstring).

(** How the platform reads markup back: the text it displays and the
    number of child elements it yields. The animator is verified against
    any such reader. *)
Record parser : Type := {
  parsedText : jsstring -> jsstring;
  parsedChildren : jsstring -> nat
}.

Definition textContent (P : parser) (c : content) : jsstring :=
  match c with
  | TextContent s => s
  | InnerHTML m => parsedText P m
  end.

Definition childElementCount (P : parser) (c : content) : nat :=
  match c with
  | TextContent _ => 0%nat
  | InnerHTML m => parsedChildren P m
  end.

(** How the platform reads back markup of the kind the script writes,
    in an element whose content is ordinary flow content: text, the five
    entities and tags. Before anything else a CR LF pair and a CR on its
    own become one LF. A tag runs from [<] to the next [>] and shows
    nothing; a NUL in text is dropped. *)
Fixpoint normalizeNewlines (s : jsstring) : jsstring :=
  match s with
  | [] => []
  | c :: rest =>
    if c =? CR then
      match rest with
      | d :: rest' =>
        if d =? LF then LF :: normalizeNewlines rest'
        else LF :: normalizeNewlines rest
      | [] => [LF]
      end
    else c :: normalizeNewlines rest
  end.

Inductive scan : Type :=
  | Text (skip : nat)
  | Tag.

Fixpoint fragmentTextFrom (m : scan) (s : jsstring) : jsstring :=
  match s with
  | [] => []
  | c :: rest =>
    match m with
    | Tag => fragmentTextFrom (if c =? GT then Text 0 else Tag) rest
    | Text (S k) => fragmentTextFrom (Text k) rest
    | Text O =>
      if c =? LT then fragmentTextFrom Tag rest
      else if c =? NUL then fragmentTextFrom (Text 0) rest
      else
        match entity_at s with
        | Some (u, n) => u :: fragmentTextFrom (Text (Nat.pred n)) rest
        | None => c :: fragmentTextFrom (Text 0) rest
        end
    end
  end.

Definition fragmentText (s : jsstring) : jsstring :=
  fragmentTextFrom (Text 0) (normalizeNewlines s).

(** What is read back of a text that was written escaped: its line
    breaks as LF, its NULs gone. *)
Definition readBack (s : jsstring) : jsstring :=
  List.filter (fun c => negb (c =? NUL)) (normalizeNewlines s).

(** A text with neither CR nor NUL, which is read back as it is. *)
Definition survives (s : jsstring) : bool :=
  forallb (fun c => negb (c =? NUL) && negb (c =? CR)) s.

(** Start tags met outside any other element. *)
Fixpoint fragmentChildrenFrom (depth : nat) (in_tag : bool) (s : jsstring) : nat :=
  match s with
  | [] => 0%nat
  | c :: rest =>
    if in_tag then fragmentChildrenFrom depth (negb (c =? GT)) rest
    else if c =? LT then
      match rest with
      | [] => 0%nat
      | d :: _ =>
        if d =? SLASH then fragmentChildrenFrom (Nat.pred depth) true rest
        else ((match depth with O => 1 | S _ => 0 end)
              + fragmentChildrenFrom (S depth) true rest)%nat
      end
    else fragmentChildrenFrom depth false rest
  end.

Definition fragmentChildren (s : jsstring) : nat := fragmentChildrenFrom 0 false s.

Definition fragmentParser : parser :=
  {| parsedText := fragmentText; parsedChildren := fragmentChildren |}.

End Browser.

(** ** Numbers *)

Module Binary64.

Definition pow2 (z : Z) : Q := (2 ^ z)%Q.

(** The exponent of the power of two at or below a positive number. *)
Definition ilog2 (q : Q) : Z :=
  let e := Z.log2 (Qnum q) - Z.log2 (Zpos (Qden q)) in
  if Qle_bool (pow2 e) q then e else e - 1.

(** The exponent of the smallest normal binary64 number. *)
Definition emin : Z := -1022.

(** The nearest integer, the even one of two that are equally near. *)
Definition roundHalfEven (q : Q) : Z :=
  let f := Qfloor q in
  match (q - inject_Z f ?= 1 # 2)%Q with
  | Lt => f
  | Gt => f + 1
  | Eq => if Z.even f then f else f + 1
  end.

(** The distance between the binary64 numbers around a positive [q]:
    53 bits of precision, the spacing of the subnormal numbers below
    [2^emin]. *)
Definition ulp (q : Q) : Q := pow2 (Z.max (ilog2 q) emin - 52).

Definition roundPositive (q : Q) : Q :=
  (inject_Z (roundHalfEven (q / ulp q)) * ulp q)%Q.

(** The binary64 number nearest to [q], ties to even. Beyond the largest
    finite binary64 number the exponent keeps growing: overflow is not
    part of the embedding. *)
Definition round (q : Q) : Q :=
  match (q ?= 0)%Q with
  | Eq => 0%Q
  | Gt => roundPositive q
  | Lt => (- roundPositive (- q))%Q
  end.

(** The operators [-], [/] and [*] on numbers. *)
Definition sub (a b : Q) : Q := round (a - b).
Definition div (a b : Q) : Q := round (a / b).
Definition mul (a b : Q) : Q := round (a * b).

(** The largest binary64 number below 1. *)
Definition below_one : Q := (inject_Z (2 ^ 53 - 1) * pow2 (-53))%Q.

End Binary64.

(** ** The animator *)

Module Animator.
Import JS Browser.

Definition I18N_TEXT_SWAP_MS : Q := 1000%Q.

(** Element identities and animation-frame handles. *)
Abbreviation element := positive.
Abbreviation handle := positive.

(** What the closure [step] captures when [animateTextScramble] creates it. *)
Record session : Type := {
  el : element;
  nextText : jsstring;
  fromPadded : list jsstring;
  toPadded : list jsstring;
  targetLen : nat;
  start : Q
}.

(** An entry of the platform's list of animation-frame callbacks: a
    [step] closure, or a callback some other part of the page asked for. *)
Inductive callback : Type :=
  | Step (s : session)
  | Foreign.

Record state : Type := {
  dom : gmap positive content;
  textAnimationRafs : gmap positive positive;
  frameCallbacks : gmap positive callback;
  nextHandle : handle
}.

(** An element nobody has written yet is empty. *)
Definition contentOf (st : state) (e : element) : content :=
  default (TextContent []) (dom st !! e).

Definition setContent (e : element) (c : content) (st : state) : state :=
  {| dom := <[e := c]> (dom st);
     textAnimationRafs := textAnimationRafs st;
     frameCallbacks := frameCallbacks st;
     nextHandle := nextHandle st |}.

Definition rafsSet (e : element) (h : handle) (st : state) : state :=
  {| dom := dom st;
     textAnimationRafs := <[e := h]> (textAnimationRafs st);
     frameCallbacks := frameCallbacks st;
     nextHandle := nextHandle st |}.

Definition rafsDelete (e : element) (st : state) : state :=
  {| dom := dom st;
     textAnimationRafs := delete e (textAnimationRafs st);
     frameCallbacks := frameCallbacks st;
     nextHandle := nextHandle st |}.

Definition requestAnimationFrame (cb : callback) (st : state) : handle * state :=
  (nextHandle st,
   {| dom := dom st;
      textAnimationRafs := textAnimationRafs st;
      frameCallbacks := <[nextHandle st := cb]> (frameCallbacks st);
      nextHandle := (nextHandle st + 1)%positive |}).

Definition cancelAnimationFrame (h : handle) (st : state) : state :=
  {| dom := dom st;
     textAnimationRafs := textAnimationRafs st;
     frameCallbacks := delete h (frameCallbacks st);
     nextHandle := nextHandle st |}.

Definition Qlt_bool (a b : Q) : bool := negb (Qle_bool b a).

(** [Math.min((now - start) / I18N_TEXT_SWAP_MS, 1)] *)
Definition progressAt (s : session) (now : Q) : Q :=
  Qmin (Binary64.div (Binary64.sub now (start s)) I18N_TEXT_SWAP_MS) 1%Q.

(** [Math.floor(progress * targetLen)] *)
Definition revealCountAt (s : session) (now : Q) : Z :=
  Qfloor (Binary64.mul (progressAt s now) (inject_Z (Z.of_nat (targetLen s)))).

Definition highlightIndexOf (s : session) (revealCount : Z) : Z :=
  if revealCount <? Z.of_nat (targetLen s) then revealCount else (-1).

Definition span_open : jsstring :=
  Eval cbv in (lit "<span class=" ++ [QUOT] ++ lit "i18n-char-highlight" ++ [QUOT] ++ lit ">").
Definition span_close : jsstring := Eval cbv in lit "</span>".

Definition charToShowOf (sourceChar : jsstring) : jsstring :=
  if bool_decide (sourceChar = [SPACE]) then [NBSP] else sourceChar.

(** The body of the [for] loop at index [i]: the string pushed onto [out].
    Reading an array past its end gives [undefined] in JavaScript, which
    the body would print as a word or fail on ([undefined.trim()]); the
    embedding stops there with [None], and a session built by
    [animateTextScramble] never gets there. *)
Definition pushed (s : session) (revealCount highlightIndex : Z) (i : nat)
  : option jsstring :=
  if Z.of_nat i <? revealCount then
    c ← toPadded s !! i; Some (escapeHtml c)
  else
    sourceChar ← fromPadded s !! i;
    let charToShow := charToShowOf sourceChar in
    if (Z.of_nat i =? highlightIndex) && negb (bool_decide (trim sourceChar = []))
    then Some (span_open ++ escapeHtml charToShow ++ span_close)
    else Some (escapeHtml charToShow).

(** [for (let i = 0; i < targetLen; i += 1) { ... out.push(...) }],
    [count] iterations starting at [i]. *)
Fixpoint renderLoop (s : session) (revealCount highlightIndex : Z)
    (count i : nat) (out : list jsstring) : option (list jsstring) :=
  match count with
  | O => Some out
  | S count' =>
    x ← pushed s revealCount highlightIndex i;
    renderLoop s revealCount highlightIndex count' (S i) (out ++ [x])
  end.

(** The loop body read position by position, for an index inside both
    arrays: the source character, the character shown, whether it gets
    the highlight, and the string pushed. *)
Definition sourceAt (s : session) (i : nat) : jsstring :=
  default [] (fromPadded s !! i).

Definition shownAt (s : session) (revealCount : Z) (i : nat) : jsstring :=
  if Z.of_nat i <? revealCount then default [] (toPadded s !! i)
  else charToShowOf (sourceAt s i).

Definition highlightedAt (s : session) (revealCount : Z) (i : nat) : bool :=
  negb (Z.of_nat i <? revealCount)
  && (Z.of_nat i =? highlightIndexOf s revealCount)
  && negb (bool_decide (trim (sourceAt s i) = [])).

Definition cellAt (s : session) (revealCount : Z) (i : nat) : jsstring :=
  if highlightedAt s revealCount i
  then span_open ++ escapeHtml (shownAt s revealCount i) ++ span_close
  else escapeHtml (shownAt s revealCount i).

(** The markup of a frame, from the position-wise reading. *)
Definition frameMarkup (s : session) (revealCount : Z) : jsstring :=
  stripTrailingNbsp (join (List.map (cellAt s revealCount) (seq 0 (targetLen s)))).

(** The characters of a frame, before escaping and without the highlight. *)
Definition frameShown (s : session) (revealCount : Z) : jsstring :=
  concat (List.map (shownAt s revealCount) (seq 0 (targetLen s))).

(** Both arrays of a session have [targetLen] elements. *)
Definition well_formed (s : session) : Prop :=
  length (fromPadded s) = targetLen s /\ length (toPadded s) = targetLen s.

Definition renderOut (s : session) (revealCount : Z) : option (list jsstring) :=
  renderLoop s revealCount (highlightIndexOf s revealCount) (targetLen s) 0 [].

(** The frame callback. The platform has already taken it off its list
    when it runs. Nothing is written before the loop is over, so a loop
    that stops short leaves the page as it was. *)
Definition step (s : session) (now : Q) (st : state) : state :=
  let progress := progressAt s now in
  let revealCount := revealCountAt s now in
  match renderOut s revealCount with
  | None => st
  | Some out =>
    let st1 :=
      if Qle_bool 1 progress
      then setContent (el s) (TextContent (nextText s)) st
      else setContent (el s) (InnerHTML (stripTrailingNbsp (join out))) st in
    if Qlt_bool progress 1 then
      let '(rafId, st2) := requestAnimationFrame (Step s) st1 in
      rafsSet (el s) rafId st2
    else rafsDelete (el s) st1
  end.

(** script.js, lines 722-727: the constants [step] closes over.
    [fromChars.slice(0, targetLen)] followed by
    [Math.max(0, targetLen - fromChars.length)] empty strings. *)
Definition padTo (len : nat) (fromChars : list jsstring) : list jsstring :=
  take len fromChars
  ++ replicate (Z.to_nat (Z.max 0 (Z.of_nat len - Z.of_nat (length fromChars)))) [].

Definition newSession (e : element) (currentText next : jsstring) (clock : Q)
  : session :=
  let fromChars := Array_from currentText in
  let toChars := Array_from next in
  let targetLen := length toChars in
  {| el := e;
     nextText := next;
     fromPadded := padTo targetLen fromChars;
     toPadded := toChars;
     targetLen := targetLen;
     start := clock |}.

(** script.js, lines 709-710: a handle found in the table is cancelled. *)
Definition cancelPrevious (e : element) (st : state) : state :=
  match textAnimationRafs st !! e with
  | Some previousRaf => cancelAnimationFrame previousRaf st
  | None => st
  end.

Section WithParser.
Variable P : parser.

(** script.js, [animateTextScramble]; [clock] is what [performance.now()]
    returns during the call, [None] is a missing element. *)
Definition animateTextScramble (target : option element) (next : jsstring)
    (clock : Q) (st : state) : state :=
  match target with
  | None => st
  | Some e =>
    let st1 := cancelPrevious e st in
    let currentText := textContent P (contentOf st1 e) in
    if bool_decide (currentText = next) then st1
    else if (0 <? childElementCount P (contentOf st1 e))%nat then
      setContent e (TextContent next) st1
    else
      let '(rafId, st2) :=
        requestAnimationFrame (Step (newSession e currentText next clock)) st1 in
      rafsSet e rafId st2
  end.

(** script.js, [setLanguage]: [options.animate && !prefersReducedMotion]. *)
Definition shouldAnimate (animate prefersReducedMotion : bool) : bool :=
  animate && negb prefersReducedMotion.

(** script.js, [applyTranslationsToDom], the body run for one element
    that carries a translated string. *)
Definition applyTranslation (animateText : bool) (e : element) (value : jsstring)
    (clock : Q) (st : state) : state :=
  if animateText then animateTextScramble (Some e) value clock st
  else setContent e (TextContent value) st.

(** The platform runs the callback with handle [h], if it is still on
    the list, after taking it off. *)
Definition runFrameCallback (h : handle) (now : Q) (st : state) : state :=
  match frameCallbacks st !! h with
  | Some (Step s) => step s now (cancelAnimationFrame h st)
  | Some Foreign => cancelAnimationFrame h st
  | None => st
  end.

(** What can happen to the page, as far as the animator is concerned. *)
Inductive event : Type :=
  | Invoke (target : option element) (next : jsstring) (clock : Q)
  | Translate (animateText : bool) (e : element) (value : jsstring) (clock : Q)
  | Frame (h : handle) (now : Q)
  | OtherRequest.

Definition perform (ev : event) (st : state) : state :=
  match ev with
  | Invoke target next clock => animateTextScramble target next clock st
  | Translate a e value clock => applyTranslation a e value clock st
  | Frame h now => runFrameCallback h now st
  | OtherRequest => snd (requestAnimationFrame Foreign st)
  end.

Definition run (evs : list event) (st : state) : state :=
  fold_left (fun acc ev => perform ev acc) evs st.

End WithParser.

(** *** Bookkeeping of the sessions *)

(** A [step] closure waiting for its frame is the one the table names for
    its element. *)
Definition tracked (st : state) : Prop :=
  forall h s, frameCallbacks st !! h = Some (Step s) ->
    textAnimationRafs st !! el s = Some h.

(** The platform never hands out a handle twice. *)
Definition handles_fresh (st : state) : Prop :=
  forall h, is_Some (frameCallbacks st !! h) -> (h < nextHandle st)%positive.

(** A handle in the table that is still waiting belongs to a [step]
    closure for that very element. *)
Definition table_sound (st : state) : Prop :=
  forall e h cb, textAnimationRafs st !! e = Some h ->
    frameCallbacks st !! h = Some cb -> exists s, cb = Step s /\ el s = e.

Definition table_fresh (st : state) : Prop :=
  forall e h, textAnimationRafs st !! e = Some h -> (h < nextHandle st)%positive.

Definition consistent (st : state) : Prop :=
  tracked st /\ handles_fresh st /\ table_sound st /\ table_fresh st.

(** No two waiting sessions write to the same element. *)
Definition one_session_per_element (st : state) : Prop :=
  forall h1 h2 s1 s2,
    frameCallbacks st !! h1 = Some (Step s1) ->
    frameCallbacks st !! h2 = Some (Step s2) ->
    el s1 = el s2 -> h1 = h2.

(** No session is waiting to write to [e]. *)
Definition idle (e : element) (st : state) : Prop :=
  forall h s, frameCallbacks st !! h = Some (Step s) -> el s <> e.

(** A page on which nothing has been asked of the platform yet. *)
Definition freshPage (d : gmap positive content) : state :=
  {| dom := d; textAnimationRafs := ∅; frameCallbacks := ∅; nextHandle := 1%positive |}.

End Animator.

(** ** The specification's words *)

Module Spec.
Import JS Browser Animator.

(** The characters of [a] padded or truncated to the length of [b]. *)
Definition paddedSource (a b : jsstring) : list jsstring :=
  padTo (length (Array_from b)) (Array_from a).

(** Elapsed fraction and reveal count of a tick. *)
Definition elapsedFraction (start now : Q) : Q :=
  Qmin ((now - start) / 1000)%Q 1%Q.

Definition revealCount (start now : Q) (len : nat) : Z :=
  Qfloor (elapsedFraction start now * inject_Z (Z.of_nat len))%Q.

(** The first [k] characters of [b] followed by the remaining positions
    of the padded [a], taken as they are. *)
Definition prefixThenSource (a b : jsstring) (k : Z) : jsstring :=
  concat (take (Z.to_nat k) (Array_from b))
  ++ concat (drop (Z.to_nat k) (paddedSource a b)).

(** The same, with a space of [a] shown as U+00A0 and the run of U+00A0
    that ends the result removed. *)
Definition revealedFrame (a b : jsstring) (k : Z) : jsstring :=
  stripTrailingNbsp
    (concat (take (Z.to_nat k) (Array_from b))
     ++ concat (List.map charToShowOf (drop (Z.to_nat k) (paddedSource a b)))).

(** Combining Diacritical Marks, U+0300 to U+036F: a mark of this block
    belongs to the character before it. *)
Definition is_combining_mark (c : Z) : bool := (768 <=? c) && (c <=? 879).

End Spec.

(** ** Further code of script.js *)

(** *** Driving a session, and the special characters of [escapeHtml] *)

Module Playback.
Import JS Browser Animator.

(** The platform reaches a frame: the callback recorded for [e], if it is
    still on the list, runs with timestamp [now]. *)
Definition tickElement (e : element) (now : Q) (st : state) : state :=
  match textAnimationRafs st !! e with
  | Some h => runFrameCallback h now st
  | None => st
  end.

Definition tickElementAll (e : element) (times : list Q) (st : state) : state :=
  fold_left (fun acc now => tickElement e now acc) times st.


End Playback.

(** *** Translations: [getByPath] and [t] *)

Module Translations.
Import JS Browser Animator.

Definition DOT : Z := 46.

(** [s.split(sep)] for a separator of one code unit. *)
Fixpoint split_on (sep : Z) (s : jsstring) : list jsstring :=
  match s with
  | [] => [[]]
  | c :: rest =>
    if c =? sep then [] :: split_on sep rest
    else
      match split_on sep rest with
      | x :: xs => (c :: x) :: xs
      | [] => [[c]]
      end
  end.

Definition is_digit (c : Z) : bool := (48 <=? c) && (c <=? 57).

(** [/^\d+$/.test(key)] *)
Definition all_digits (key : jsstring) : bool :=
  negb (bool_decide (key = [])) && forallb is_digit key.

(** [Number(key)] for a key of decimal digits. *)
Definition number_of_digits (key : jsstring) : Z :=
  fold_left (fun acc c => 10 * acc + (c - 48)) key 0.

(** What [JSON.parse] gives, plus [undefined] and the values that only a
    prototype can supply (functions and the like). An object is the list
    of its own properties, each key once. Numbers stay abstract: the code
    only asks whether one is falsy (zero or NaN). *)
#[warnings="-register-all"]
Inductive value (number : Type) : Type :=
  | Undefined
  | Null
  | Bool (b : bool)
  | Num (n : number)
  | Str (s : jsstring)
  | Arr (items : list (value number))
  | Obj (fields : list (jsstring * value number))
  | Other (tag : positive).

Arguments Undefined {number}.
Arguments Null {number}.
Arguments Bool {number} b.
Arguments Num {number} n.
Arguments Str {number} s.
Arguments Arr {number} items.
Arguments Obj {number} fields.
Arguments Other {number} tag.

(** What the embedding takes from the engine: which numbers are falsy,
    and what [acc[key]] gives when [key] is not an own property of an
    object or an index of an array (the prototype chain, the length and
    the characters of a string). *)
Class Engine (number : Type) : Type := {
  number_falsy : number -> bool;
  inherited : value number -> jsstring -> value number
}.

Section Values.
Context {number : Type} {engine : Engine number}.

(** [!v] *)
Definition falsy (v : value number) : bool :=
  match v with
  | Undefined | Null => true
  | Bool b => negb b
  | Num n => number_falsy n
  | Str s => bool_decide (s = [])
  | Arr _ | Obj _ | Other _ => false
  end.

(** [v == null] *)
Definition nullish (v : value number) : bool :=
  match v with
  | Undefined | Null => true
  | _ => false
  end.

Fixpoint own (fields : list (jsstring * value number)) (key : jsstring)
  : option (value number) :=
  match fields with
  | [] => None
  | (k, v) :: rest => if bool_decide (k = key) then Some v else own rest key
  end.

(** script.js, [getByPath], the function given to [reduce]. *)
Definition step_key (acc : value number) (key : jsstring) : value number :=
  if nullish acc then Undefined
  else
    match acc with
    | Arr items =>
      if all_digits key
      then default Undefined (items !! Z.to_nat (number_of_digits key))
      else inherited acc key
    | Obj fields => default (inherited acc key) (own fields key)
    | _ => inherited acc key
    end.

(** script.js, [getByPath]. *)
Definition getByPath (obj : value number) (path : jsstring) : value number :=
  if falsy obj || bool_decide (path = []) then Undefined
  else fold_left step_key (split_on DOT path) obj.

(** script.js, [t], over the translations loaded at the time. *)
Definition t (translations : value number) (path : jsstring)
    (fallback : value number) : value number :=
  let v := getByPath translations path in
  if nullish v then fallback else v.

(** script.js, [applyTranslationsToDom], what is done for one element
    with a [data-i18n] key: [t] with its default fallback, the empty
    string, and a write only when the outcome is a string. *)
Definition translateElement (P : parser) (translations : value number)
    (animateText : bool) (e : element) (key : jsstring) (clock : Q) (st : state)
  : state :=
  match t translations key (Str []) with
  | Str s => applyTranslation P animateText e s clock st
  | _ => st
  end.

End Values.

(** An engine for examples: integers for numbers, and nothing found on
    any prototype. *)
Definition bareEngine : Engine Z :=
  {| number_falsy := fun n => n =? 0; inherited := fun _ _ => Undefined |}.

End Translations.

(** *** Projects: data, tag buttons, filter and cards *)

Module Projects.
Import JS.

Record project : Type := {
  id : jsstring;
  title : jsstring;
  description : jsstring;
  details : jsstring;
  tags : list jsstring;
  image : jsstring;
  repo : jsstring
}.

(** script.js, [defaultProjects], as UTF-16 code units. *)
Definition project_events : project := Eval cbv in
  {| id := lit "events";
     title := [1057; 1072; 1081; 1090] ++ lit "-" ++ [1072; 1092; 1110; 1096; 1072] ++ lit " " ++ [1089; 1090; 1091; 1076; 1077; 1085; 1090; 1089; 1100; 1082; 1080; 1093] ++ lit " " ++ [1087; 1086; 1076; 1110; 1081];
     description :=
       [1054; 1076; 1085; 1086; 1089; 1090; 1086; 1088; 1110; 1085; 1082; 1086; 1074; 1080; 1081] ++ lit " " ++ [1089; 1072; 1081; 1090] ++ lit " " ++ [1110; 1079] ++ lit " " ++ [1087; 1088; 1086; 1075; 1088; 1072; 1084; 1086; 1102] ++ lit ", " ++ [1089; 1087; 1110; 1082; 1077; 1088; 1072; 1084; 1080] ++ lit " " ++ [1090; 1072] ++ lit " " ++ [1073; 1083; 1086; 1082; 1086; 1084] ++ lit " " ++ [1088; 1077; 1108; 1089; 1090; 1088; 1072; 1094; 1110; 1111] ++ lit ".";
     details :=
       [1060; 1086; 1082; 1091; 1089] ++ lit ": " ++ [1095; 1080; 1089; 1090; 1072] ++ lit " " ++ [1074; 1077; 1088; 1089; 1090; 1082; 1072] ++ lit ", " ++ [1089; 1090; 1088; 1091; 1082; 1090; 1091; 1088; 1086; 1074; 1072; 1085; 1080; 1081] ++ lit " " ++ [1082; 1086; 1085; 1090; 1077; 1085; 1090] ++ lit ", " ++ [1085; 1072; 1074; 1110; 1075; 1072; 1094; 1110; 1103] ++ lit " " ++ [1087; 1086] ++ lit " " ++ [1089; 1077; 1082; 1094; 1110; 1103; 1093] ++ lit ", " ++ [1085; 1077; 1074; 1077; 1083; 1080; 1082; 1110] ++ lit " " ++ [1110; 1085; 1090; 1077; 1088; 1072; 1082; 1090; 1080; 1074; 1085; 1086; 1089; 1090; 1110] ++ lit " (" ++ [1082; 1085; 1086; 1087; 1082; 1080] ++ lit "/" ++ [1087; 1086; 1089; 1080; 1083; 1072; 1085; 1085; 1103] ++ lit ").";
     tags := [lit "HTML"; lit "CSS"; lit "Landing"];
     image :=
       lit "https://images.unsplash.com/photo-1498050108023-c5249f4df085?auto=format&fit=crop&w=900&q=80";
     repo := lit "https://github.com/" |}.

Definition project_cv : project := Eval cbv in
  {| id := lit "cv";
     title := [1054; 1085; 1083; 1072; 1081; 1085] ++ lit " CV";
     description :=
       [1055; 1077; 1088; 1089; 1086; 1085; 1072; 1083; 1100; 1085; 1080; 1081] ++ lit " " ++ [1089; 1072; 1081; 1090] ++ lit "-" ++ [1088; 1077; 1079; 1102; 1084; 1077] ++ lit " " ++ [1079] ++ lit " " ++ [1072; 1082; 1094; 1077; 1085; 1090; 1086; 1084] ++ lit " " ++ [1085; 1072] ++ lit " " ++ [1089; 1090; 1088; 1091; 1082; 1090; 1091; 1088; 1091] ++ lit " " ++ [1090; 1072] ++ lit " " ++ [1095; 1080; 1090; 1072; 1073; 1077; 1083; 1100; 1085; 1110; 1089; 1090; 1100] ++ lit ".";
     details :=
       [1060; 1086; 1082; 1091; 1089] ++ lit ": " ++ [1083; 1086; 1075; 1110; 1095; 1085; 1110] ++ lit " " ++ [1089; 1077; 1082; 1094; 1110; 1111] ++ lit ", " ++ [1090; 1080; 1087; 1086; 1075; 1088; 1072; 1092; 1110; 1082; 1072] ++ lit ", " ++ [1072; 1076; 1072; 1087; 1090; 1080; 1074; 1085; 1110; 1089; 1090; 1100] ++ lit ". " ++ [1059] ++ lit " " ++ [1094; 1110; 1081] ++ lit " " ++ [1087; 1088; 1072; 1082; 1090; 1080; 1095; 1085; 1110; 1081] ++ lit " " ++ [8212] ++ lit " JS " ++ [1076; 1083; 1103] ++ lit " " ++ [1092; 1110; 1083; 1100; 1090; 1088; 1072; 1094; 1110; 1111] ++ lit "/" ++ [1087; 1086; 1096; 1091; 1082; 1091] ++ lit " " ++ [1090; 1072] ++ lit " " ++ [1090; 1077; 1084; 1080] ++ lit ".";
     tags := [lit "HTML"; lit "CSS"; lit "Portfolio"];
     image :=
       lit "https://images.unsplash.com/photo-1461749280684-dccba630e2f6?auto=format&fit=crop&w=900&q=80";
     repo := lit "https://github.com/" |}.

Definition project_todo : project := Eval cbv in
  {| id := lit "todo";
     title := lit "Todo List";
     description :=
       [1052; 1110; 1085; 1110] ++ lit "-" ++ [1079; 1072; 1089; 1090; 1086; 1089; 1091; 1085; 1086; 1082] ++ lit " " ++ [1076; 1083; 1103] ++ lit " " ++ [1082; 1077; 1088; 1091; 1074; 1072; 1085; 1085; 1103] ++ lit " " ++ [1079; 1072; 1076; 1072; 1095; 1072; 1084; 1080] ++ lit " " ++ [1079] ++ lit " " ++ [1073; 1072; 1079; 1086; 1074; 1086; 1102] ++ lit " " ++ [1083; 1086; 1075; 1110; 1082; 1086; 1102] ++ lit " JavaScript.";
     details :=
       [1060; 1086; 1082; 1091; 1089] ++ lit ": " ++ [1088; 1086; 1073; 1086; 1090; 1072] ++ lit " " ++ [1079; 1110] ++ lit " " ++ [1089; 1090; 1072; 1085; 1086; 1084] ++ lit ", " ++ [1087; 1086; 1076; 1110; 1103; 1084; 1080] ++ lit ", " ++ [1088; 1077; 1085; 1076; 1077; 1088; 1080; 1085; 1075; 1086; 1084] ++ lit " " ++ [1089; 1087; 1080; 1089; 1082; 1091] ++ lit ". " ++ [1059] ++ lit " " ++ [1094; 1110; 1081] ++ lit " " ++ [1074; 1077; 1088; 1089; 1110; 1111] ++ lit " " ++ [1087; 1086; 1082; 1072; 1079; 1072; 1085; 1086] ++ lit " " ++ [1087; 1110; 1076; 1093; 1110; 1076] ++ lit " " ++ [1079] ++ lit " " ++ [1084; 1072; 1089; 1080; 1074; 1072; 1084; 1080] ++ lit " " ++ [1090; 1072] ++ lit " DOM.";
     tags := [lit "JavaScript"; lit "DOM"; lit "Practice"];
     image :=
       lit "https://images.unsplash.com/photo-1484417894907-623942c8ee29?auto=format&fit=crop&w=900&q=80";
     repo := lit "https://github.com/" |}.

Definition project_gallery : project := Eval cbv in
  {| id := lit "gallery";
     title := [1052; 1110; 1085; 1110] ++ lit "-" ++ [1075; 1072; 1083; 1077; 1088; 1077; 1103] ++ lit " " ++ [1092; 1086; 1090; 1086];
     description :=
       [1057; 1090; 1086; 1088; 1110; 1085; 1082; 1072] ++ lit " " ++ [1079] ++ lit " " ++ [1082; 1072; 1088; 1090; 1082; 1072; 1084; 1080] ++ lit " " ++ [1079; 1086; 1073; 1088; 1072; 1078; 1077; 1085; 1100] ++ lit " " ++ [1110] ++ lit " " ++ [1087; 1088; 1086; 1089; 1090; 1080; 1084] ++ lit " " ++ [1087; 1086; 1096; 1091; 1082; 1086; 1084] ++ lit "/" ++ [1092; 1110; 1083; 1100; 1090; 1088; 1086; 1084] ++ lit ".";
     details :=
       [1060; 1086; 1082; 1091; 1089] ++ lit ": " ++ [1088; 1077; 1085; 1076; 1077; 1088] ++ lit " " ++ [1079] ++ lit " " ++ [1076; 1072; 1085; 1080; 1093] ++ lit ", " ++ [1076; 1077; 1083; 1077; 1075; 1091; 1074; 1072; 1085; 1085; 1103] ++ lit " " ++ [1087; 1086; 1076; 1110; 1081] ++ lit ", " ++ [1088; 1086; 1073; 1086; 1090; 1072] ++ lit " " ++ [1079] ++ lit " dataset, " ++ [1073; 1072; 1079; 1086; 1074; 1110] ++ lit " UI-" ++ [1089; 1090; 1072; 1085; 1080] ++ lit ".";
     tags := [lit "JavaScript"; lit "UI"; lit "Filter"];
     image :=
       lit "https://images.unsplash.com/photo-1516035069371-29a1b244cc32?auto=format&fit=crop&w=900&q=80";
     repo := lit "https://github.com/" |}.

Definition project_notes : project := Eval cbv in
  {| id := lit "notes";
     title := [1053; 1086; 1090; 1072; 1090; 1082; 1080] ++ lit " " ++ [1085; 1072; 1074; 1095; 1072; 1083; 1100; 1085; 1086; 1075; 1086] ++ lit " " ++ [1082; 1091; 1088; 1089; 1091];
     description :=
       [1053; 1077; 1074; 1077; 1083; 1080; 1082; 1080; 1081] ++ lit " " ++ [1076; 1086; 1074; 1110; 1076; 1085; 1080; 1082] ++ lit " " ++ [1079] ++ lit " " ++ [1090; 1077; 1084; 1072; 1084; 1080] ++ lit " " ++ [1082; 1091; 1088; 1089; 1091] ++ lit " " ++ [1090; 1072] ++ lit " " ++ [1087; 1088; 1080; 1082; 1083; 1072; 1076; 1072; 1084; 1080] ++ lit ".";
     details :=
       [1060; 1086; 1082; 1091; 1089] ++ lit ": " ++ [1089; 1090; 1088; 1091; 1082; 1090; 1091; 1088; 1091; 1074; 1072; 1085; 1085; 1103] ++ lit " " ++ [1110; 1085; 1092; 1086; 1088; 1084; 1072; 1094; 1110; 1111] ++ lit ", " ++ [1084; 1110; 1082; 1088; 1086] ++ lit "-" ++ [1110; 1085; 1090; 1077; 1088; 1072; 1082; 1090; 1080; 1074; 1085; 1086; 1089; 1090; 1110] ++ lit " (" ++ [1087; 1086; 1096; 1091; 1082] ++ lit "), " ++ [1072; 1082; 1091; 1088; 1072; 1090; 1085; 1080; 1081] ++ lit " " ++ [1110; 1085; 1090; 1077; 1088; 1092; 1077; 1081; 1089] ++ lit " " ++ [1073; 1077; 1079] ++ lit " " ++ [1092; 1088; 1077; 1081; 1084; 1074; 1086; 1088; 1082; 1110; 1074] ++ lit ".";
     tags := [lit "JavaScript"; lit "Content"; lit "Search"];
     image :=
       lit "https://images.unsplash.com/photo-1456324504439-367cee3b3c32?auto=format&fit=crop&w=900&q=80";
     repo := lit "https://github.com/" |}.

Definition defaultProjects : list project :=
  [project_events; project_cv; project_todo; project_gallery; project_notes].

(** script.js, [getProjectsData]. [translated] is what
    [appState.translations?.projects?.items] holds when it is an array,
    its elements read as project records; [None] is anything else. *)
Definition getProjectsData (translated : option (list project)) : list project :=
  match translated with
  | Some items => if (0 <? length items)%nat then items else defaultProjects
  | None => defaultProjects
  end.

(** [Array.from(new Set(l))]: the first occurrence of each string, in
    order. *)
Fixpoint setOf (l : list jsstring) : list jsstring :=
  match l with
  | [] => []
  | x :: rest => x :: List.filter (fun y => negb (bool_decide (y = x))) (setOf rest)
  end.

(** [arr.sort(cmp)]: the sort is stable; for a comparator that is not
    an order the outcome is left to the engine, and insertion is one
    outcome. *)
Fixpoint insertSorted (cmp : jsstring -> jsstring -> Z) (x : jsstring)
    (sorted : list jsstring) : list jsstring :=
  match sorted with
  | [] => [x]
  | y :: rest =>
    if cmp x y <? 0 then x :: sorted else y :: insertSorted cmp x rest
  end.

Definition sortWith (cmp : jsstring -> jsstring -> Z) (l : list jsstring)
  : list jsstring :=
  fold_left (fun sorted x => insertSorted cmp x sorted) l [].

Record tagButton : Type := {
  dataTag : jsstring;
  label : jsstring;
  active : bool
}.

(** script.js, [renderTagButtons] with [setActiveTag]: the buttons put
    into the tag list. [localeCompare lang a b] is
    [a.localeCompare(b, lang)], [allLabel] the text of
    [t('projects.allTag', ...)]. *)
Definition uniqueTags (localeCompare : jsstring -> jsstring -> jsstring -> Z)
    (lang : jsstring) (projects : list project) : list jsstring :=
  sortWith (localeCompare lang) (setOf (flat_map tags projects)).

Definition createTagButton (activeTag tagValue label : jsstring) : tagButton :=
  {| dataTag := tagValue; label := label;
     active := bool_decide (tagValue = activeTag) |}.

Definition renderTagButtons (localeCompare : jsstring -> jsstring -> jsstring -> Z)
    (lang allLabel stateTag : jsstring) (projects : list project) : list tagButton :=
  createTagButton stateTag (lit "all") allLabel
  :: List.map (fun t => createTagButton stateTag t t)
       (uniqueTags localeCompare lang projects).

(** script.js, [renderProjects], the filter. *)
Definition matchesTag (stateTag : jsstring) (p : project) : bool :=
  bool_decide (stateTag = lit "all") || bool_decide (stateTag ∈ tags p).

Definition escapeHtmlAttr (str : jsstring) : jsstring := escapeHtml str.

(** The texts [renderProjects] takes from [t], as strings. *)
Record labels : Type := {
  emptyTitle : jsstring;
  emptyText : jsstring;
  detailsButton : jsstring;
  repoLink : jsstring
}.

(** The fixed parts of the two template literals of [renderProjects]. *)
Definition card_0 : jsstring := Eval cbv in
  ([10] ++ lit "      <img class=" ++ [34] ++ lit "project-image" ++ [34] ++ lit " src=" ++ [34]).
Definition card_1 : jsstring := Eval cbv in
  ([34] ++ lit " alt=" ++ [34; 1055; 1088; 1086; 1108; 1082; 1090] ++ lit ": ").
Definition card_2 : jsstring := Eval cbv in
  ([34] ++ lit " width=" ++ [34] ++ lit "500" ++ [34] ++ lit " height=" ++ [34] ++ lit "300" ++ [34] ++ lit ">" ++ [10] ++ lit "      <h3>").
Definition card_3 : jsstring := Eval cbv in
  (lit "</h3>" ++ [10] ++ lit "      <p>").
Definition card_4 : jsstring := Eval cbv in
  (lit "</p>" ++ [10; 10] ++ lit "      <div class=" ++ [34] ++ lit "project-tags" ++ [34] ++ lit ">" ++ [10] ++ lit "        ").
Definition card_5 : jsstring := Eval cbv in
  ([10] ++ lit "      </div>" ++ [10; 10] ++ lit "      <div class=" ++ [34] ++ lit "project-footer" ++ [34] ++ lit ">" ++ [10] ++ lit "        <button class=" ++ [34] ++ lit "btn btn--ghost" ++ [34] ++ lit " type=" ++ [34] ++ lit "button" ++ [34] ++ lit " data-action=" ++ [34] ++ lit "open" ++ [34] ++ lit ">").
Definition card_6 : jsstring := Eval cbv in
  (lit "</button>" ++ [10] ++ lit "        <a href=" ++ [34]).
Definition card_7 : jsstring := Eval cbv in
  ([34] ++ lit " target=" ++ [34] ++ lit "_blank" ++ [34] ++ lit " rel=" ++ [34] ++ lit "noopener noreferrer" ++ [34] ++ lit ">").
Definition card_8 : jsstring := Eval cbv in
  (lit "</a>" ++ [10] ++ lit "      </div>" ++ [10] ++ lit "    ").
Definition tag_open : jsstring := Eval cbv in
  (lit "<span class=" ++ [34] ++ lit "tag" ++ [34] ++ lit " aria-hidden=" ++ [34] ++ lit "true" ++ [34] ++ lit ">").
Definition tag_close : jsstring := Eval cbv in (lit "</span>").
Definition empty_0 : jsstring := Eval cbv in
  ([10] ++ lit "      <h3>").
Definition empty_1 : jsstring := Eval cbv in
  (lit "</h3>" ++ [10] ++ lit "      <p>").
Definition empty_2 : jsstring := Eval cbv in
  (lit "</p>" ++ [10] ++ lit "    ").

Definition tagSpan (t : jsstring) : jsstring := tag_open ++ escapeHtml t ++ tag_close.

Definition cardMarkup (l : labels) (p : project) : jsstring :=
  card_0 ++ escapeHtmlAttr (image p)
  ++ card_1 ++ escapeHtmlAttr (title p)
  ++ card_2 ++ escapeHtml (title p)
  ++ card_3 ++ escapeHtml (description p)
  ++ card_4 ++ join (List.map tagSpan (tags p))
  ++ card_5 ++ escapeHtml (detailsButton l)
  ++ card_6 ++ escapeHtmlAttr (repo p)
  ++ card_7 ++ escapeHtml (repoLink l)
  ++ card_8.

Definition emptyMarkup (l : labels) : jsstring :=
  empty_0 ++ escapeHtml (emptyTitle l) ++ empty_1 ++ escapeHtml (emptyText l) ++ empty_2.

(** An [article] appended to the grid. *)
Record card : Type := {
  className : jsstring;
  projectId : option jsstring;
  innerHTML : jsstring
}.

Record rendering : Type := {
  resultCount : jsstring;
  cards : list card
}.

(** [String(n)] for a length. *)
Definition decimal (n : nat) : jsstring :=
  lit (NilZero.string_of_uint (Nat.to_uint n)).

(** script.js, [renderProjects]: what is written to the counter and to
    the grid. *)
Definition renderProjects (l : labels) (stateTag : jsstring) (projects : list project)
  : rendering :=
  let filtered := List.filter (matchesTag stateTag) projects in
  {| resultCount := decimal (length filtered) ++ lit " / " ++ decimal (length projects);
     cards :=
       match filtered with
       | [] => [{| className := lit "card"; projectId := None;
                   innerHTML := emptyMarkup l |}]
       | _ => List.map (fun p => {| className := lit "card project-card";
                                    projectId := Some (id p);
                                    innerHTML := cardMarkup l p |}) filtered
       end |}.

(** A line break followed by [n] spaces, as the templates are laid out. *)
Definition indent (n : nat) : jsstring := 10 :: replicate n 32.

(** The layout of the card template around the texts that show. *)
Definition cardLayout (t d : jsstring) (ts : list jsstring) (b r : jsstring)
  : jsstring :=
  indent 6 ++ indent 6 ++ t
  ++ indent 6 ++ d
  ++ [10] ++ indent 6 ++ indent 8 ++ concat ts
  ++ indent 6 ++ [10] ++ indent 6 ++ indent 8 ++ b
  ++ indent 8 ++ r
  ++ indent 6 ++ indent 4.

(** The text a card displays: the layout around the project's texts and
    the labels, each as it is read back from the markup. *)
Definition cardText (l : labels) (p : project) : jsstring :=
  cardLayout (Browser.readBack (title p)) (Browser.readBack (description p))
    (List.map Browser.readBack (tags p))
    (Browser.readBack (detailsButton l)) (Browser.readBack (repoLink l)).

(** The characters that open and close tags and attribute values. *)
Definition is_delimiter (c : Z) : bool :=
  (c =? LT) || (c =? GT) || (c =? QUOT) || (c =? APOS).

End Projects.

(** *** The details modal *)

Module Modal.
Import JS Projects.

Definition MODAL_OPEN : jsstring := Eval cbv in lit "modal--open".
Definition MODAL_VISIBLE : jsstring := Eval cbv in lit "modal--visible".
Definition MODAL_CLOSING : jsstring := Eval cbv in lit "modal--closing".
Definition NO_SCROLL : jsstring := Eval cbv in lit "no-scroll".
Definition TRUE : jsstring := Eval cbv in lit "true".
Definition FALSE : jsstring := Eval cbv in lit "false".
Definition ESCAPE : jsstring := Eval cbv in lit "Escape".

(** What the page offers: the modal itself, and the four elements its
    content goes to. *)
Record page : Type := {
  hasModal : bool;
  hasParts : bool
}.

(** Callbacks waiting on the platform, as far as the modal goes: its own
    and those of other code. *)
Inductive frameCallback : Type :=
  | ShowModal
  | OtherFrame.

Inductive timerCallback : Type :=
  | FinishClose
  | OtherTimer.

(** The module variables of section 4 of script.js, the part of the
    document they govern and the platform's two lists. Focus
    ([lastFocusedElement]) is not part of the embedding. *)
Record state : Type := {
  modalClasses : gset (list Z);
  ariaHidden : option jsstring;
  bodyClasses : gset (list Z);
  modalTitle : jsstring;
  modalDesc : jsstring;
  modalTags : list jsstring;
  modalRepo : jsstring;
  activeProjectId : option jsstring;
  modalCloseTimer : option positive;
  modalOpenFrame : option positive;
  timers : gmap positive timerCallback;
  frames : gmap positive frameCallback;
  nextTimer : positive;
  nextFrame : positive
}.

Definition withClasses (f : gset (list Z) -> gset (list Z)) (st : state) : state :=
  {| modalClasses := f (modalClasses st); ariaHidden := ariaHidden st;
     bodyClasses := bodyClasses st; modalTitle := modalTitle st;
     modalDesc := modalDesc st; modalTags := modalTags st; modalRepo := modalRepo st;
     activeProjectId := activeProjectId st; modalCloseTimer := modalCloseTimer st;
     modalOpenFrame := modalOpenFrame st; timers := timers st; frames := frames st;
     nextTimer := nextTimer st; nextFrame := nextFrame st |}.

Definition withBodyClasses (f : gset (list Z) -> gset (list Z)) (st : state) : state :=
  {| modalClasses := modalClasses st; ariaHidden := ariaHidden st;
     bodyClasses := f (bodyClasses st); modalTitle := modalTitle st;
     modalDesc := modalDesc st; modalTags := modalTags st; modalRepo := modalRepo st;
     activeProjectId := activeProjectId st; modalCloseTimer := modalCloseTimer st;
     modalOpenFrame := modalOpenFrame st; timers := timers st; frames := frames st;
     nextTimer := nextTimer st; nextFrame := nextFrame st |}.

Definition setAriaHidden (v : jsstring) (st : state) : state :=
  {| modalClasses := modalClasses st; ariaHidden := Some v;
     bodyClasses := bodyClasses st; modalTitle := modalTitle st;
     modalDesc := modalDesc st; modalTags := modalTags st; modalRepo := modalRepo st;
     activeProjectId := activeProjectId st; modalCloseTimer := modalCloseTimer st;
     modalOpenFrame := modalOpenFrame st; timers := timers st; frames := frames st;
     nextTimer := nextTimer st; nextFrame := nextFrame st |}.

Definition setActiveProjectId (v : option jsstring) (st : state) : state :=
  {| modalClasses := modalClasses st; ariaHidden := ariaHidden st;
     bodyClasses := bodyClasses st; modalTitle := modalTitle st;
     modalDesc := modalDesc st; modalTags := modalTags st; modalRepo := modalRepo st;
     activeProjectId := v; modalCloseTimer := modalCloseTimer st;
     modalOpenFrame := modalOpenFrame st; timers := timers st; frames := frames st;
     nextTimer := nextTimer st; nextFrame := nextFrame st |}.

Definition setModalCloseTimer (v : option positive) (st : state) : state :=
  {| modalClasses := modalClasses st; ariaHidden := ariaHidden st;
     bodyClasses := bodyClasses st; modalTitle := modalTitle st;
     modalDesc := modalDesc st; modalTags := modalTags st; modalRepo := modalRepo st;
     activeProjectId := activeProjectId st; modalCloseTimer := v;
     modalOpenFrame := modalOpenFrame st; timers := timers st; frames := frames st;
     nextTimer := nextTimer st; nextFrame := nextFrame st |}.

Definition setModalOpenFrame (v : option positive) (st : state) : state :=
  {| modalClasses := modalClasses st; ariaHidden := ariaHidden st;
     bodyClasses := bodyClasses st; modalTitle := modalTitle st;
     modalDesc := modalDesc st; modalTags := modalTags st; modalRepo := modalRepo st;
     activeProjectId := activeProjectId st; modalCloseTimer := modalCloseTimer st;
     modalOpenFrame := v; timers := timers st; frames := frames st;
     nextTimer := nextTimer st; nextFrame := nextFrame st |}.

Definition classAdd (c : jsstring) (s : gset (list Z)) : gset (list Z) := {[ c ]} ∪ s.
Definition classRemove (c : jsstring) (s : gset (list Z)) : gset (list Z) := s ∖ {[ c ]}.
Definition classContains (c : jsstring) (s : gset (list Z)) : bool := bool_decide (c ∈ s).

Definition setTimeout (cb : timerCallback) (st : state) : positive * state :=
  (nextTimer st,
   {| modalClasses := modalClasses st; ariaHidden := ariaHidden st;
      bodyClasses := bodyClasses st; modalTitle := modalTitle st;
      modalDesc := modalDesc st; modalTags := modalTags st; modalRepo := modalRepo st;
      activeProjectId := activeProjectId st; modalCloseTimer := modalCloseTimer st;
      modalOpenFrame := modalOpenFrame st;
      timers := <[nextTimer st := cb]> (timers st); frames := frames st;
      nextTimer := (nextTimer st + 1)%positive; nextFrame := nextFrame st |}).

Definition clearTimeout (h : positive) (st : state) : state :=
  {| modalClasses := modalClasses st; ariaHidden := ariaHidden st;
     bodyClasses := bodyClasses st; modalTitle := modalTitle st;
     modalDesc := modalDesc st; modalTags := modalTags st; modalRepo := modalRepo st;
     activeProjectId := activeProjectId st; modalCloseTimer := modalCloseTimer st;
     modalOpenFrame := modalOpenFrame st;
     timers := delete h (timers st); frames := frames st;
     nextTimer := nextTimer st; nextFrame := nextFrame st |}.

Definition requestAnimationFrame (cb : frameCallback) (st : state) : positive * state :=
  (nextFrame st,
   {| modalClasses := modalClasses st; ariaHidden := ariaHidden st;
      bodyClasses := bodyClasses st; modalTitle := modalTitle st;
      modalDesc := modalDesc st; modalTags := modalTags st; modalRepo := modalRepo st;
      activeProjectId := activeProjectId st; modalCloseTimer := modalCloseTimer st;
      modalOpenFrame := modalOpenFrame st;
      timers := timers st; frames := <[nextFrame st := cb]> (frames st);
      nextTimer := nextTimer st; nextFrame := (nextFrame st + 1)%positive |}).

Definition cancelAnimationFrame (h : positive) (st : state) : state :=
  {| modalClasses := modalClasses st; ariaHidden := ariaHidden st;
     bodyClasses := bodyClasses st; modalTitle := modalTitle st;
     modalDesc := modalDesc st; modalTags := modalTags st; modalRepo := modalRepo st;
     activeProjectId := activeProjectId st; modalCloseTimer := modalCloseTimer st;
     modalOpenFrame := modalOpenFrame st;
     timers := timers st; frames := delete h (frames st);
     nextTimer := nextTimer st; nextFrame := nextFrame st |}.

(** script.js, [fillProjectModal], its writes. *)
Definition fillProjectModal (pg : page) (p : project) (st : state) : state :=
  if negb (hasParts pg) then st
  else
    {| modalClasses := modalClasses st; ariaHidden := ariaHidden st;
       bodyClasses := bodyClasses st; modalTitle := title p;
       modalDesc := details p; modalTags := tags p; modalRepo := repo p;
       activeProjectId := activeProjectId st; modalCloseTimer := modalCloseTimer st;
       modalOpenFrame := modalOpenFrame st; timers := timers st; frames := frames st;
       nextTimer := nextTimer st; nextFrame := nextFrame st |}.

(** [getProjectsData().find((x) => x.id === projectId)] *)
Definition findProject (translated : option (list project)) (projectId : jsstring)
  : option project :=
  List.find (fun x => bool_decide (id x = projectId)) (getProjectsData translated).

(** [if (modalCloseTimer) { clearTimeout(modalCloseTimer); modalCloseTimer = null; }] *)
Definition dropCloseTimer (st : state) : state :=
  match modalCloseTimer st with
  | Some h => setModalCloseTimer None (clearTimeout h st)
  | None => st
  end.

(** [if (modalOpenFrame) { cancelAnimationFrame(modalOpenFrame); modalOpenFrame = null; }] *)
Definition dropOpenFrame (st : state) : state :=
  match modalOpenFrame st with
  | Some h => setModalOpenFrame None (cancelAnimationFrame h st)
  | None => st
  end.

(** script.js, [openProjectModal]. *)
Definition openProjectModal (pg : page) (translated : option (list project))
    (projectId : jsstring) (st : state) : state :=
  if negb (hasModal pg && hasParts pg) then st
  else
    match findProject translated projectId with
    | None => st
    | Some p =>
      let st1 := setActiveProjectId (Some projectId) st in
      let st2 := fillProjectModal pg p st1 in
      let st3 := dropCloseTimer st2 in
      let st4 := dropOpenFrame st3 in
      let st5 := withClasses (classRemove MODAL_CLOSING) st4 in
      let st6 := withClasses (classRemove MODAL_VISIBLE) st5 in
      let st7 := withClasses (classAdd MODAL_OPEN) st6 in
      let st8 := setAriaHidden FALSE st7 in
      let st9 := withBodyClasses (classAdd NO_SCROLL) st8 in
      let '(h, st10) := requestAnimationFrame ShowModal st9 in
      setModalOpenFrame (Some h) st10
    end.

(** script.js, [closeModal]. *)
Definition closeModal (pg : page) (st : state) : state :=
  if negb (hasModal pg) then st
  else if negb (classContains MODAL_OPEN (modalClasses st)) then st
  else
    let st1 := dropOpenFrame st in
    let st2 := withClasses (classRemove MODAL_VISIBLE) st1 in
    let st3 := withClasses (classRemove MODAL_OPEN) st2 in
    let st4 := withClasses (classAdd MODAL_CLOSING) st3 in
    let st5 :=
      match modalCloseTimer st4 with
      | Some h => clearTimeout h st4
      | None => st4
      end in
    let '(h, st6) := setTimeout FinishClose st5 in
    setModalCloseTimer (Some h) st6.

(** The callback given to [requestAnimationFrame] by [openProjectModal]. *)
Definition showModal (st : state) : state :=
  setModalOpenFrame None (withClasses (classAdd MODAL_VISIBLE) st).

(** The callback given to [setTimeout] by [closeModal]. *)
Definition finishClose (st : state) : state :=
  let st1 := withClasses (classRemove MODAL_CLOSING) st in
  let st2 := setAriaHidden TRUE st1 in
  let st3 := withBodyClasses (classRemove NO_SCROLL) st2 in
  let st4 := setActiveProjectId None st3 in
  setModalCloseTimer None st4.

(** script.js, [initModal], the [keydown] listener. *)
Definition onKeydown (pg : page) (key : jsstring) (st : state) : state :=
  if negb (hasModal pg) then st
  else if negb (classContains MODAL_OPEN (modalClasses st)) then st
  else if bool_decide (key = ESCAPE) then closeModal pg st
  else st.

(** script.js, [syncOpenModalTranslation]. *)
Definition syncOpenModalTranslation (pg : page) (translated : option (list project))
    (st : state) : state :=
  match activeProjectId st with
  | None => st
  | Some active =>
    if bool_decide (active = []) then st
    else if negb (hasModal pg) || bool_decide (ariaHidden st = Some TRUE) then st
    else
      match findProject translated active with
      | None => st
      | Some project => fillProjectModal pg project st
      end
  end.

(** The platform runs a frame callback or a timer, after taking it off
    its list. *)
Definition runFrame (h : positive) (st : state) : state :=
  match frames st !! h with
  | Some ShowModal => showModal (cancelAnimationFrame h st)
  | Some OtherFrame => cancelAnimationFrame h st
  | None => st
  end.

Definition runTimer (h : positive) (st : state) : state :=
  match timers st !! h with
  | Some FinishClose => finishClose (clearTimeout h st)
  | Some OtherTimer => clearTimeout h st
  | None => st
  end.

Inductive event : Type :=
  | Open (translated : option (list project)) (projectId : jsstring)
  | Close
  | Keydown (key : jsstring)
  | Sync (translated : option (list project))
  | FrameFires (h : positive)
  | TimerFires (h : positive)
  | OtherFrameRequest
  | OtherTimerRequest.

Definition perform (pg : page) (ev : event) (st : state) : state :=
  match ev with
  | Open translated projectId => openProjectModal pg translated projectId st
  | Close => closeModal pg st
  | Keydown key => onKeydown pg key st
  | Sync translated => syncOpenModalTranslation pg translated st
  | FrameFires h => runFrame h st
  | TimerFires h => runTimer h st
  | OtherFrameRequest => snd (requestAnimationFrame OtherFrame st)
  | OtherTimerRequest => snd (setTimeout OtherTimer st)
  end.

Definition run (pg : page) (evs : list event) (st : state) : state :=
  fold_left (fun acc ev => perform pg ev acc) evs st.

Definition shown (st : state) : Prop :=
  MODAL_OPEN ∈ modalClasses st \/ MODAL_CLOSING ∈ modalClasses st.

(** What the modal's code keeps true of its state. *)
Record coherent (st : state) : Prop := {
  closing_timer : MODAL_CLOSING ∈ modalClasses st <-> is_Some (modalCloseTimer st);
  timer_recorded : forall h, timers st !! h = Some FinishClose <-> modalCloseTimer st = Some h;
  frame_recorded : forall h, frames st !! h = Some ShowModal <-> modalOpenFrame st = Some h;
  frame_opening : is_Some (modalOpenFrame st) ->
                  MODAL_OPEN ∈ modalClasses st /\ (MODAL_VISIBLE ∉ modalClasses st);
  visible_open : MODAL_VISIBLE ∈ modalClasses st -> MODAL_OPEN ∈ modalClasses st;
  open_not_closing : ~ (MODAL_OPEN ∈ modalClasses st /\ MODAL_CLOSING ∈ modalClasses st);
  scroll_locked : NO_SCROLL ∈ bodyClasses st <-> shown st;
  aria_shown : ariaHidden st = Some FALSE <-> shown st;
  aria_hidden : ariaHidden st = Some TRUE <-> ~ shown st;
  active_shown : is_Some (activeProjectId st) <-> shown st;
  timers_fresh : forall h, is_Some (timers st !! h) -> (h < nextTimer st)%positive;
  frames_fresh : forall h, is_Some (frames st !! h) -> (h < nextFrame st)%positive
}.

(** The modal as the page has it before anything happened: hidden and
    without any of the classes the code deals in. *)
Definition atRest (st : state) : Prop :=
  (MODAL_OPEN ∉ modalClasses st) /\ (MODAL_VISIBLE ∉ modalClasses st)
  /\ (MODAL_CLOSING ∉ modalClasses st) /\ (NO_SCROLL ∉ bodyClasses st)
  /\ ariaHidden st = Some TRUE /\ activeProjectId st = None
  /\ modalCloseTimer st = None /\ modalOpenFrame st = None
  /\ (forall h, timers st !! h <> Some FinishClose)
  /\ (forall h, frames st !! h <> Some ShowModal).

(** The events that ask for the modal to be closed. *)
Definition requestsClose (ev : event) : bool :=
  match ev with
  | Close => true
  | Keydown key => bool_decide (key = ESCAPE)
  | _ => false
  end.

(** A page whose modal is hidden and where nothing is waiting. *)
Definition hiddenModal : state :=
  {| modalClasses := {[ lit "modal" ]}; ariaHidden := Some TRUE;
     bodyClasses := ∅; modalTitle := []; modalDesc := []; modalTags := [];
     modalRepo := lit "#"; activeProjectId := None; modalCloseTimer := None;
     modalOpenFrame := None; timers := ∅; frames := ∅;
     nextTimer := 1%positive; nextFrame := 1%positive |}.

Definition fullPage : page := {| hasModal := true; hasParts := true |}.

End Modal.

(** *** The theme switch *)

Module Theme.
Import JS.

Definition DARK : jsstring := Eval cbv in lit "dark".
Definition LIGHT : jsstring := Eval cbv in lit "light".
Definition THEME_TRANSITION : jsstring := Eval cbv in lit "theme-transition".
Definition TRUE : jsstring := Eval cbv in lit "true".
Definition FALSE : jsstring := Eval cbv in lit "false".

(** What a call finds around it: the two media queries
    ([window.matchMedia && window.matchMedia(...).matches]) and the two
    labels [t("theme.light", ...)] and [t("theme.dark", ...)] of the
    current translations. *)
Record surroundings : Type := {
  prefersDark : bool;
  prefersReducedMotion : bool;
  lightLabel : jsstring;
  darkLabel : jsstring
}.

(** The body's class list, the [theme] entry of [localStorage], the
    three attributes of the toggle and the timers that will remove the
    transition class. *)
Record state : Type := {
  bodyClasses : gset (list Z);
  storedTheme : option jsstring;
  ariaPressed : option jsstring;
  ariaLabel : option jsstring;
  titleAttr : option jsstring;
  removals : gset positive;
  nextTimer : positive
}.

(** [String(b)] for a boolean. *)
Definition stringOfBool (b : bool) : jsstring := if b then TRUE else FALSE.

(** [classList.toggle(c, force)] *)
Definition classToggle (c : jsstring) (force : bool) (s : gset (list Z)) : gset (list Z) :=
  if force then {[ c ]} ∪ s else s ∖ {[ c ]}.

(** script.js, [updateThemeToggleLabel]. *)
Definition updateThemeToggleLabel (hasToggle : bool) (w : surroundings) (isDark : bool)
    (st : state) : state :=
  if negb hasToggle then st
  else
    let label := if isDark then lightLabel w else darkLabel w in
    {| bodyClasses := bodyClasses st; storedTheme := storedTheme st;
       ariaPressed := Some (stringOfBool isDark);
       ariaLabel := Some label; titleAttr := Some label;
       removals := removals st; nextTimer := nextTimer st |}.

(** script.js, [applyTheme]. *)
Definition applyTheme (hasToggle : bool) (w : surroundings) (theme : jsstring)
    (animate : bool) (st : state) : state :=
  let isDark := bool_decide (theme = DARK) in
  let st1 :=
    if animate && negb (prefersReducedMotion w) then
      {| bodyClasses := {[ THEME_TRANSITION ]} ∪ bodyClasses st;
         storedTheme := storedTheme st; ariaPressed := ariaPressed st;
         ariaLabel := ariaLabel st; titleAttr := titleAttr st;
         removals := {[ nextTimer st ]} ∪ removals st;
         nextTimer := (nextTimer st + 1)%positive |}
    else st in
  let st2 :=
    {| bodyClasses := classToggle DARK isDark (bodyClasses st1);
       storedTheme := Some theme; ariaPressed := ariaPressed st1;
       ariaLabel := ariaLabel st1; titleAttr := titleAttr st1;
       removals := removals st1; nextTimer := nextTimer st1 |} in
  updateThemeToggleLabel hasToggle w isDark st2.

(** script.js, [initTheme], up to the registration of the listener. *)
Definition initTheme (hasToggle : bool) (w : surroundings) (st : state) : state :=
  if negb hasToggle then st
  else
    let initialTheme :=
      match storedTheme st with
      | Some stored => stored
      | None => if prefersDark w then DARK else LIGHT
      end in
    applyTheme hasToggle w initialTheme false st.

(** The [click] listener of the toggle; [initTheme] registers it only on
    a page that has the toggle. *)
Definition onToggleClick (hasToggle : bool) (w : surroundings) (st : state) : state :=
  if negb hasToggle then st
  else
    let isDark := bool_decide (DARK ∈ bodyClasses st) in
    applyTheme hasToggle w (if isDark then LIGHT else DARK) true st.

(** The callback given to [setTimeout] by [applyTheme], run by the
    platform once. *)
Definition runTimer (h : positive) (st : state) : state :=
  if bool_decide (h ∈ removals st) then
    {| bodyClasses := bodyClasses st ∖ {[ THEME_TRANSITION ]};
       storedTheme := storedTheme st; ariaPressed := ariaPressed st;
       ariaLabel := ariaLabel st; titleAttr := titleAttr st;
       removals := removals st ∖ {[ h ]}; nextTimer := nextTimer st |}
  else st.

(** The last line of [applyTranslationsToDom]. *)
Definition relabel (hasToggle : bool) (w : surroundings) (st : state) : state :=
  updateThemeToggleLabel hasToggle w (bool_decide (DARK ∈ bodyClasses st)) st.

Inductive event : Type :=
  | Click (w : surroundings)
  | TimerFires (h : positive)
  | LanguageChanged (w : surroundings).

Definition perform (hasToggle : bool) (ev : event) (st : state) : state :=
  match ev with
  | Click w => onToggleClick hasToggle w st
  | TimerFires h => runTimer h st
  | LanguageChanged w => relabel hasToggle w st
  end.

Definition run (hasToggle : bool) (evs : list event) (st : state) : state :=
  fold_left (fun acc ev => perform hasToggle ev acc) evs st.

(** The page as loaded: the body carries no transition class, the
    toggle has no state yet and no timer is waiting; what [localStorage]
    holds is whatever an earlier visit left. *)
Definition loadedPage (classes : gset (list Z)) (stored : option jsstring) : state :=
  {| bodyClasses := classes ∖ {[ THEME_TRANSITION ]}; storedTheme := stored;
     ariaPressed := None; ariaLabel := None; titleAttr := None;
     removals := ∅; nextTimer := 1%positive |}.

Definition isDark (st : state) : bool := bool_decide (DARK ∈ bodyClasses st).

(** What holds of the theme once [initTheme] ran. *)
Record in_step (st : state) : Prop := {
  dark_stored : DARK ∈ bodyClasses st <-> storedTheme st = Some DARK;
  stored_some : is_Some (storedTheme st);
  pressed_dark : ariaPressed st = Some (stringOfBool (isDark st));
  labelled : is_Some (ariaLabel st) /\ titleAttr st = ariaLabel st;
  transition_pending : THEME_TRANSITION ∈ bodyClasses st -> exists h, h ∈ removals st;
  removals_fresh : forall h, h ∈ removals st -> (h < nextTimer st)%positive
}.

Definition englishLabels (dark reduced : bool) : surroundings :=
  {| prefersDark := dark; prefersReducedMotion := reduced;
     lightLabel := lit "Light theme"; darkLabel := lit "Dark theme" |}.

End Theme.

(** *** The language of the page *)

Module I18n.
Import JS.

Definition UK : jsstring := Eval cbv in lit "uk".
Definition EN : jsstring := Eval cbv in lit "en".
Definition SUPPORTED_LANGS : list jsstring := [UK; EN].

(** [SUPPORTED_LANGS.includes(lang)] *)
Definition supported (l : jsstring) : bool := bool_decide (l ∈ SUPPORTED_LANGS).

Section Loading.
Context {data : Type}.

(** How [loadTranslations] ends: with the parsed file, or with an
    exception (the request failed, the status was not ok, or the body
    was not JSON). *)
Inductive outcome : Type :=
  | Loaded (d : data)
  | Failed.

(** Where the promise [setLanguage] awaits stands: the request is still
    out, or the promise has settled and [setLanguage] has not resumed
    yet. *)
Inductive waiting : Type :=
  | Fetching
  | Settled (o : outcome).

(** A call of [setLanguage] suspended at one of its two [await]s: the
    one in the [try] block, or the one in the [catch] block
    ([fallback]), which loads ["uk"]. *)
Record task : Type := {
  requested : jsstring;
  animate : bool;
  fallback : bool;
  progress : waiting
}.

(** [appState.lang], the [lang] entry of [localStorage],
    [appState.translations], [I18N_CACHE], the [lang] attribute of the
    document element and the suspended calls. *)
Record state : Type := {
  lang : jsstring;
  storedLang : option jsstring;
  translations : option data;
  cache : gmap (list Z) data;
  htmlLang : option jsstring;
  tasks : gmap positive task;
  nextTask : positive
}.

(** script.js, [loadTranslations], up to its first [await]: a cached
    language settles without a request. *)
Definition loadTranslations (l : jsstring) (st : state) : waiting :=
  match cache st !! l with
  | Some d => Settled (Loaded d)
  | None => Fetching
  end.

(** script.js, [setLanguage], up to its first [await]. *)
Definition setLanguage (l : jsstring) (anim : bool) (st : state) : state :=
  let st1 :=
    {| lang := l; storedLang := Some l; translations := translations st;
       cache := cache st; htmlLang := htmlLang st; tasks := tasks st;
       nextTask := nextTask st |} in
  {| lang := lang st1; storedLang := storedLang st1; translations := translations st1;
     cache := cache st1; htmlLang := htmlLang st1;
     tasks := <[nextTask st1 :=
                 {| requested := l; animate := anim; fallback := false;
                    progress := loadTranslations l st1 |}]> (tasks st1);
     nextTask := (nextTask st1 + 1)%positive |}.

(** script.js, [applyTranslationsToDom], its write to the document
    element; the texts it writes are the subject of the modules above. *)
Definition applyTranslationsToDom (st : state) : state :=
  {| lang := lang st; storedLang := storedLang st; translations := translations st;
     cache := cache st; htmlLang := Some (lang st); tasks := tasks st;
     nextTask := nextTask st |}.

Definition setTranslations (d : data) (st : state) : state :=
  {| lang := lang st; storedLang := storedLang st; translations := Some d;
     cache := cache st; htmlLang := htmlLang st; tasks := tasks st;
     nextTask := nextTask st |}.

Definition setTasks (ts : gmap positive task) (st : state) : state :=
  {| lang := lang st; storedLang := storedLang st; translations := translations st;
     cache := cache st; htmlLang := htmlLang st; tasks := ts;
     nextTask := nextTask st |}.

(** The request of a suspended call comes back: the rest of
    [loadTranslations] runs, which stores a parsed file in the cache. *)
Definition fetchDone (i : positive) (o : outcome) (st : state) : state :=
  match tasks st !! i with
  | Some tk =>
    match progress tk with
    | Fetching =>
      let key := if fallback tk then UK else requested tk in
      {| lang := lang st; storedLang := storedLang st; translations := translations st;
         cache := match o with
                  | Loaded d => <[key := d]> (cache st)
                  | Failed => cache st
                  end;
         htmlLang := htmlLang st;
         tasks := <[i := {| requested := requested tk; animate := animate tk;
                            fallback := fallback tk; progress := Settled o |}]> (tasks st);
         nextTask := nextTask st |}
    | Settled _ => st
    end
  | None => st
  end.

(** A suspended call of [setLanguage] resumes after its [await]. *)
Definition resume (i : positive) (st : state) : state :=
  match tasks st !! i with
  | Some tk =>
    match progress tk with
    | Fetching => st
    | Settled o =>
      let st0 := setTasks (delete i (tasks st)) st in
      match o with
      | Loaded d => applyTranslationsToDom (setTranslations d st0)
      | Failed =>
        if fallback tk then st0
        else if bool_decide (requested tk <> UK) then
          let st1 :=
            {| lang := UK; storedLang := Some UK; translations := translations st0;
               cache := cache st0; htmlLang := htmlLang st0; tasks := tasks st0;
               nextTask := nextTask st0 |} in
          setTasks (<[i := {| requested := requested tk; animate := animate tk;
                              fallback := true;
                              progress := loadTranslations UK st1 |}]> (tasks st1)) st1
        else applyTranslationsToDom st0
      end
    end
  | None => st
  end.

(** script.js, [bindLanguageSwitcher], the [click] listener of a button
    whose [data-lang] is [l]. *)
Definition onLanguageClick (l : jsstring) (st : state) : state :=
  if negb (supported l) || bool_decide (l = lang st) then st
  else setLanguage l true st.

(** script.js, [initI18n], up to its [await]. *)
Definition initI18n (st : state) : state :=
  let initialLang :=
    match storedLang st with
    | Some stored => if supported stored then stored else UK
    | None => UK
    end in
  setLanguage initialLang false st.

Inductive event : Type :=
  | LanguageClick (l : jsstring)
  | FetchDone (i : positive) (o : outcome)
  | Resume (i : positive).

Definition perform (ev : event) (st : state) : state :=
  match ev with
  | LanguageClick l => onLanguageClick l st
  | FetchDone i o => fetchDone i o st
  | Resume i => resume i st
  end.

Definition run (evs : list event) (st : state) : state :=
  fold_left (fun acc ev => perform ev acc) evs st.

(** The page as loaded: [appState] and the cache as script.js declares
    them, [localStorage] and the document's [lang] attribute as found. *)
Definition loadedPage (stored documentLang : option jsstring) : state :=
  {| lang := UK; storedLang := stored; translations := None; cache := ∅;
     htmlLang := documentLang; tasks := ∅; nextTask := 1%positive |}.

(** What holds of the language once [initI18n] started. *)
Record settled_language (documentLang : option jsstring) (st : state) : Prop := {
  lang_supported : lang st ∈ SUPPORTED_LANGS;
  lang_stored : storedLang st = Some (lang st);
  tasks_supported : forall i tk, tasks st !! i = Some tk -> requested tk ∈ SUPPORTED_LANGS;
  cache_supported : forall l, is_Some (cache st !! l) -> l ∈ SUPPORTED_LANGS;
  html_supported : htmlLang st = documentLang
                   \/ exists l, htmlLang st = Some l /\ l ∈ SUPPORTED_LANGS
}.

End Loading.

Arguments outcome : clear implicits.
Arguments waiting : clear implicits.
Arguments task : clear implicits.
Arguments state : clear implicits.
Arguments event : clear implicits.

End I18n.

(** * Properties *)

Import JS Browser Animator.

(** ** Binary64 arithmetic *)

Module Binary64Facts.
Import Binary64.

Lemma pow2_pos z : (0 < pow2 z)%Q.
Proof. unfold pow2. apply Qpower_0_lt. reflexivity. Qed.

Lemma pow2_plus a b : (pow2 (a + b) == pow2 a * pow2 b)%Q.
Proof. unfold pow2. apply Qpower_plus. discriminate. Qed.

Lemma pow2_le a b : a <= b -> (pow2 a <= pow2 b)%Q.
Proof. intros H. unfold pow2. apply Qpower_le_compat_l; [exact H|discriminate]. Qed.

Lemma pow2_lt a b : a < b -> (pow2 a < pow2 b)%Q.
Proof. intros H. unfold pow2. apply Qpower_lt_compat_l; [exact H|reflexivity]. Qed.

Lemma pow2_lt_inv a b : (pow2 a < pow2 b)%Q -> a < b.
Proof. intros H. unfold pow2 in H. apply (Qpower_lt_compat_l_inv 2); [exact H|reflexivity]. Qed.

Lemma pow2_Z a : 0 <= a -> (pow2 a == inject_Z (2 ^ a))%Q.
Proof. intros H. unfold pow2. now rewrite Zpower_Qpower. Qed.

Lemma pow2_succ a : (pow2 (a + 1) == 2 * pow2 a)%Q.
Proof. rewrite pow2_plus. change (pow2 1) with 2%Q. ring. Qed.

Lemma ilog2_spec q : (0 < q)%Q -> (pow2 (ilog2 q) <= q /\ q < pow2 (ilog2 q + 1))%Q.
Proof.
  intros Hq. destruct q as [n d]. unfold ilog2. cbn [Qnum Qden].
  assert (Hn : 0 < n) by (unfold Qlt in Hq; cbn in Hq; lia).
  set (a := Z.log2 n). set (b := Z.log2 (Z.pos d)).
  destruct (Z.log2_spec n Hn) as [Ha1 Ha2]. fold a in Ha1, Ha2.
  destruct (Z.log2_spec (Z.pos d) ltac:(lia)) as [Hb1 Hb2]. fold b in Hb1, Hb2.
  assert (Ha0 : 0 <= a) by apply Z.log2_nonneg.
  assert (Hb0 : 0 <= b) by apply Z.log2_nonneg.
  assert (Hq' : (n # d == inject_Z n / inject_Z (Z.pos d))%Q) by apply Qmake_Qdiv.
  assert (Hd : (0 < inject_Z (Z.pos d))%Q) by (unfold Qlt; cbn; lia).
  assert (Hlow : (pow2 (a - b - 1) <= n # d)%Q).
  { rewrite Hq'. apply Qle_shift_div_l; [exact Hd|].
    apply Qle_trans with (pow2 (a - b - 1) * pow2 (b + 1))%Q.
    - apply Qmult_le_l; [apply pow2_pos|].
      rewrite pow2_Z by lia. rewrite <- Zle_Qle. lia.
    - rewrite <- pow2_plus. replace (a - b - 1 + (b + 1)) with a by ring.
      rewrite pow2_Z by lia. now rewrite <- Zle_Qle. }
  assert (Hhigh : (n # d < pow2 (a - b + 1))%Q).
  { rewrite Hq'. apply Qlt_shift_div_r; [exact Hd|].
    apply Qlt_le_trans with (pow2 (a - b + 1) * pow2 b)%Q.
    - rewrite <- pow2_plus. replace (a - b + 1 + b) with (a + 1) by ring.
      rewrite pow2_Z by lia. now rewrite <- Zlt_Qlt.
    - apply Qmult_le_l; [apply pow2_pos|].
      rewrite pow2_Z by lia. now rewrite <- Zle_Qle. }
  destruct (Qle_bool (pow2 (a - b)) (n # d)) eqn:E.
  - apply Qle_bool_iff in E. split; [exact E|exact Hhigh].
  - split; [exact Hlow|].
    replace (a - b - 1 + 1) with (a - b) by ring.
    apply Qnot_le_lt. intros H. apply Qle_bool_iff in H. congruence.
Qed.

Lemma ilog2_unique q a :
  (pow2 a <= q)%Q -> (q < pow2 (a + 1))%Q -> ilog2 q = a.
Proof.
  intros H1 H2.
  assert (Hq : (0 < q)%Q) by (eapply Qlt_le_trans; [apply (pow2_pos a)|exact H1]).
  destruct (ilog2_spec q Hq) as [H3 H4].
  assert (ilog2 q < a + 1) by (apply pow2_lt_inv; eapply Qle_lt_trans; eauto).
  assert (a < ilog2 q + 1) by (apply pow2_lt_inv; eapply Qle_lt_trans; eauto).
  lia.
Qed.

Lemma ilog2_proper q1 q2 : (0 < q1)%Q -> (q1 == q2)%Q -> ilog2 q1 = ilog2 q2.
Proof.
  intros H E. symmetry. destruct (ilog2_spec q1 H) as [H1 H2].
  apply ilog2_unique; lra.
Qed.

Lemma ilog2_mono q1 q2 : (0 < q1)%Q -> (q1 <= q2)%Q -> ilog2 q1 <= ilog2 q2.
Proof.
  intros H L.
  destruct (ilog2_spec q1 H) as [H1 _].
  destruct (ilog2_spec q2 (Qlt_le_trans _ _ _ H L)) as [_ H2].
  assert (ilog2 q1 < ilog2 q2 + 1); [|lia].
  apply pow2_lt_inv. eapply Qle_lt_trans; [exact H1|].
  eapply Qle_lt_trans; [exact L|exact H2].
Qed.

Lemma Qfloor_unique q z :
  (inject_Z z <= q)%Q -> (q < inject_Z (z + 1))%Q -> Qfloor q = z.
Proof.
  intros H1 H2.
  pose proof (Qfloor_le q) as F1. pose proof (Qlt_floor q) as F2.
  assert (Qfloor q < z + 1).
  { rewrite Zlt_Qlt. eapply Qle_lt_trans; [exact F1|exact H2]. }
  assert (z < Qfloor q + 1).
  { rewrite Zlt_Qlt. eapply Qle_lt_trans; [exact H1|exact F2]. }
  lia.
Qed.

Lemma roundHalfEven_proper q1 q2 : (q1 == q2)%Q -> roundHalfEven q1 = roundHalfEven q2.
Proof.
  intros E. unfold roundHalfEven.
  rewrite (Qfloor_comp q1 q2 E).
  rewrite (Qcompare_comp (q1 - inject_Z (Qfloor q2))%Q (q2 - inject_Z (Qfloor q2))%Q
             ltac:(now apply Qplus_comp) (1 # 2)%Q (1 # 2)%Q (Qeq_refl _)).
  reflexivity.
Qed.

Lemma roundHalfEven_cases q :
  roundHalfEven q = Qfloor q \/ roundHalfEven q = Qfloor q + 1.
Proof.
  unfold roundHalfEven.
  destruct (q - inject_Z (Qfloor q) ?= 1 # 2)%Q; [destruct (Z.even _)| |]; auto.
Qed.

Lemma roundHalfEven_Z z : roundHalfEven (inject_Z z) = z.
Proof.
  unfold roundHalfEven. rewrite Qfloor_Z.
  assert (E : (inject_Z z - inject_Z z == 0)%Q) by ring.
  rewrite (Qcompare_comp _ _ E (1 # 2)%Q (1 # 2)%Q (Qeq_refl _)). reflexivity.
Qed.

Lemma roundHalfEven_mono q1 q2 : (q1 <= q2)%Q -> roundHalfEven q1 <= roundHalfEven q2.
Proof.
  intros L. pose proof (Qfloor_resp_le _ _ L) as F.
  destruct (Z.eq_dec (Qfloor q1) (Qfloor q2)) as [E|N].
  - unfold roundHalfEven. rewrite <- E.
    assert (L' : (q1 - inject_Z (Qfloor q1) <= q2 - inject_Z (Qfloor q1))%Q) by lra.
    destruct (Qcompare_spec (q1 - inject_Z (Qfloor q1)) (1 # 2)) as [A|A|A];
      destruct (Qcompare_spec (q2 - inject_Z (Qfloor q1)) (1 # 2)) as [B|B|B];
      try destruct (Z.even (Qfloor q1)); try lia; lra.
  - destruct (roundHalfEven_cases q1) as [-> | ->],
             (roundHalfEven_cases q2) as [-> | ->]; lia.
Qed.

Lemma roundHalfEven_near q :
  (inject_Z (roundHalfEven q) - (1 # 2) <= q /\ q <= inject_Z (roundHalfEven q) + (1 # 2))%Q.
Proof.
  pose proof (Qfloor_le q) as F1. pose proof (Qlt_floor q) as F2.
  rewrite inject_Z_plus in F2. change (inject_Z 1) with 1%Q in F2.
  unfold roundHalfEven.
  destruct (Qcompare_spec (q - inject_Z (Qfloor q)) (1 # 2)) as [A|A|A].
  - destruct (Z.even _); rewrite ?inject_Z_plus; change (inject_Z 1) with 1%Q; lra.
  - lra.
  - rewrite inject_Z_plus. change (inject_Z 1) with 1%Q. lra.
Qed.

Lemma ulp_pos q : (0 < ulp q)%Q.
Proof. apply pow2_pos. Qed.

Lemma ulp_proper q1 q2 : (0 < q1)%Q -> (q1 == q2)%Q -> ulp q1 = ulp q2.
Proof. intros H E. unfold ulp. now rewrite (ilog2_proper q1 q2 H E). Qed.

Lemma roundPositive_proper q1 q2 :
  (0 < q1)%Q -> (q1 == q2)%Q -> (roundPositive q1 == roundPositive q2)%Q.
Proof.
  intros H E. unfold roundPositive. rewrite <- (ulp_proper q1 q2 H E).
  rewrite (roundHalfEven_proper (q1 / ulp q1) (q2 / ulp q1)); [reflexivity|].
  apply Qmult_comp; [exact E|reflexivity].
Qed.

#[export] Instance round_proper : Proper (Qeq ==> Qeq) round.
Proof.
  intros q1 q2 E. unfold round.
  rewrite <- (Qcompare_comp q1 q2 E 0%Q 0%Q (Qeq_refl _)).
  destruct (Qcompare_spec q1 0) as [A|A|A].
  - reflexivity.
  - apply Qopp_comp. apply roundPositive_proper; lra.
  - now apply roundPositive_proper.
Qed.

Lemma roundPositive_nonneg q : (0 < q)%Q -> (0 <= roundPositive q)%Q.
Proof.
  intros H. unfold roundPositive.
  apply Qmult_le_0_compat; [|apply Qlt_le_weak, ulp_pos].
  change 0%Q with (inject_Z 0). rewrite <- Zle_Qle.
  rewrite <- (roundHalfEven_Z 0). apply roundHalfEven_mono.
  apply Qle_shift_div_l; [apply ulp_pos|].
  assert (inject_Z 0 * ulp q == 0)%Q by (change (inject_Z 0) with 0%Q; ring). lra.
Qed.

Lemma roundPositive_upper q e :
  (0 < q)%Q -> (q <= pow2 (e + 1))%Q -> Z.max (ilog2 q) emin <= e ->
  (roundPositive q <= pow2 (e + 1))%Q.
Proof.
  intros H L M. unfold roundPositive, ulp.
  set (k := Z.max (ilog2 q) emin) in *.
  assert (E : (pow2 (e + 1) == inject_Z (2 ^ (e + 1 - (k - 52))) * pow2 (k - 52))%Q).
  { rewrite <- pow2_Z by lia. rewrite <- pow2_plus.
    now replace (e + 1 - (k - 52) + (k - 52)) with (e + 1) by ring. }
  rewrite E. apply Qmult_le_compat_r; [|apply Qlt_le_weak, pow2_pos].
  rewrite <- Zle_Qle. rewrite <- (roundHalfEven_Z (2 ^ _)).
  apply roundHalfEven_mono. apply Qle_shift_div_r; [apply pow2_pos|].
  now rewrite <- E.
Qed.

Lemma roundPositive_lower q :
  (0 < q)%Q -> emin <= ilog2 q -> (pow2 (ilog2 q) <= roundPositive q)%Q.
Proof.
  intros H M. unfold roundPositive, ulp. rewrite Z.max_l by exact M.
  set (k := ilog2 q) in *.
  assert (E : (pow2 k == inject_Z (2 ^ 52) * pow2 (k - 52))%Q).
  { rewrite <- pow2_Z by lia. rewrite <- pow2_plus.
    now replace (52 + (k - 52)) with k by ring. }
  rewrite E at 1. apply Qmult_le_compat_r; [|apply Qlt_le_weak, pow2_pos].
  rewrite <- Zle_Qle. rewrite <- (roundHalfEven_Z (2 ^ 52)).
  apply roundHalfEven_mono. apply Qle_shift_div_l; [apply pow2_pos|].
  rewrite <- E. apply (ilog2_spec q H).
Qed.

Lemma roundPositive_mono q1 q2 :
  (0 < q1)%Q -> (q1 <= q2)%Q -> (roundPositive q1 <= roundPositive q2)%Q.
Proof.
  intros H L.
  assert (H2 : (0 < q2)%Q) by lra.
  pose proof (ilog2_mono q1 q2 H L) as Hl.
  destruct (Z.eq_dec (Z.max (ilog2 q1) emin) (Z.max (ilog2 q2) emin)) as [E|N].
  - unfold roundPositive, ulp. rewrite <- E.
    apply Qmult_le_compat_r; [|apply Qlt_le_weak, pow2_pos].
    rewrite <- Zle_Qle. apply roundHalfEven_mono.
    apply Qmult_le_compat_r; [exact L|]. apply Qlt_le_weak, Qinv_lt_0_compat, pow2_pos.
  - assert (M : emin <= ilog2 q2 /\ Z.max (ilog2 q1) emin + 1 <= ilog2 q2) by lia.
    destruct M as [M1 M2].
    apply Qle_trans with (pow2 (Z.max (ilog2 q1) emin + 1)).
    + apply roundPositive_upper; [exact H| |lia].
      apply Qlt_le_weak. eapply Qlt_le_trans; [apply (ilog2_spec q1 H)|].
      apply pow2_le. lia.
    + apply Qle_trans with (pow2 (ilog2 q2)); [apply pow2_le; lia|].
      now apply roundPositive_lower.
Qed.

Lemma round_nonneg q : (0 <= q)%Q -> (0 <= round q)%Q.
Proof.
  intros H. unfold round. destruct (Qcompare_spec q 0) as [A|A|A].
  - lra.
  - lra.
  - now apply roundPositive_nonneg.
Qed.

Lemma round_nonpos q : (q <= 0)%Q -> (round q <= 0)%Q.
Proof.
  intros H. unfold round. destruct (Qcompare_spec q 0) as [A|A|A].
  - lra.
  - assert (0 <= roundPositive (- q))%Q by (apply roundPositive_nonneg; lra). lra.
  - lra.
Qed.

Lemma round_mono q1 q2 : (q1 <= q2)%Q -> (round q1 <= round q2)%Q.
Proof.
  intros L.
  destruct (Qlt_le_dec q2 0) as [N2|P2].
  - unfold round.
    destruct (Qcompare_spec q1 0) as [A|A|A]; try lra.
    destruct (Qcompare_spec q2 0) as [B|B|B]; try lra.
    assert (roundPositive (- q2) <= roundPositive (- q1))%Q
      by (apply roundPositive_mono; lra).
    lra.
  - destruct (Qlt_le_dec 0 q1) as [P1|N1].
    + unfold round.
      destruct (Qcompare_spec q1 0) as [A|A|A]; try lra.
      destruct (Qcompare_spec q2 0) as [B|B|B]; try lra.
      now apply roundPositive_mono.
    + pose proof (round_nonpos q1 N1). pose proof (round_nonneg q2 P2). lra.
Qed.

Lemma ilog2_scaled m k :
  0 < m -> ilog2 (inject_Z m * pow2 k) = Z.log2 m + k.
Proof.
  intros Hm. destruct (Z.log2_spec m Hm) as [L1 L2].
  pose proof (Z.log2_nonneg m) as L0.
  apply ilog2_unique.
  - rewrite pow2_plus. apply Qmult_le_compat_r; [|apply Qlt_le_weak, pow2_pos].
    rewrite pow2_Z by lia. now rewrite <- Zle_Qle.
  - replace (Z.log2 m + k + 1) with (Z.log2 m + 1 + k) by ring.
    rewrite pow2_plus. apply Qmult_lt_compat_r; [apply pow2_pos|].
    rewrite pow2_Z by lia. rewrite <- Zlt_Qlt. now rewrite <- Z.add_1_r in L2.
Qed.

Lemma roundPositive_multiple q j :
  (q == inject_Z j * ulp q)%Q -> (roundPositive q == q)%Q.
Proof.
  intros E. unfold roundPositive.
  pose proof (ulp_pos q) as U. set (u := ulp q) in *.
  assert (D : (q / u == inject_Z j)%Q).
  { apply Qeq_trans with (inject_Z j * u / u)%Q.
    - apply Qmult_comp; [exact E|reflexivity].
    - field. lra. }
  rewrite (roundHalfEven_proper _ _ D), roundHalfEven_Z. now symmetry.
Qed.

Lemma pow2_eq a b : a = b -> (pow2 a == pow2 b)%Q.
Proof. now intros ->. Qed.

(** The binary64 numbers: [m * 2^k] with [m] of at most 53 bits and [k]
    not below the exponent of the smallest subnormal. *)
Lemma roundPositive_exact m k :
  0 < m <= 2 ^ 53 -> -1074 <= k ->
  (roundPositive (inject_Z m * pow2 k) == inject_Z m * pow2 k)%Q.
Proof.
  intros [Hm1 Hm2] Hk.
  set (q := (inject_Z m * pow2 k)%Q).
  assert (Hl : ilog2 q = Z.log2 m + k) by now apply ilog2_scaled.
  pose proof (Z.log2_nonneg m) as L0.
  assert (L53 : Z.log2 m <= 53).
  { rewrite <- (Z.log2_pow2 53) by lia. now apply Z.log2_le_mono. }
  destruct (Z_lt_le_dec (ilog2 q) emin) as [Hsub|Hnorm].
  - apply (roundPositive_multiple q (m * 2 ^ (k + 1074))).
    unfold ulp. rewrite Z.max_r by lia. unfold emin.
    rewrite inject_Z_mult, <- pow2_Z by lia. rewrite <- Qmult_assoc, <- pow2_plus.
    apply Qmult_comp; [reflexivity|apply pow2_eq; ring].
  - destruct (Z.eq_dec (Z.log2 m) 53) as [E53|N53].
    + assert (m = 2 ^ 53).
      { destruct (Z.log2_spec m Hm1) as [A _]. rewrite E53 in A. lia. }
      subst m. apply (roundPositive_multiple q (2 ^ 52)).
      unfold ulp. rewrite Z.max_l by lia. rewrite Hl, E53. unfold q.
      rewrite <- !pow2_Z by lia. rewrite <- !pow2_plus. apply pow2_eq. ring.
    + apply (roundPositive_multiple q (m * 2 ^ (52 - Z.log2 m))).
      unfold ulp. rewrite Z.max_l by lia. rewrite Hl. unfold q.
      rewrite inject_Z_mult, <- pow2_Z by lia. rewrite <- Qmult_assoc, <- pow2_plus.
      apply Qmult_comp; [reflexivity|apply pow2_eq; ring].
Qed.

Lemma round_exact m k :
  Z.abs m <= 2 ^ 53 -> -1074 <= k ->
  (round (inject_Z m * pow2 k) == inject_Z m * pow2 k)%Q.
Proof.
  intros Hm Hk. unfold round.
  pose proof (pow2_pos k) as P.
  destruct (Qcompare_spec (inject_Z m * pow2 k) 0) as [A|A|A].
  - now symmetry.
  - assert (Hneg : m < 0).
    { destruct (Z_lt_le_dec m 0) as [|G]; [assumption|].
      assert (0 <= inject_Z m)%Q by (change 0%Q with (inject_Z 0); now rewrite <- Zle_Qle).
      assert (0 <= inject_Z m * pow2 k)%Q by (apply Qmult_le_0_compat; lra).
      set (q := (inject_Z m * pow2 k)%Q) in *. lra. }
    assert (E : (- (inject_Z m * pow2 k) == inject_Z (- m) * pow2 k)%Q)
      by (rewrite inject_Z_opp; ring).
    assert (A' : (0 < - (inject_Z m * pow2 k))%Q).
    { set (q := (inject_Z m * pow2 k)%Q) in *. lra. }
    rewrite (roundPositive_proper _ _ A' E).
    rewrite roundPositive_exact by lia. rewrite inject_Z_opp. ring.
  - assert (Hpos : 0 < m).
    { destruct (Z_lt_le_dec 0 m) as [|G]; [assumption|].
      assert (inject_Z m <= 0)%Q by (change 0%Q with (inject_Z 0); now rewrite <- Zle_Qle).
      assert (B : (inject_Z m * pow2 k <= 0 * pow2 k)%Q) by (apply Qmult_le_compat_r; lra).
      rewrite Qmult_0_l in B. set (q := (inject_Z m * pow2 k)%Q) in *. lra. }
    apply roundPositive_exact; lia.
Qed.

Lemma round_Z n : Z.abs n <= 2 ^ 53 -> (round (inject_Z n) == inject_Z n)%Q.
Proof.
  intros H. assert (E : (inject_Z n == inject_Z n * pow2 0)%Q) by (change (pow2 0) with 1%Q; ring).
  rewrite E at 1. rewrite round_exact by lia. now symmetry.
Qed.

Lemma round_positive q : (0 < q)%Q -> round q = roundPositive q.
Proof.
  intros H. unfold round. destruct (Qcompare_spec q 0) as [A|A|A]; try lra. reflexivity.
Qed.

Lemma roundPositive_near q :
  (0 < q)%Q ->
  (q - ulp q * (1 # 2) <= roundPositive q /\ roundPositive q <= q + ulp q * (1 # 2))%Q.
Proof.
  intros H. unfold roundPositive.
  pose proof (ulp_pos q) as U. set (u := ulp q) in *.
  destruct (roundHalfEven_near (q / u)) as [N1 N2].
  set (j := inject_Z (roundHalfEven (q / u))) in *.
  assert (E : (q == q / u * u)%Q) by (field; lra).
  split.
  - assert (L : ((q / u - (1 # 2)) * u <= j * u)%Q)
      by (apply Qmult_le_compat_r; lra).
    assert (E' : ((q / u - (1 # 2)) * u == q / u * u - u * (1 # 2))%Q) by ring.
    rewrite E' in L. rewrite <- E in L. exact L.
  - assert (L : (j * u <= (q / u + (1 # 2)) * u)%Q)
      by (apply Qmult_le_compat_r; lra).
    assert (E' : ((q / u + (1 # 2)) * u == q / u * u + u * (1 # 2))%Q) by ring.
    rewrite E' in L. rewrite <- E in L. exact L.
Qed.

Lemma below_one_value : (below_one == 1 - pow2 (-53))%Q.
Proof. vm_compute. reflexivity. Qed.

Lemma round_below_one : (round below_one == below_one)%Q.
Proof. unfold below_one. apply round_exact; lia. Qed.

Lemma round_one : (round 1 == 1)%Q.
Proof. apply (round_Z 1). lia. Qed.

(** A rounded number below 1 is at most the largest binary64 number
    below 1. *)
Lemma round_lt_one q : (round q < 1)%Q -> (round q <= below_one)%Q.
Proof.
  intros H.
  destruct (Qlt_le_dec below_one q) as [G|L].
  - destruct (Qlt_le_dec q 1) as [L1|G1].
    + assert (Hq : (0 < q)%Q).
      { eapply Qlt_trans; [|exact G]. vm_compute. reflexivity. }
      assert (Hl : ilog2 q = -1).
      { apply ilog2_unique.
        - apply Qlt_le_weak. eapply Qle_lt_trans; [|exact G]. vm_compute. discriminate.
        - exact L1. }
      rewrite (round_positive q Hq) in *. unfold roundPositive, ulp in *.
      rewrite Hl in *. change (Z.max (-1) emin - 52) with (-53) in *.
      set (j := roundHalfEven (q / pow2 (-53))) in *.
      assert (Hj : j < 2 ^ 53).
      { rewrite Zlt_Qlt. apply (Qmult_lt_r _ _ (pow2 (-53))); [apply pow2_pos|].
        eapply Qlt_le_trans; [exact H|]. vm_compute. discriminate. }
      unfold below_one. apply Qmult_le_compat_r; [|apply Qlt_le_weak, pow2_pos].
      rewrite <- Zle_Qle. lia.
    + pose proof (round_mono 1 q G1) as M. rewrite round_one in M. lra.
  - pose proof (round_mono q below_one L) as M. rewrite round_below_one in M. exact M.
Qed.

(** A fraction below 1 of a whole number of at most 53 bits rounds to
    less than the number. *)
Lemma round_fraction_lt p n :
  0 < n < 2 ^ 53 -> (p <= below_one)%Q ->
  (round (p * inject_Z n) < inject_Z n)%Q.
Proof.
  intros [Hn1 Hn2] Hp.
  assert (Hnq : (0 < inject_Z n)%Q) by (change 0%Q with (inject_Z 0); now rewrite <- Zlt_Qlt).
  eapply Qle_lt_trans.
  { apply round_mono. apply Qmult_le_compat_r; [exact Hp|lra]. }
  set (e := Z.log2 n).
  destruct (Z.log2_spec n Hn1) as [L1 L2]. fold e in L1, L2.
  pose proof (Z.log2_nonneg n) as L0. fold e in L0.
  assert (Le : e <= 52).
  { assert (e < 53); [|lia]. apply Z.log2_lt_pow2; [exact Hn1|lia]. }
  destruct (Z.eq_dec n (2 ^ e)) as [En|Nn].
  - assert (E : (below_one * inject_Z n == inject_Z (2 ^ 53 - 1) * pow2 (e - 53))%Q).
    { unfold below_one. rewrite En, <- (pow2_Z e) by lia.
      rewrite <- Qmult_assoc, <- pow2_plus.
      apply Qmult_comp; [reflexivity|apply pow2_eq; ring]. }
    assert (E2 : (inject_Z n == inject_Z (2 ^ 53) * pow2 (e - 53))%Q).
    { rewrite En, <- !pow2_Z by lia. rewrite <- pow2_plus. apply pow2_eq. ring. }
    rewrite E, E2. rewrite round_exact by lia.
    apply Qmult_lt_compat_r; [apply pow2_pos|].
    rewrite <- Zlt_Qlt. lia.
  - set (q := (below_one * inject_Z n)%Q).
    assert (Eq : (q == inject_Z n - inject_Z n * pow2 (-53))%Q).
    { unfold q. rewrite below_one_value. ring. }
    assert (Hsmall : (inject_Z n * pow2 (-53) < 1)%Q).
    { assert (E1 : (1 == inject_Z (2 ^ 53) * pow2 (-53))%Q) by (vm_compute; reflexivity).
      rewrite E1. apply Qmult_lt_compat_r; [apply pow2_pos|]. now rewrite <- Zlt_Qlt. }
    assert (Hpos : (0 < inject_Z n * pow2 (-53))%Q).
    { apply Qmult_lt_0_compat; [exact Hnq|apply pow2_pos]. }
    assert (Hn' : (inject_Z (2 ^ e) + 1 <= inject_Z n)%Q).
    { change 1%Q with (inject_Z 1). rewrite <- inject_Z_plus, <- Zle_Qle. lia. }
    assert (Hn'' : (inject_Z n < inject_Z (2 ^ (e + 1)))%Q).
    { rewrite <- Zlt_Qlt. now rewrite Z.add_1_r. }
    set (t := (inject_Z n * pow2 (-53))%Q) in *.
    assert (Hlow : (pow2 e <= q)%Q) by (rewrite pow2_Z by lia; lra).
    assert (Hhigh : (q < pow2 (e + 1))%Q) by (rewrite pow2_Z by lia; lra).
    assert (Hq : (0 < q)%Q) by (pose proof (pow2_pos e); lra).
    assert (Hl : ilog2 q = e) by now apply ilog2_unique.
    rewrite (round_positive q Hq).
    destruct (roundPositive_near q Hq) as [_ N].
    unfold ulp in N. rewrite Hl in N. rewrite Z.max_l in N by (unfold emin; lia).
    assert (Eu : (pow2 (e - 52) * (1 # 2) == inject_Z (2 ^ e) * pow2 (-53))%Q).
    { rewrite <- pow2_Z by lia. change (1 # 2)%Q with (pow2 (-1)).
      rewrite <- !pow2_plus. apply pow2_eq. ring. }
    rewrite Eu in N.
    assert (Hlt : (inject_Z (2 ^ e) * pow2 (-53) < t)%Q).
    { unfold t. apply Qmult_lt_compat_r; [apply pow2_pos|]. rewrite <- Zlt_Qlt. lia. }
    set (w := (inject_Z (2 ^ e) * pow2 (-53))%Q) in *. lra.
Qed.

End Binary64Facts.

Import Binary64Facts.


(** ** [escapeHtml] *)

Lemma replaceAll_app pat rep a b :
  replaceAll pat rep (a ++ b) = replaceAll pat rep a ++ replaceAll pat rep b.
Proof. unfold replaceAll. apply flat_map_app. Qed.

Lemma replaceAll_cons pat rep c s :
  replaceAll pat rep (c :: s) = (if c =? pat then rep else [c]) ++ replaceAll pat rep s.
Proof. reflexivity. Qed.

Lemma escapeHtml_nil : escapeHtml [] = [].
Proof. reflexivity. Qed.

Lemma escapeHtml_unit c : escapeHtml [c] = escapeUnit c.
Proof.
  unfold escapeHtml, escapeUnit, replaceAll, AMP, LT, GT, QUOT, APOS. cbn [flat_map].
  destruct (Z.eqb_spec c 38) as [->|?]; [reflexivity|].
  destruct (Z.eqb_spec c 60) as [->|?]; [reflexivity|].
  destruct (Z.eqb_spec c 62) as [->|?]; [reflexivity|].
  destruct (Z.eqb_spec c 34) as [->|?]; [reflexivity|].
  destruct (Z.eqb_spec c 39) as [->|?]; [reflexivity|].
  cbn.
  repeat match goal with
  | |- context [c =? ?k] => destruct (Z.eqb_spec c k); [lia|]; cbn
  end.
  reflexivity.
Qed.

Lemma escapeHtml_app a b : escapeHtml (a ++ b) = escapeHtml a ++ escapeHtml b.
Proof. unfold escapeHtml. now rewrite !replaceAll_app. Qed.

Lemma escapeHtml_cons c s : escapeHtml (c :: s) = escapeUnit c ++ escapeHtml s.
Proof. change (c :: s) with ([c] ++ s). now rewrite escapeHtml_app, escapeHtml_unit. Qed.

Lemma escapeHtml_flat_map s : escapeHtml s = flat_map escapeUnit s.
Proof.
  induction s as [|c s IH]; [reflexivity|].
  rewrite escapeHtml_cons, IH. reflexivity.
Qed.

Lemma escapeHtml_concat l : escapeHtml (concat l) = concat (List.map escapeHtml l).
Proof.
  induction l as [|x l IH]; [reflexivity|].
  cbn [concat List.map]. now rewrite escapeHtml_app, IH.
Qed.

Lemma escapeUnit_view c : escaped_unit c (escapeUnit c).
Proof.
  unfold escapeUnit.
  destruct (Z.eqb_spec c AMP); [now constructor|].
  destruct (Z.eqb_spec c LT); [now constructor|].
  destruct (Z.eqb_spec c GT); [now constructor|].
  destruct (Z.eqb_spec c QUOT); [now constructor|].
  destruct (Z.eqb_spec c APOS); [now constructor|].
  now constructor.
Qed.

Lemma entity_at_other c t : c <> AMP -> entity_at (c :: t) = None.
Proof.
  intros H. unfold entity_at. destruct (Z.eqb_spec c AMP); [contradiction|reflexivity].
Qed.

Lemma decodeFrom_escapeUnit c t :
  decodeFrom 0 (escapeUnit c ++ t) = c :: decodeFrom 0 t.
Proof.
  destruct (escapeUnit_view c) as [->| -> | -> | -> | -> |Ha Hl Hg Hq Hp];
    try reflexivity.
  cbn [app decodeFrom]. now rewrite entity_at_other.
Qed.

Lemma decodeEntities_escapeHtml_app s t :
  decodeEntities (escapeHtml s ++ t) = s ++ decodeEntities t.
Proof.
  unfold decodeEntities. induction s as [|c s IH]; [reflexivity|].
  rewrite escapeHtml_cons, <- app_assoc, decodeFrom_escapeUnit, IH. reflexivity.
Qed.

Lemma well_escaped_escapeUnit c t :
  well_escaped (escapeUnit c ++ t) = well_escaped t.
Proof.
  destruct (escapeUnit_view c) as [->| -> | -> | -> | -> |Ha Hl Hg Hq Hp];
    try reflexivity.
  cbn [app well_escaped].
  destruct (Z.eqb_spec c LT); [contradiction|].
  destruct (Z.eqb_spec c GT); [contradiction|].
  destruct (Z.eqb_spec c QUOT); [contradiction|].
  destruct (Z.eqb_spec c APOS); [contradiction|].
  destruct (Z.eqb_spec c AMP); [contradiction|].
  reflexivity.
Qed.

Lemma well_escaped_escapeHtml s : well_escaped (escapeHtml s) = true.
Proof.
  induction s as [|c s IH]; [reflexivity|].
  now rewrite escapeHtml_cons, well_escaped_escapeUnit.
Qed.

(** ** The platform's reader *)

Lemma normalizeNewlines_walk (Q : jsstring -> Prop) :
  Q [] -> Q [CR] ->
  (forall rest, Q rest -> Q (CR :: LF :: rest)) ->
  (forall d rest, d <> LF -> Q (d :: rest) -> Q (CR :: d :: rest)) ->
  (forall c rest, c <> CR -> Q rest -> Q (c :: rest)) ->
  forall s, Q s.
Proof.
  intros Hnil Hcr Hpair Hlone Hother s.
  assert (H : forall n s, (length s <= n)%nat -> Q s).
  { clear s. induction n as [|n IH]; intros s Hs.
    - destruct s; [exact Hnil|cbn in Hs; lia].
    - destruct s as [|c rest]; [exact Hnil|]. cbn in Hs.
      destruct (Z.eq_dec c CR) as [->|Hc].
      + destruct rest as [|d rest]; [exact Hcr|]. cbn in Hs.
        destruct (Z.eq_dec d LF) as [->|Hd].
        * apply Hpair, IH. lia.
        * apply Hlone; [exact Hd|]. apply IH. cbn. lia.
      + apply Hother; [exact Hc|]. apply IH. lia. }
  apply (H (length s)). lia.
Qed.

Lemma normalizeNewlines_pair rest :
  normalizeNewlines (CR :: LF :: rest) = LF :: normalizeNewlines rest.
Proof. reflexivity. Qed.

Lemma normalizeNewlines_lone d rest :
  d <> LF -> normalizeNewlines (CR :: d :: rest) = LF :: normalizeNewlines (d :: rest).
Proof.
  intros Hd. cbn [normalizeNewlines]. change (CR =? CR) with true. cbn match.
  now destruct (Z.eqb_spec d LF).
Qed.

Lemma normalizeNewlines_other c rest :
  c <> CR -> normalizeNewlines (c :: rest) = c :: normalizeNewlines rest.
Proof.
  intros Hc. cbn [normalizeNewlines]. now destruct (Z.eqb_spec c CR).
Qed.

(** Normalisation cuts at a seam unless a CR at the end of the first
    part meets a LF at the start of the second. *)
Lemma normalizeNewlines_app_r a b :
  (forall b', b <> LF :: b') ->
  normalizeNewlines (a ++ b) = normalizeNewlines a ++ normalizeNewlines b.
Proof.
  intros Hb. induction a as [| |rest IH|d rest Hd IH|c rest Hc IH]
    using normalizeNewlines_walk.
  - reflexivity.
  - destruct b as [|d b']; [reflexivity|].
    cbn [app]. rewrite normalizeNewlines_lone; [reflexivity|].
    intros ->. now apply (Hb b').
  - cbn [app]. rewrite !normalizeNewlines_pair, IH. reflexivity.
  - cbn [app]. rewrite !normalizeNewlines_lone by exact Hd.
    cbn [app] in IH. now rewrite IH.
  - cbn [app]. rewrite !normalizeNewlines_other by exact Hc. now rewrite IH.
Qed.

Lemma normalizeNewlines_app_l a b :
  (forall a', a <> a' ++ [CR]) ->
  normalizeNewlines (a ++ b) = normalizeNewlines a ++ normalizeNewlines b.
Proof.
  induction a as [| |rest IH|d rest Hd IH|c rest Hc IH]
    using normalizeNewlines_walk; intros Ha.
  - reflexivity.
  - now contradiction (Ha []).
  - cbn [app]. rewrite !normalizeNewlines_pair, IH; [reflexivity|].
    intros a' ->. now apply (Ha (CR :: LF :: a')).
  - cbn [app]. rewrite !normalizeNewlines_lone by exact Hd.
    cbn [app] in IH. rewrite IH; [reflexivity|].
    intros a' E. apply (Ha (CR :: a')). cbn [app]. now rewrite E.
  - cbn [app]. rewrite !normalizeNewlines_other by exact Hc. rewrite IH; [reflexivity|].
    intros a' ->. now apply (Ha (c :: a')).
Qed.

Lemma escapeUnit_plain_unit c :
  c <> AMP -> c <> LT -> c <> GT -> c <> QUOT -> c <> APOS -> escapeUnit c = [c].
Proof.
  intros. destruct (escapeUnit_view c) as [?|?|?|?|?|_ _ _ _ _]; try contradiction.
  reflexivity.
Qed.

Lemma escapeHtml_head_LF s :
  (forall s', s <> LF :: s') -> forall m', escapeHtml s <> LF :: m'.
Proof.
  intros Hs m' E. destruct s as [|c s]; [discriminate|].
  rewrite escapeHtml_cons in E.
  destruct (escapeUnit_view c) as [->| -> | -> | -> | -> |Ha Hl Hg Hq Hp];
    try discriminate.
  cbn [app] in E. injection E as -> _. now apply (Hs s).
Qed.

(** Escaping and normalising commute: a line break is escaped to itself
    and no entity has one. *)
Lemma normalizeNewlines_escapeHtml s :
  normalizeNewlines (escapeHtml s) = escapeHtml (normalizeNewlines s).
Proof.
  induction s as [| |rest IH|d rest Hd IH|c rest Hc IH]
    using normalizeNewlines_walk.
  - reflexivity.
  - reflexivity.
  - rewrite normalizeNewlines_pair. rewrite !escapeHtml_cons.
    change (escapeUnit CR) with [CR]. change (escapeUnit LF) with [LF].
    cbn [app]. now rewrite normalizeNewlines_pair, IH.
  - rewrite normalizeNewlines_lone by exact Hd.
    rewrite (escapeHtml_cons CR), (escapeHtml_cons LF).
    change (escapeUnit CR) with [CR]. change (escapeUnit LF) with [LF].
    cbn [app]. rewrite <- IH.
    destruct (escapeHtml (d :: rest)) as [|x m] eqn:E; [reflexivity|].
    apply normalizeNewlines_lone. intros ->.
    apply (escapeHtml_head_LF (d :: rest)) with (m' := m); [|exact E].
    intros s' [= -> _]. contradiction.
  - rewrite normalizeNewlines_other by exact Hc. rewrite !escapeHtml_cons, <- IH.
    destruct (escapeUnit_view c) as [->| -> | -> | -> | -> |Ha Hl Hg Hq Hp];
      try reflexivity.
    cbn [app]. now apply normalizeNewlines_other.
Qed.

Lemma readBack_app_r a b :
  (forall b', b <> LF :: b') -> readBack (a ++ b) = readBack a ++ readBack b.
Proof.
  intros Hb. unfold readBack. now rewrite normalizeNewlines_app_r, List.filter_app.
Qed.

Lemma readBack_app_l a b :
  (forall a', a <> a' ++ [CR]) -> readBack (a ++ b) = readBack a ++ readBack b.
Proof.
  intros Ha. unfold readBack. now rewrite normalizeNewlines_app_l, List.filter_app.
Qed.

Lemma normalizeNewlines_survives s : survives s = true -> normalizeNewlines s = s.
Proof.
  unfold survives. induction s as [|c s IH]; [reflexivity|]. cbn [forallb].
  intros H. apply andb_true_iff in H as [Hc Hs]. apply andb_true_iff in Hc as [_ Hc].
  apply negb_true_iff, Z.eqb_neq in Hc.
  rewrite normalizeNewlines_other by exact Hc. now rewrite IH.
Qed.

(** A text without CR and NUL is read back as it is. *)
Lemma readBack_survives s : survives s = true -> readBack s = s.
Proof.
  intros H. unfold readBack. rewrite (normalizeNewlines_survives s H).
  unfold survives in H. induction s as [|c s IH]; [reflexivity|]. cbn [forallb] in H.
  apply andb_true_iff in H as [Hc Hs]. apply andb_true_iff in Hc as [Hc _].
  cbn [List.filter]. rewrite Hc. now rewrite IH.
Qed.

(** The scanner reads an escaped code unit as the unit, and drops a NUL. *)
Lemma fragmentTextFrom_escapeUnit c t :
  fragmentTextFrom (Text 0) (escapeUnit c ++ t)
  = (if negb (c =? NUL) then [c] else []) ++ fragmentTextFrom (Text 0) t.
Proof.
  destruct (escapeUnit_view c) as [->| -> | -> | -> | -> |Ha Hl Hg Hq Hp];
    try reflexivity.
  cbn [app fragmentTextFrom].
  destruct (Z.eqb_spec c LT); [contradiction|].
  destruct (Z.eqb_spec c NUL); [reflexivity|].
  now rewrite entity_at_other.
Qed.

Lemma fragmentTextFrom_escapeHtml_app s t :
  fragmentTextFrom (Text 0) (escapeHtml s ++ t)
  = List.filter (fun c => negb (c =? NUL)) s ++ fragmentTextFrom (Text 0) t.
Proof.
  induction s as [|c s IH]; [reflexivity|].
  rewrite escapeHtml_cons, <- app_assoc, fragmentTextFrom_escapeUnit, IH.
  cbn [List.filter]. now destruct (negb (c =? NUL)).
Qed.

(** The reader sees an escaped string as the string read back, up to
    whatever follows it, when that does not begin with a LF. *)
Lemma fragmentText_escapeHtml_app s t :
  (forall t', t <> LF :: t') ->
  fragmentText (escapeHtml s ++ t) = readBack s ++ fragmentText t.
Proof.
  intros Ht. unfold fragmentText, readBack.
  rewrite normalizeNewlines_app_r by exact Ht.
  now rewrite normalizeNewlines_escapeHtml, fragmentTextFrom_escapeHtml_app.
Qed.

Lemma fragmentText_escapeHtml s : fragmentText (escapeHtml s) = readBack s.
Proof.
  rewrite <- (app_nil_r (escapeHtml s)), fragmentText_escapeHtml_app by discriminate.
  apply app_nil_r.
Qed.

Lemma fragmentText_span_open t : fragmentText (span_open ++ t) = fragmentText t.
Proof. reflexivity. Qed.

Lemma fragmentText_span_close t : fragmentText (span_close ++ t) = fragmentText t.
Proof. reflexivity. Qed.

(** ** Trailing runs *)

Lemma drop_trailing_app p a b :
  drop_trailing p (a ++ b)
  = match drop_trailing p b with [] => drop_trailing p a | r => a ++ r end.
Proof.
  induction a as [|c a IH]; cbn [app drop_trailing].
  - now destruct (drop_trailing p b).
  - rewrite IH. destruct (drop_trailing p b) as [|x r]; [reflexivity|].
    now destruct a.
Qed.

Lemma drop_trailing_keeps p a b :
  drop_trailing p b <> [] -> drop_trailing p (a ++ b) = a ++ drop_trailing p b.
Proof.
  intros H. rewrite drop_trailing_app. now destruct (drop_trailing p b).
Qed.

Lemma drop_trailing_last p a c :
  p c = false -> drop_trailing p (a ++ [c]) = a ++ [c].
Proof.
  intros H. rewrite drop_trailing_keeps; cbn; now rewrite H.
Qed.

Lemma escapeUnit_not_nil c : escapeUnit c <> [].
Proof. now destruct (escapeUnit_view c). Qed.

Lemma stripTrailingNbsp_escapeUnit c :
  c <> NBSP -> stripTrailingNbsp (escapeUnit c) = escapeUnit c.
Proof.
  intros H. destruct (escapeUnit_view c) as [->| -> | -> | -> | -> |Ha Hl Hg Hq Hp];
    try reflexivity.
  cbn. destruct (Z.eqb_spec c NBSP); [contradiction|reflexivity].
Qed.

(** Stripping the trailing run commutes with escaping: U+00A0 is escaped
    to itself and no entity ends in it. *)
Lemma stripTrailingNbsp_escapeHtml s :
  stripTrailingNbsp (escapeHtml s) = escapeHtml (stripTrailingNbsp s).
Proof.
  unfold stripTrailingNbsp. induction s as [|c s IH]; [reflexivity|].
  rewrite escapeHtml_cons, drop_trailing_app, IH. cbn [drop_trailing].
  destruct (drop_trailing _ s) as [|x r] eqn:E.
  - rewrite escapeHtml_nil. destruct (Z.eqb_spec c NBSP) as [->|Hc]; [reflexivity|].
    rewrite escapeHtml_unit. now apply stripTrailingNbsp_escapeUnit.
  - rewrite (escapeHtml_cons c), (escapeHtml_cons x).
    destruct (escapeUnit x ++ escapeHtml r) eqn:E'; [|reflexivity].
    apply app_eq_nil in E' as [E' _]. now apply escapeUnit_not_nil in E'.
Qed.

Lemma stripTrailingNbsp_after c q :
  ends_visibly c -> stripTrailingNbsp (c ++ q) = c ++ stripTrailingNbsp q.
Proof.
  intros (a & u & -> & Hu). unfold stripTrailingNbsp.
  rewrite drop_trailing_app.
  destruct (drop_trailing _ q) as [|x r]; [|reflexivity].
  rewrite app_nil_r. apply drop_trailing_last. now apply Z.eqb_neq.
Qed.

Lemma ends_visibly_app a c : ends_visibly c -> ends_visibly (a ++ c).
Proof.
  intros (b & u & -> & Hu). exists (a ++ b), u. now rewrite app_assoc.
Qed.

Lemma span_close_ends_visibly : ends_visibly span_close.
Proof. exists (removelast span_close), GT. split; [reflexivity|discriminate]. Qed.

Lemma span_open_head t t' : span_open ++ t <> LF :: t'.
Proof. discriminate. Qed.

Lemma span_close_head t t' : span_close ++ t <> LF :: t'.
Proof. discriminate. Qed.

(** The text of a frame with a highlighted character, after the strip. *)
Lemma fragmentText_highlight_frame p c q :
  ends_visibly c -> (forall c', c <> LF :: c') -> (forall c', c <> c' ++ [CR]) ->
  fragmentText (stripTrailingNbsp
    (escapeHtml p ++ (span_open ++ escapeHtml c ++ span_close) ++ escapeHtml q))
  = readBack (stripTrailingNbsp (p ++ c ++ q)).
Proof.
  intros Hc Hhead Hlast.
  rewrite !app_assoc, stripTrailingNbsp_after.
  2:{ apply ends_visibly_app, span_close_ends_visibly. }
  rewrite stripTrailingNbsp_escapeHtml, <- !app_assoc.
  rewrite fragmentText_escapeHtml_app by (intros t'; apply span_open_head).
  rewrite fragmentText_span_open.
  rewrite fragmentText_escapeHtml_app by (intros t'; apply span_close_head).
  rewrite fragmentText_span_close, fragmentText_escapeHtml.
  rewrite (app_assoc p c q), stripTrailingNbsp_after by now apply ends_visibly_app.
  rewrite <- app_assoc.
  rewrite readBack_app_r.
  2:{ intros b' E. destruct Hc as (a & u & -> & _).
      destruct a as [|x a]; cbn [app] in E; injection E as -> _.
      - now apply (Hhead []).
      - now apply (Hhead (a ++ [u])). }
  now rewrite readBack_app_l by exact Hlast.
Qed.

Lemma fragmentText_plain_frame r :
  fragmentText (stripTrailingNbsp (escapeHtml r)) = readBack (stripTrailingNbsp r).
Proof. now rewrite stripTrailingNbsp_escapeHtml, fragmentText_escapeHtml. Qed.

(** ** [Array.from] on strings *)

Lemma Array_from_pair c d rest :
  is_high_surrogate c && is_low_surrogate d = true ->
  Array_from (c :: d :: rest) = [c; d] :: Array_from rest.
Proof. intros H. cbn [Array_from]. now rewrite H. Qed.

Lemma Array_from_single c d rest :
  is_high_surrogate c && is_low_surrogate d = false ->
  Array_from (c :: d :: rest) = [c] :: Array_from (d :: rest).
Proof. intros H. cbn [Array_from]. now rewrite H. Qed.

(** Induction along the way [Array_from] walks its argument. *)
Lemma Array_from_walk (Q : jsstring -> list jsstring -> Prop) :
  Q [] [] ->
  (forall c, Q [c] [[c]]) ->
  (forall c d rest, is_high_surrogate c && is_low_surrogate d = true ->
     Q rest (Array_from rest) -> Q (c :: d :: rest) ([c; d] :: Array_from rest)) ->
  (forall c d rest, is_high_surrogate c && is_low_surrogate d = false ->
     Q (d :: rest) (Array_from (d :: rest)) ->
     Q (c :: d :: rest) ([c] :: Array_from (d :: rest))) ->
  forall s, Q s (Array_from s).
Proof.
  intros Hnil Hone Hpair Hsingle s.
  assert (H : forall n s, (length s <= n)%nat -> Q s (Array_from s)).
  { clear s. induction n as [|n IH]; intros s Hs.
    - destruct s; [exact Hnil|cbn in Hs; lia].
    - destruct s as [|c [|d rest]]; [exact Hnil|exact (Hone c)|].
      cbn in Hs.
      destruct (is_high_surrogate c && is_low_surrogate d) eqn:E.
      + rewrite Array_from_pair by exact E. apply Hpair; [exact E|].
        apply IH. lia.
      + rewrite Array_from_single by exact E. apply Hsingle; [exact E|].
        apply IH. cbn. lia. }
  apply (H (length s)). lia.
Qed.

Lemma Array_from_concat s : concat (Array_from s) = s.
Proof.
  apply (Array_from_walk (fun s r => concat r = s)); try reflexivity.
  - intros c d rest _ IH. cbn. now rewrite IH.
  - intros c d rest _ IH. cbn [concat app]. now rewrite IH.
Qed.

Lemma Array_from_code_points s : Forall code_point (Array_from s).
Proof.
  apply (Array_from_walk (fun _ r => Forall code_point r)).
  - constructor.
  - intros c. constructor; [|constructor]. left. now exists c.
  - intros c d rest E IH. constructor; [|exact IH].
    right. exists c, d. now apply andb_true_iff in E.
  - intros c d rest _ IH. constructor; [|exact IH]. left. now exists c.
Qed.

Lemma code_point_not_nil c : code_point c -> c <> [].
Proof. intros [[u ->]|(h & l & -> & _)]; discriminate. Qed.

(** ** Sessions *)

Lemma newSession_well_formed e a b clock : well_formed (newSession e a b clock).
Proof.
  split; [|reflexivity]. cbn. unfold padTo.
  rewrite length_app, length_take, length_replicate. lia.
Qed.

Lemma newSession_sources e a b clock :
  Forall (fun c => c = [] \/ code_point c) (fromPadded (newSession e a b clock)).
Proof.
  cbn. unfold padTo. apply Forall_app. split.
  - apply Forall_take. eapply Forall_impl; [apply Array_from_code_points|].
    cbn. intros c Hc. now right.
  - apply Forall_replicate. now left.
Qed.

Lemma pushed_cellAt s k i :
  well_formed s -> (i < targetLen s)%nat ->
  pushed s k (highlightIndexOf s k) i = Some (cellAt s k i).
Proof.
  intros [Hf Ht] Hi. unfold pushed, cellAt, highlightedAt, shownAt, sourceAt.
  destruct (lookup_lt_is_Some_2 (fromPadded s) i) as [x Hx]; [lia|].
  destruct (lookup_lt_is_Some_2 (toPadded s) i) as [y Hy]; [lia|].
  rewrite !Hx, !Hy. cbn [mbind option_bind default].
  destruct (Z.of_nat i <? k); [reflexivity|]. cbn [negb andb].
  now destruct (_ && _).
Qed.

Lemma renderLoop_cells s k count : forall i out,
  well_formed s -> (i + count <= targetLen s)%nat ->
  renderLoop s k (highlightIndexOf s k) count i out
  = Some (out ++ List.map (cellAt s k) (seq i count)).
Proof.
  induction count as [|count IH]; intros i out Hwf Hle; cbn [renderLoop seq List.map].
  - now rewrite app_nil_r.
  - rewrite pushed_cellAt by (trivial; lia). cbn.
    rewrite IH by (trivial; lia). now rewrite <- app_assoc.
Qed.

(** The loop never stops short on a session whose arrays have the right
    length, and what it builds is the position-wise reading. *)
Lemma renderOut_cells s k :
  well_formed s ->
  renderOut s k = Some (List.map (cellAt s k) (seq 0 (targetLen s))).
Proof. intros Hwf. unfold renderOut. now rewrite renderLoop_cells. Qed.

Lemma step_unfold s now st :
  well_formed s ->
  step s now st
  = if Qle_bool 1 (progressAt s now)
    then rafsDelete (el s) (setContent (el s) (TextContent (nextText s)) st)
    else rafsSet (el s) (nextHandle st)
           (snd (requestAnimationFrame (Step s)
                   (setContent (el s)
                      (InnerHTML (frameMarkup s (revealCountAt s now))) st))).
Proof.
  intros Hwf. unfold step, Qlt_bool. rewrite renderOut_cells by exact Hwf.
  now destruct (Qle_bool 1 (progressAt s now)).
Qed.

(** ** The text of a frame *)

Lemma highlightedAt_index s k i :
  highlightedAt s k i = true ->
  Z.of_nat i = k /\ (i < targetLen s)%nat /\ trim (sourceAt s i) <> [].
Proof.
  unfold highlightedAt, highlightIndexOf. intros H.
  apply andb_true_iff in H as [H Htrim]. apply andb_true_iff in H as [_ H].
  apply negb_true_iff, bool_decide_eq_false in Htrim.
  destruct (Z.ltb_spec k (Z.of_nat (targetLen s))); apply Z.eqb_eq in H;
    (split; [lia|split; [lia|exact Htrim]]).
Qed.

Lemma shownAt_highlighted s k i :
  highlightedAt s k i = true -> shownAt s k i = charToShowOf (sourceAt s i).
Proof.
  unfold highlightedAt, shownAt. intros H.
  apply andb_true_iff in H as [H _]. apply andb_true_iff in H as [H _].
  apply negb_true_iff in H. now rewrite H.
Qed.

Lemma visible_code_point c :
  code_point c -> trim c <> [] -> charToShowOf c = c /\ ends_visibly c.
Proof.
  unfold charToShowOf. intros [[u ->]|(h & l & -> & Hh & Hl)] Htrim.
  - assert (Hu : is_js_space u = false).
    { destruct (is_js_space u) eqn:E; [|reflexivity].
      exfalso. apply Htrim. unfold trim. cbn. now rewrite E. }
    unfold is_js_space in Hu. repeat (apply orb_false_iff in Hu as [Hu ?]).
    split.
    + rewrite bool_decide_eq_false_2; [reflexivity|].
      intros [= ->]. discriminate.
    + exists [], u. split; [reflexivity|]. intros ->. discriminate.
  - split.
    + now rewrite bool_decide_eq_false_2.
    + exists [h], l. split; [reflexivity|]. intros ->. discriminate.
Qed.

Lemma visible_code_point_seams c :
  code_point c -> trim c <> [] ->
  (forall c', c <> LF :: c') /\ (forall c', c <> c' ++ [CR]).
Proof.
  intros [[u ->]|(h & l & -> & Hh & Hl)] Htrim.
  - assert (Hu : is_js_space u = false).
    { destruct (is_js_space u) eqn:E; [|reflexivity].
      exfalso. apply Htrim. unfold trim. cbn. now rewrite E. }
    split.
    + intros c' [= -> _]. discriminate.
    + intros [|x [|y c']] E; cbn in E; try discriminate.
      injection E as ->. discriminate.
  - split.
    + intros c' [= -> _]. discriminate.
    + intros [|x [|y [|z c']]] E; cbn in E; try discriminate.
      injection E as _ ->. discriminate.
Qed.

Lemma highlighted_seams s k i :
  Forall (fun c => c = [] \/ code_point c) (fromPadded s) ->
  highlightedAt s k i = true ->
  (forall c', shownAt s k i <> LF :: c') /\ (forall c', shownAt s k i <> c' ++ [CR]).
Proof.
  intros Hsrc H. rewrite (shownAt_highlighted _ _ _ H).
  apply highlightedAt_index in H as (_ & _ & Htrim).
  unfold sourceAt in *. destruct (fromPadded s !! i) as [c|] eqn:E; cbn in *.
  - rewrite Forall_lookup in Hsrc. destruct (Hsrc _ _ E) as [->|Hc].
    + now contradiction Htrim.
    + destruct (visible_code_point c Hc Htrim) as [-> _].
      now apply visible_code_point_seams.
  - now contradiction Htrim.
Qed.

Lemma highlighted_ends_visibly s k i :
  Forall (fun c => c = [] \/ code_point c) (fromPadded s) ->
  highlightedAt s k i = true -> ends_visibly (shownAt s k i).
Proof.
  intros Hsrc H. rewrite (shownAt_highlighted _ _ _ H).
  apply highlightedAt_index in H as (_ & _ & Htrim).
  unfold sourceAt in *. destruct (fromPadded s !! i) as [c|] eqn:E; cbn in *.
  - rewrite Forall_lookup in Hsrc. destruct (Hsrc _ _ E) as [->|Hc].
    + now contradiction Htrim.
    + destruct (visible_code_point c Hc Htrim) as [-> Hv]. exact Hv.
  - now contradiction Htrim.
Qed.

Lemma join_cells_plain s k l :
  (forall i, In i l -> highlightedAt s k i = false) ->
  join (List.map (cellAt s k) l) = escapeHtml (concat (List.map (shownAt s k) l)).
Proof.
  unfold join. induction l as [|i l IH]; intros H; [reflexivity|].
  cbn [List.map concat]. rewrite escapeHtml_app, IH.
  - unfold cellAt at 1. rewrite H; [reflexivity|now left].
  - intros j Hj. apply H. now right.
Qed.

Lemma seq_split_at n h :
  (h < n)%nat -> seq 0 n = seq 0 h ++ h :: seq (S h) (n - S h).
Proof.
  intros H. replace n with (h + S (n - S h))%nat at 1 by lia.
  now rewrite seq_app.
Qed.

(** What the platform reads back of a frame is the frame's characters
    with the trailing run of U+00A0 removed, line breaks as LF and NULs
    gone. *)
Lemma fragmentText_frameMarkup s k :
  Forall (fun c => c = [] \/ code_point c) (fromPadded s) ->
  fragmentText (frameMarkup s k) = readBack (stripTrailingNbsp (frameShown s k)).
Proof.
  intros Hsrc. unfold frameMarkup, frameShown.
  set (n := targetLen s). set (h := Z.to_nat k).
  destruct (decide ((h < n)%nat /\ highlightedAt s k h = true)) as [(Hh & Hl)|Hno].
  - rewrite (seq_split_at n h Hh), !map_app. cbn [List.map].
    unfold join. rewrite !concat_app. cbn [concat].
    assert (Hother : forall l, (forall i, In i l -> i <> h) ->
              concat (List.map (cellAt s k) l)
              = escapeHtml (concat (List.map (shownAt s k) l))).
    { intros l Hne. apply join_cells_plain. intros i Hi.
      destruct (highlightedAt s k i) eqn:E; [|reflexivity].
      apply highlightedAt_index in E as (E & _). apply highlightedAt_index in Hl as (Hl & _).
      exfalso. apply (Hne i Hi). lia. }
    rewrite !Hother.
    2:{ intros i Hi. apply in_seq in Hi. lia. }
    2:{ intros i Hi. apply in_seq in Hi. lia. }
    unfold cellAt at 1. rewrite Hl.
    destruct (highlighted_seams s k h Hsrc Hl) as [Hhead Hlast].
    apply fragmentText_highlight_frame;
      [now apply highlighted_ends_visibly|exact Hhead|exact Hlast].
  - rewrite join_cells_plain; [apply fragmentText_plain_frame|].
    intros i Hi. apply in_seq in Hi.
    destruct (highlightedAt s k i) eqn:E; [|reflexivity].
    exfalso. apply Hno. pose proof (highlightedAt_index _ _ _ E) as (Hk & _).
    assert (i = h) as -> by (subst h; lia). split; [fold n; lia|exact E].
Qed.

(** ** Progress and reveal count *)

Lemma progressAt_le_1 s now : (progressAt s now <= 1)%Q.
Proof. unfold progressAt. apply Q.le_min_r. Qed.

Lemma targetLen_nonneg s : (0 <= inject_Z (Z.of_nat (targetLen s)))%Q.
Proof. change 0%Q with (inject_Z 0). rewrite <- Zle_Qle. lia. Qed.

(** The reveal count never passes the length, for a length that is a
    binary64 number, as every length of an array is. *)
Lemma revealCountAt_le s now :
  Z.of_nat (targetLen s) <= 2 ^ 53 ->
  revealCountAt s now <= Z.of_nat (targetLen s).
Proof.
  intros Hlen. unfold revealCountAt, Binary64.mul.
  rewrite <- (Qfloor_Z (Z.of_nat (targetLen s))) at 2.
  apply Qfloor_resp_le.
  rewrite <- (round_Z (Z.of_nat (targetLen s))) at 2 by lia.
  apply round_mono.
  rewrite <- (Qmult_1_l (inject_Z (Z.of_nat (targetLen s)))) at 2.
  apply Qmult_le_compat_r; [apply progressAt_le_1|apply targetLen_nonneg].
Qed.

Lemma round_1000 : (Binary64.round 1000 == 1000)%Q.
Proof. apply (round_Z 1000). lia. Qed.

Lemma progressAt_done s now :
  (start s + I18N_TEXT_SWAP_MS <= now)%Q -> Qle_bool 1 (progressAt s now) = true.
Proof.
  intros H. apply Qle_bool_iff. unfold progressAt. apply Q.min_glb; [|apply Qle_refl].
  unfold Binary64.div, Binary64.sub, I18N_TEXT_SWAP_MS in *.
  assert (H1 : (1000 <= Binary64.round (now - start s))%Q).
  { rewrite <- round_1000. apply round_mono. lra. }
  rewrite <- round_one. apply round_mono.
  apply Qle_shift_div_l; [reflexivity|]. lra.
Qed.




(** ** The characters of a frame *)

Lemma map_lookup_seq {A} (d : A) (l : list A) m : forall j,
  (j + m <= length l)%nat ->
  List.map (fun i => default d (l !! i)) (seq j m) = take m (drop j l).
Proof.
  induction m as [|m IH]; intros j Hj; [reflexivity|].
  destruct (lookup_lt_is_Some_2 l j) as [x Hx]; [lia|].
  cbn [seq List.map]. rewrite (drop_S _ _ _ Hx), Hx, IH by lia. reflexivity.
Qed.

Lemma frameShown_split_le s k :
  well_formed s -> k <= Z.of_nat (targetLen s) ->
  frameShown s k
  = concat (take (Z.to_nat k) (toPadded s))
    ++ concat (List.map charToShowOf (drop (Z.to_nat k) (fromPadded s))).
Proof.
  intros [Hf Ht] Hk. unfold frameShown.
  set (n := targetLen s) in *. set (h := Z.to_nat k).
  assert (Hh : (h <= n)%nat) by (subst h; lia).
  replace n with (h + (n - h))%nat at 1 by lia.
  rewrite seq_app, map_app, concat_app. cbn [Nat.add]. f_equal; f_equal.
  - rewrite <- (drop_0 (toPadded s)) at 1.
    rewrite <- (map_lookup_seq [] (toPadded s) h 0) by lia.
    apply map_ext_in. intros i Hi. apply in_seq in Hi. unfold shownAt.
    destruct (Z.ltb_spec (Z.of_nat i) k); [reflexivity|lia].
  - rewrite <- (take_ge (drop h (fromPadded s)) (n - h)) by (rewrite length_drop; lia).
    rewrite <- (map_lookup_seq [] (fromPadded s) (n - h) h) by lia.
    rewrite List.map_map. apply map_ext_in. intros i Hi. apply in_seq in Hi.
    unfold shownAt, sourceAt.
    destruct (Z.ltb_spec (Z.of_nat i) k); [lia|reflexivity].
Qed.

Lemma frameShown_past s k k' :
  Z.of_nat (targetLen s) <= k -> Z.of_nat (targetLen s) <= k' ->
  frameShown s k = frameShown s k'.
Proof.
  intros Hk Hk'. unfold frameShown. f_equal. apply map_ext_in.
  intros i Hi. apply in_seq in Hi. unfold shownAt.
  destruct (Z.ltb_spec (Z.of_nat i) k); [|lia].
  destruct (Z.ltb_spec (Z.of_nat i) k'); [reflexivity|lia].
Qed.

Lemma frameShown_split s k :
  well_formed s ->
  frameShown s k
  = concat (take (Z.to_nat k) (toPadded s))
    ++ concat (List.map charToShowOf (drop (Z.to_nat k) (fromPadded s))).
Proof.
  intros Hwf. destruct (Z_le_gt_dec k (Z.of_nat (targetLen s))) as [Hk|Hk].
  - now apply frameShown_split_le.
  - rewrite (frameShown_past s k (Z.of_nat (targetLen s))) by lia.
    rewrite frameShown_split_le by (trivial; lia).
    destruct Hwf as [Hf Ht]. rewrite Nat2Z.id.
    rewrite !take_ge, !drop_ge by lia. reflexivity.
Qed.

(** ** The four ways through [animateTextScramble] *)

Section Paths.
Variable P : parser.

Lemma contentOf_cancelPrevious e e' st :
  contentOf (cancelPrevious e st) e' = contentOf st e'.
Proof. unfold cancelPrevious. now destruct (textAnimationRafs st !! e). Qed.

Lemma animate_missing next clock st :
  animateTextScramble P None next clock st = st.
Proof. reflexivity. Qed.

Lemma animate_identical e next clock st :
  textContent P (contentOf st e) = next ->
  animateTextScramble P (Some e) next clock st = cancelPrevious e st.
Proof.
  intros H. unfold animateTextScramble.
  rewrite contentOf_cancelPrevious, H. now rewrite bool_decide_eq_true_2.
Qed.

Lemma animate_nested e next clock st :
  textContent P (contentOf st e) <> next ->
  (0 < childElementCount P (contentOf st e))%nat ->
  animateTextScramble P (Some e) next clock st
  = setContent e (TextContent next) (cancelPrevious e st).
Proof.
  intros Hne Hc. unfold animateTextScramble.
  rewrite contentOf_cancelPrevious, bool_decide_eq_false_2 by exact Hne.
  now apply Nat.ltb_lt in Hc as ->.
Qed.

Lemma animate_plain e next clock st :
  textContent P (contentOf st e) <> next ->
  childElementCount P (contentOf st e) = 0%nat ->
  animateTextScramble P (Some e) next clock st
  = rafsSet e (nextHandle (cancelPrevious e st))
      (snd (requestAnimationFrame
              (Step (newSession e (textContent P (contentOf st e)) next clock))
              (cancelPrevious e st))).
Proof.
  intros Hne Hc. unfold animateTextScramble.
  rewrite contentOf_cancelPrevious, bool_decide_eq_false_2 by exact Hne.
  now rewrite Hc.
Qed.

End Paths.

(** ** Bookkeeping *)

Lemma nextHandle_cancelPrevious e st :
  nextHandle (cancelPrevious e st) = nextHandle st.
Proof. unfold cancelPrevious. now destruct (textAnimationRafs st !! e). Qed.

Lemma dom_cancelPrevious e st : dom (cancelPrevious e st) = dom st.
Proof. unfold cancelPrevious. now destruct (textAnimationRafs st !! e). Qed.

Lemma rafs_cancelPrevious e st :
  textAnimationRafs (cancelPrevious e st) = textAnimationRafs st.
Proof. unfold cancelPrevious. now destruct (textAnimationRafs st !! e). Qed.

Lemma callbacks_cancelPrevious e st h cb :
  frameCallbacks (cancelPrevious e st) !! h = Some cb ->
  frameCallbacks st !! h = Some cb.
Proof.
  unfold cancelPrevious. destruct (textAnimationRafs st !! e) as [p|]; [|trivial].
  cbn. intros H. apply lookup_delete_Some in H. tauto.
Qed.

Lemma callbacks_cancelPrevious_subseteq e st :
  frameCallbacks (cancelPrevious e st) ⊆ frameCallbacks st.
Proof.
  unfold cancelPrevious. destruct (textAnimationRafs st !! e) as [p|]; [|reflexivity].
  cbn. apply delete_subseteq.
Qed.

(** Without a waiting callback under the recorded handle, the
    cancellation changes nothing. *)
Lemma cancelPrevious_stale e st :
  (forall h, textAnimationRafs st !! e = Some h -> frameCallbacks st !! h = None) ->
  cancelPrevious e st = st.
Proof.
  intros H. unfold cancelPrevious, cancelAnimationFrame.
  destruct (textAnimationRafs st !! e) as [p|]; [|reflexivity].
  rewrite delete_id by now apply H. now destruct st.
Qed.

Lemma tracked_one_session st : tracked st -> one_session_per_element st.
Proof.
  intros Ht h1 h2 s1 s2 H1 H2 He. apply Ht in H1, H2.
  rewrite He in H1. congruence.
Qed.

(** On a consistent page, an element without a waiting session is one
    whose recorded handle, if any, is no longer on the platform's list. *)
Lemma idle_stale e st :
  consistent st -> idle e st ->
  forall h, textAnimationRafs st !! e = Some h -> frameCallbacks st !! h = None.
Proof.
  intros (_ & _ & Hs & _) Hi h Hh.
  destruct (frameCallbacks st !! h) as [cb|] eqn:E; [|reflexivity].
  destruct (Hs _ _ _ Hh E) as (s & -> & He). now destruct (Hi _ _ E).
Qed.

Lemma consistent_shrink st st' :
  (forall h cb, frameCallbacks st' !! h = Some cb -> frameCallbacks st !! h = Some cb) ->
  textAnimationRafs st' = textAnimationRafs st ->
  nextHandle st' = nextHandle st ->
  consistent st -> consistent st'.
Proof.
  intros Hcb Hr Hn (Ht & Hf & Hs & Htf). repeat split.
  - intros h s H. rewrite Hr. now apply Ht, Hcb.
  - intros h [cb H]. rewrite Hn. apply Hf. exists cb. now apply Hcb.
  - intros e h cb He H. rewrite Hr in He. apply (Hs _ _ _ He). now apply Hcb.
  - intros e h He. rewrite Hr in He. rewrite Hn. now apply (Htf e).
Qed.

Lemma consistent_cancelPrevious e st :
  consistent st -> consistent (cancelPrevious e st).
Proof.
  apply consistent_shrink.
  - apply callbacks_cancelPrevious.
  - apply rafs_cancelPrevious.
  - apply nextHandle_cancelPrevious.
Qed.

(** The platform takes a callback off its list before running it. *)
Lemma consistent_take h st : consistent st -> consistent (cancelAnimationFrame h st).
Proof.
  apply consistent_shrink; [|reflexivity..].
  intros h' cb H. cbn in H. apply lookup_delete_Some in H. tauto.
Qed.

Lemma consistent_setContent e c st : consistent st -> consistent (setContent e c st).
Proof. now apply consistent_shrink. Qed.

(** The point of lines 709-710. *)
Lemma idle_cancelPrevious e st : tracked st -> idle e (cancelPrevious e st).
Proof.
  intros Ht h s Hs He. pose proof (callbacks_cancelPrevious _ _ _ _ Hs) as Hs'.
  apply Ht in Hs'. rewrite He in Hs'.
  unfold cancelPrevious in Hs. rewrite Hs' in Hs. cbn in Hs.
  now rewrite lookup_delete_eq in Hs.
Qed.

Lemma idle_take h s st :
  tracked st -> frameCallbacks st !! h = Some (Step s) ->
  idle (el s) (cancelAnimationFrame h st).
Proof.
  intros Ht Hh h' s' Hs' He. cbn in *.
  apply lookup_delete_Some in Hs' as [Hne Hs'].
  apply Ht in Hs', Hh. rewrite He in Hs'. congruence.
Qed.

Lemma idle_setContent e e' c st : idle e st -> idle e (setContent e' c st).
Proof. trivial. Qed.

(** Arming a session for an element nothing else is waiting on. *)
Lemma consistent_arm s st :
  consistent st -> idle (el s) st ->
  consistent (rafsSet (el s) (nextHandle st) (snd (requestAnimationFrame (Step s) st))).
Proof.
  intros (Ht & Hf & Hs & Htf) Hi. repeat split.
  - intros h s' Hs'. cbn in *.
    apply lookup_insert_Some in Hs' as [[<- [= <-]]|[Hne Hs']].
    + apply lookup_insert_eq.
    + rewrite lookup_insert_ne; [now apply Ht|].
      intros He. now apply (Hi _ _ Hs').
  - intros h Hh. cbn in *. apply lookup_insert_is_Some in Hh as [<-|[_ Hh]].
    + lia.
    + apply Hf in Hh. lia.
  - intros e h cb He Hcb. cbn in *.
    apply lookup_insert_Some in He as [[<- <-]|[Hne He]].
    + rewrite lookup_insert_eq in Hcb. injection Hcb as <-. now exists s.
    + rewrite lookup_insert_ne in Hcb; [now apply (Hs e h)|].
      intros <-. apply Htf in He. lia.
  - intros e h He. cbn in *.
    apply lookup_insert_Some in He as [[<- <-]|[Hne He]].
    + lia.
    + apply Htf in He. lia.
Qed.

Lemma consistent_disarm e st :
  consistent st -> idle e st -> consistent (rafsDelete e st).
Proof.
  intros (Ht & Hf & Hs & Htf) Hi. repeat split.
  - intros h s H. cbn in *.
    rewrite lookup_delete_ne; [now apply Ht|].
    intros He. now apply (Hi _ _ H).
  - exact Hf.
  - intros e' h cb He Hcb. cbn in *.
    apply lookup_delete_Some in He as [_ He]. now apply (Hs e' h).
  - intros e' h He. cbn in *.
    apply lookup_delete_Some in He as [_ He]. now apply (Htf e').
Qed.

Lemma consistent_other st :
  consistent st -> consistent (snd (requestAnimationFrame Foreign st)).
Proof.
  intros (Ht & Hf & Hs & Htf). repeat split.
  - intros h s H. cbn in *.
    apply lookup_insert_Some in H as [[_ [=]]|[_ H]]. now apply Ht.
  - intros h Hh. cbn in *. apply lookup_insert_is_Some in Hh as [<-|[_ Hh]].
    + lia.
    + apply Hf in Hh. lia.
  - intros e h cb He Hcb. cbn in *.
    rewrite lookup_insert_ne in Hcb; [now apply (Hs e h)|].
    intros <-. apply Htf in He. lia.
  - intros e h He. cbn in *. apply Htf in He. lia.
Qed.

Lemma step_cases s now st :
  step s now st = st
  \/ step s now st
     = rafsDelete (el s) (setContent (el s) (TextContent (nextText s)) st)
  \/ exists m, step s now st
     = rafsSet (el s) (nextHandle st)
         (snd (requestAnimationFrame (Step s) (setContent (el s) (InnerHTML m) st))).
Proof.
  unfold step, Qlt_bool. destruct (renderOut s _) as [out|]; [|now left].
  destruct (Qle_bool 1 (progressAt s now)); cbn; [right; now left|].
  right; right. now eexists.
Qed.

Lemma step_keeps s now st :
  consistent st -> idle (el s) st -> consistent (step s now st).
Proof.
  intros Hc Hi.
  destruct (step_cases s now st) as [->| [->|[m ->]]].
  - exact Hc.
  - apply consistent_disarm; [now apply consistent_setContent|exact Hi].
  - apply (consistent_arm s (setContent (el s) (InnerHTML m) st));
      [now apply consistent_setContent|exact Hi].
Qed.

Section Reachable.
Variable P : parser.

Lemma animate_keeps target next clock st :
  consistent st -> consistent (animateTextScramble P target next clock st).
Proof.
  intros Hc. destruct target as [e|]; [|exact Hc].
  pose proof (consistent_cancelPrevious e st Hc) as Hc'.
  pose proof (idle_cancelPrevious e st (proj1 Hc)) as Hi'.
  unfold animateTextScramble.
  destruct (bool_decide _); [exact Hc'|].
  destruct (0 <? _)%nat; [now apply consistent_setContent|].
  set (s := newSession e _ next clock). cbn [requestAnimationFrame].
  now apply (consistent_arm s (cancelPrevious e st)).
Qed.

Lemma perform_keeps ev st : consistent st -> consistent (perform P ev st).
Proof.
  intros Hc. destruct ev as [target next clock|a e value clock|h now|]; cbn [perform].
  - now apply animate_keeps.
  - unfold applyTranslation.
    destruct a; [now apply animate_keeps|now apply consistent_setContent].
  - unfold runFrameCallback.
    destruct (frameCallbacks st !! h) as [[s|]|] eqn:E; [| |exact Hc].
    + apply step_keeps; [now apply consistent_take|].
      now apply idle_take; [apply Hc|].
    + now apply consistent_take.
  - now apply consistent_other.
Qed.

Lemma run_keeps evs : forall st, consistent st -> consistent (run P evs st).
Proof.
  induction evs as [|ev evs IH]; intros st Hc; [exact Hc|].
  cbn [run fold_left]. apply IH. now apply perform_keeps.
Qed.

Lemma freshPage_consistent d : consistent (freshPage d).
Proof.
  repeat split.
  - intros h s Hs. cbn in Hs. now rewrite lookup_empty in Hs.
  - intros h [cb Hs]. cbn in Hs. now rewrite lookup_empty in Hs.
  - intros e h cb He. cbn in He. now rewrite lookup_empty in He.
  - intros e h He. cbn in He. now rewrite lookup_empty in He.
Qed.

End Reachable.

(** ** What a tick writes *)

Lemma contentOf_setContent e c st : contentOf (setContent e c st) e = c.
Proof. unfold contentOf, setContent. cbn. now rewrite lookup_insert_eq. Qed.

Lemma contentOf_setContent_ne e e' c st :
  e <> e' -> contentOf (setContent e c st) e' = contentOf st e'.
Proof. intros H. unfold contentOf, setContent. cbn. now rewrite lookup_insert_ne. Qed.

Lemma frameShown_of_newSession e a b clock k :
  stripTrailingNbsp (frameShown (newSession e a b clock) k) = Spec.revealedFrame a b k.
Proof.
  rewrite frameShown_split by apply newSession_well_formed. reflexivity.
Qed.

Lemma frame_of_newSession e a b clock k :
  fragmentText (frameMarkup (newSession e a b clock) k)
  = readBack (Spec.revealedFrame a b k).
Proof.
  rewrite fragmentText_frameMarkup by apply newSession_sources.
  now rewrite frameShown_of_newSession.
Qed.

Section Ticks.
Variable P : parser.

Lemma tick_content h s now st :
  well_formed s -> frameCallbacks st !! h = Some (Step s) ->
  contentOf (runFrameCallback h now st) (el s)
  = if Qle_bool 1 (progressAt s now) then TextContent (nextText s)
    else InnerHTML (frameMarkup s (revealCountAt s now)).
Proof.
  intros Hwf Hh. unfold runFrameCallback. rewrite Hh, step_unfold by exact Hwf.
  destruct (Qle_bool 1 (progressAt s now)).
  - unfold contentOf. cbn. now rewrite lookup_insert_eq.
  - unfold contentOf. cbn. now rewrite lookup_insert_eq.
Qed.

Lemma tick_rearms h s now st :
  well_formed s -> frameCallbacks st !! h = Some (Step s) ->
  Qle_bool 1 (progressAt s now) = false ->
  frameCallbacks (runFrameCallback h now st) !! nextHandle st = Some (Step s).
Proof.
  intros Hwf Hh Hp. unfold runFrameCallback. rewrite Hh, step_unfold, Hp by exact Hwf.
  cbn. now rewrite lookup_insert_eq.
Qed.

Lemma animate_registers e b clock st :
  textContent P (contentOf st e) <> b ->
  childElementCount P (contentOf st e) = 0%nat ->
  frameCallbacks (animateTextScramble P (Some e) b clock st) !! nextHandle st
  = Some (Step (newSession e (textContent P (contentOf st e)) b clock)).
Proof.
  intros Hne Hc. rewrite animate_plain by trivial. cbn.
  rewrite nextHandle_cancelPrevious. now rewrite lookup_insert_eq.
Qed.

End Ticks.

(** ** The shape of a frame *)

Lemma fragmentChildren_escapeUnit (d : nat) (c : Z) (t : jsstring) :
  fragmentChildrenFrom d false (escapeUnit c ++ t) = fragmentChildrenFrom d false t.
Proof.
  destruct (escapeUnit_view c) as [->| -> | -> | -> | -> |Ha Hl Hg Hq Hp];
    try reflexivity.
  cbn [app fragmentChildrenFrom].
  destruct (Z.eqb_spec c LT); [contradiction|reflexivity].
Qed.

Lemma fragmentChildren_escapeHtml (d : nat) (s t : jsstring) :
  fragmentChildrenFrom d false (escapeHtml s ++ t) = fragmentChildrenFrom d false t.
Proof.
  induction s as [|c s IH]; [reflexivity|].
  now rewrite escapeHtml_cons, <- app_assoc, fragmentChildren_escapeUnit.
Qed.

Lemma fragmentChildren_span (p c q : jsstring) :
  fragmentChildren (escapeHtml p ++ (span_open ++ escapeHtml c ++ span_close)
                    ++ escapeHtml q) = 1%nat.
Proof.
  unfold fragmentChildren. rewrite fragmentChildren_escapeHtml, <- !app_assoc.
  change (fragmentChildrenFrom 0 false
            (span_open ++ escapeHtml c ++ span_close ++ escapeHtml q))
    with (1 + fragmentChildrenFrom 1 false
                (escapeHtml c ++ span_close ++ escapeHtml q))%nat.
  rewrite fragmentChildren_escapeHtml.
  change (fragmentChildrenFrom 1 false (span_close ++ escapeHtml q))
    with (fragmentChildrenFrom 0 false (escapeHtml q)).
  rewrite <- (app_nil_r (escapeHtml q)), fragmentChildren_escapeHtml. reflexivity.
Qed.

Lemma fragmentChildren_plain (r : jsstring) : fragmentChildren (escapeHtml r) = 0%nat.
Proof.
  unfold fragmentChildren.
  now rewrite <- (app_nil_r (escapeHtml r)), fragmentChildren_escapeHtml.
Qed.

Lemma strip_highlight_frame (p c q : jsstring) :
  ends_visibly c ->
  stripTrailingNbsp
    (escapeHtml p ++ (span_open ++ escapeHtml c ++ span_close) ++ escapeHtml q)
  = escapeHtml p ++ (span_open ++ escapeHtml c ++ span_close)
    ++ escapeHtml (stripTrailingNbsp q).
Proof.
  intros Hc. rewrite !app_assoc, stripTrailingNbsp_after.
  - now rewrite stripTrailingNbsp_escapeHtml.
  - apply ends_visibly_app, span_close_ends_visibly.
Qed.

(** The two shapes of a frame's markup. *)
Lemma frameMarkup_shape (s : session) (k : Z) :
  Forall (fun c => c = [] \/ code_point c) (fromPadded s) ->
  (frameMarkup s k = escapeHtml (stripTrailingNbsp (frameShown s k))
   /\ forall i, (i < targetLen s)%nat -> highlightedAt s k i = false)
  \/ (exists p c q,
        frameMarkup s k
        = escapeHtml p ++ (span_open ++ escapeHtml c ++ span_close) ++ escapeHtml q
        /\ stripTrailingNbsp (frameShown s k) = p ++ c ++ q
        /\ c = sourceAt s (Z.to_nat k)
        /\ highlightedAt s k (Z.to_nat k) = true).
Proof.
  intros Hsrc. unfold frameMarkup, frameShown.
  set (n := targetLen s). set (h := Z.to_nat k).
  destruct (decide ((h < n)%nat /\ highlightedAt s k h = true)) as [(Hh & Hl)|Hno].
  - right. rewrite (seq_split_at n h Hh), !map_app. cbn [List.map].
    unfold join. rewrite !concat_app. cbn [concat].
    assert (Hother : forall l, (forall i, In i l -> i <> h) ->
              concat (List.map (cellAt s k) l)
              = escapeHtml (concat (List.map (shownAt s k) l))).
    { intros l Hne. apply join_cells_plain. intros i Hi.
      destruct (highlightedAt s k i) eqn:E; [|reflexivity].
      apply highlightedAt_index in E as (E & _).
      pose proof (highlightedAt_index _ _ _ Hl) as (Hl' & _).
      exfalso. apply (Hne i Hi). lia. }
    rewrite !Hother.
    2:{ intros i Hi. apply in_seq in Hi. lia. }
    2:{ intros i Hi. apply in_seq in Hi. lia. }
    unfold cellAt at 1. rewrite Hl.
    pose proof (highlighted_ends_visibly s k h Hsrc Hl) as Hv.
    rewrite strip_highlight_frame by exact Hv.
    do 3 eexists. split; [reflexivity|]. split; [|split; [|reflexivity]].
    + rewrite (app_assoc _ (shownAt s k h)).
      rewrite stripTrailingNbsp_after by now apply ends_visibly_app.
      now rewrite <- app_assoc.
    + rewrite (shownAt_highlighted s k h Hl).
      apply highlightedAt_index in Hl as (_ & _ & Htrim).
      unfold charToShowOf. rewrite bool_decide_eq_false_2; [reflexivity|].
      intros E. rewrite E in Htrim. now apply Htrim.
  - left.
    assert (Hnone : forall i, (i < n)%nat -> highlightedAt s k i = false).
    { intros i Hi. destruct (highlightedAt s k i) eqn:E; [|reflexivity].
      exfalso. apply Hno. pose proof (highlightedAt_index _ _ _ E) as (Hk & _).
      assert (i = h) as -> by (subst h; lia). now split. }
    split; [|exact Hnone]. rewrite join_cells_plain.
    + now rewrite stripTrailingNbsp_escapeHtml.
    + intros i Hi. apply in_seq in Hi. apply Hnone. lia.
Qed.


(** * The properties of the specification *)

(** ** Escaping *)

(** C10. [escapeHtml] is injective and loses nothing. Each code unit of
    the input becomes its own entity or stays itself, whatever the four
    later replacements do, because the ampersand is replaced first;
    decoding the five entities gives the input back; two inputs with the
    same escaped form are equal. *)
Theorem escapeHtml_lossless (s : jsstring) :
  escapeHtml s = flat_map escapeUnit s
  /\ decodeEntities (escapeHtml s) = s
  /\ forall s', escapeHtml s = escapeHtml s' -> s = s'.
Proof.
  assert (Hdec : forall t, decodeEntities (escapeHtml t) = t).
  { intros t. rewrite <- (app_nil_r (escapeHtml t)), decodeEntities_escapeHtml_app.
    apply app_nil_r. }
  split; [apply escapeHtml_flat_map|]. split; [apply Hdec|].
  intros s' H. rewrite <- (Hdec s), <- (Hdec s'). now rewrite H.
Qed.

Lemma escapeHtml_lossless_witness :
  escapeHtml (lit "a&b<c>") = escapeHtml (lit "a&b<c>")
  /\ lit "a&b<c>" = lit "a&b<c>".
Proof.
  split; [reflexivity|].
  apply (proj2 (proj2 (escapeHtml_lossless (lit "a&b<c>")))). reflexivity.
Defined.

(** C7. The only writes of a tick are [el.textContent = nextText] and
    [el.innerHTML = out.join(...).replace(...)], both to the session's
    element. For a session from [a] to [b]: after any tick the element
    holds either the plain text [b], which is no markup at all, or
    markup of one of two shapes: the escaped form of the frame's
    characters, or that form with the highlight span, which the code
    itself writes, around one of them. The escaped form is the outcome of
    the five replacements, the ampersand first: it has no [<], [>], quote
    or apostrophe, each of its ampersands begins one of the five
    entities, it yields no element, and what is read back of it is the
    text (its line breaks as LF, its NULs dropped). Position by position,
    what the loop pushes is the escaped form of one character of the
    target or of the (shown) source, alone or inside the span. *)
Theorem tick_markup_is_escaped (P : parser) (e : element) (a b : jsstring)
    (clock : Q) (st0 : state) :
  textContent P (contentOf st0 e) = a -> a <> b ->
  childElementCount P (contentOf st0 e) = 0%nat ->
  let s := newSession e a b clock in
  frameCallbacks (animateTextScramble P (Some e) b clock st0) !! nextHandle st0
  = Some (Step s)
  /\ (forall (h : handle) (now : Q) (st : state),
        frameCallbacks st !! h = Some (Step s) ->
        let st' := runFrameCallback h now st in
        let k := revealCountAt s now in
        let shown := stripTrailingNbsp (frameShown s k) in
        (forall e', e' <> e -> contentOf st' e' = contentOf st e')
        /\ renderOut s k = Some (List.map (cellAt s k) (seq 0 (targetLen s)))
        /\ (contentOf st' e = TextContent b
            \/ contentOf st' e = InnerHTML (escapeHtml shown)
            \/ exists p c q,
                 shown = p ++ c ++ q
                 /\ contentOf st' e
                    = InnerHTML (escapeHtml p ++ (span_open ++ escapeHtml c ++ span_close)
                                 ++ escapeHtml q)))
  /\ (forall (k : Z) (i : nat) (x : jsstring),
        pushed s k (highlightIndexOf s k) i = Some x ->
        exists c,
          (toPadded s !! i = Some c
           \/ exists sourceChar, fromPadded s !! i = Some sourceChar
                                 /\ c = charToShowOf sourceChar)
          /\ (x = escapeHtml c \/ x = span_open ++ escapeHtml c ++ span_close))
  /\ (forall x : jsstring,
        escapeHtml x
        = replaceAll APOS ent_apos (replaceAll QUOT ent_quot (replaceAll GT ent_gt
            (replaceAll LT ent_lt (replaceAll AMP ent_amp x))))
        /\ escapeHtml x = flat_map escapeUnit x
        /\ well_escaped (escapeHtml x) = true
        /\ fragmentChildren (escapeHtml x) = 0%nat
        /\ fragmentText (escapeHtml x) = readBack x)
  /\ (forall p c q : jsstring,
        fragmentChildren (escapeHtml p ++ (span_open ++ escapeHtml c ++ span_close)
                          ++ escapeHtml q) = 1%nat).
Proof.
  intros Ha Hab Hplain s.
  assert (Hwf : well_formed s) by apply newSession_well_formed.
  split; [|split; [|split; [|split]]].
  - subst s. rewrite <- Ha. apply animate_registers; [now rewrite Ha|exact Hplain].
  - intros h now st Hh st' k shown. split; [|split].
    + intros e' Hne. subst st'. unfold runFrameCallback.
      rewrite Hh, step_unfold by exact Hwf.
      destruct (Qle_bool 1 (progressAt s now)); unfold contentOf; cbn;
        now rewrite lookup_insert_ne by congruence.
    + apply (renderOut_cells s k Hwf).
    + pose proof (tick_content h s now st Hwf Hh) as Hc.
      change (el s) with e in Hc. change (nextText s) with b in Hc.
      fold st' k in Hc.
      destruct (Qle_bool 1 (progressAt s now)); [now left|right].
      rewrite Hc.
      destruct (frameMarkup_shape s k (newSession_sources e a b clock))
        as [[-> _]|(p & c & q & -> & Hs & _)].
      * now left.
      * right. exists p, c, q. split; [exact Hs|reflexivity].
  - intros k i x H. unfold pushed in H.
    destruct (Z.of_nat i <? k).
    + destruct (toPadded s !! i) as [c|]; [|discriminate]. cbn in H.
      injection H as <-. exists c. split; now left.
    + destruct (fromPadded s !! i) as [src|]; [|discriminate].
      cbn [mbind option_bind] in H.
      exists (charToShowOf src). split; [right; now exists src|].
      destruct (_ && _); apply (inj Some) in H; subst x; [now right|now left].
  - intros x. split; [reflexivity|]. split; [apply escapeHtml_flat_map|].
    split; [apply well_escaped_escapeHtml|].
    split; [apply fragmentChildren_plain|apply fragmentText_escapeHtml].
  - apply fragmentChildren_span.
Qed.

Lemma tick_markup_is_escaped_witness :
  let a := lit "<b>" in
  let b := lit "a&b" in
  let st0 := freshPage {[ 1%positive := TextContent a ]} in
  let st1 := animateTextScramble fragmentParser (Some 1%positive) b 0%Q st0 in
  textContent fragmentParser (contentOf st0 1%positive) = a
  /\ a <> b
  /\ childElementCount fragmentParser (contentOf st0 1%positive) = 0%nat
  /\ frameCallbacks st1 !! 1%positive = Some (Step (newSession 1%positive a b 0%Q))
  /\ contentOf (runFrameCallback 1%positive 500%Q st1) 1%positive
     = InnerHTML (lit "a" ++ span_open ++ lit "b" ++ span_close ++ lit "&gt;")
  /\ (contentOf (runFrameCallback 1%positive 500%Q st1) 1%positive = TextContent b
      \/ contentOf (runFrameCallback 1%positive 500%Q st1) 1%positive
         = InnerHTML (escapeHtml (lit "ab>"))
      \/ exists p c q,
           lit "ab>" = p ++ c ++ q
           /\ contentOf (runFrameCallback 1%positive 500%Q st1) 1%positive
              = InnerHTML (escapeHtml p ++ (span_open ++ escapeHtml c ++ span_close)
                           ++ escapeHtml q)).
Proof.
  intros a b st0 st1.
  assert (H1 : textContent fragmentParser (contentOf st0 1%positive) = a) by reflexivity.
  assert (H2 : a <> b) by discriminate.
  assert (H3 : childElementCount fragmentParser (contentOf st0 1%positive) = 0%nat)
    by reflexivity.
  destruct (tick_markup_is_escaped fragmentParser 1%positive a b 0%Q st0 H1 H2 H3)
    as (Hreg & Htick & _).
  split; [exact H1|]. split; [exact H2|]. split; [exact H3|]. split; [exact Hreg|].
  split; [vm_compute; reflexivity|].
  exact (proj2 (proj2 (Htick 1%positive 500%Q st1 Hreg))).
Defined.

(** ** Reveal count *)

(** C9. Within one session, a later timestamp never gives a smaller
    elapsed fraction nor a smaller reveal count: subtraction of the start
    time, division by the duration, the minimum with 1, multiplication by
    the length and the floor all keep the order, and so does the rounding
    of each operation to the nearest binary64 number. *)
Theorem reveal_count_monotone (s : session) (now1 now2 : Q) :
  (now1 <= now2)%Q ->
  (progressAt s now1 <= progressAt s now2)%Q
  /\ revealCountAt s now1 <= revealCountAt s now2.
Proof.
  intros H.
  assert (Hp : (progressAt s now1 <= progressAt s now2)%Q).
  { unfold progressAt. apply Q.min_le_compat_r.
    unfold Binary64.div, Binary64.sub. apply round_mono.
    unfold Qdiv. apply Qmult_le_compat_r; [|discriminate].
    apply round_mono. unfold Qminus. now apply Qplus_le_l. }
  split; [exact Hp|].
  unfold revealCountAt, Binary64.mul. apply Qfloor_resp_le, round_mono.
  apply Qmult_le_compat_r; [exact Hp|apply targetLen_nonneg].
Qed.

Lemma reveal_count_monotone_witness :
  let s := newSession 1%positive (lit "Home") (lit "About us") 0%Q in
  (250 <= 500)%Q /\ revealCountAt s 250%Q <= revealCountAt s 500%Q.
Proof.
  intros s.
  assert (H : (250 <= 500)%Q) by (unfold Qle; cbn; lia).
  split; [exact H|]. exact (proj2 (reveal_count_monotone s _ _ H)).
Defined.

(** ** Calls that do not animate *)

(** C8. A call without an element changes nothing. A call whose new
    string is the text the element already displays leaves every
    element's content, the table and the handle counter as they were and
    adds no callback; when, in addition, no session is waiting for the
    element, the whole page state is unchanged. *)
Theorem invoke_noop (P : parser) (next : jsstring) (clock : Q) (st : state) :
  animateTextScramble P None next clock st = st
  /\ forall e, textContent P (contentOf st e) = next ->
       let st' := animateTextScramble P (Some e) next clock st in
       dom st' = dom st
       /\ textAnimationRafs st' = textAnimationRafs st
       /\ nextHandle st' = nextHandle st
       /\ frameCallbacks st' ⊆ frameCallbacks st
       /\ (consistent st -> idle e st -> st' = st).
Proof.
  split; [reflexivity|]. intros e He st'. subst st'.
  rewrite (animate_identical P e next clock st He).
  split; [apply dom_cancelPrevious|]. split; [apply rafs_cancelPrevious|].
  split; [apply nextHandle_cancelPrevious|].
  split; [apply callbacks_cancelPrevious_subseteq|].
  intros Hc Hi. apply cancelPrevious_stale. now apply idle_stale.
Qed.

Lemma invoke_noop_witness :
  let st := freshPage {[ 1%positive := TextContent (lit "Hi") ]} in
  textContent fragmentParser (contentOf st 1%positive) = lit "Hi"
  /\ animateTextScramble fragmentParser (Some 1%positive) (lit "Hi") 0%Q st = st.
Proof.
  intros st.
  assert (He : textContent fragmentParser (contentOf st 1%positive) = lit "Hi")
    by reflexivity.
  split; [exact He|].
  destruct (invoke_noop fragmentParser (lit "Hi") 0%Q st) as [_ H].
  destruct (H 1%positive He) as (_ & _ & _ & _ & Hsame).
  apply Hsame.
  - apply freshPage_consistent.
  - intros h s Hs. cbn in Hs. now rewrite lookup_empty in Hs.
Defined.

(** C4, as stated, fails: an element with a child element whose text is
    already the new string keeps its markup. *)
Lemma nested_identical_keeps_markup :
  ~ (forall (P : parser) (e : element) (next : jsstring) (clock : Q) (st : state),
       (0 < childElementCount P (contentOf st e))%nat ->
       contentOf (animateTextScramble P (Some e) next clock st) e = TextContent next).
Proof.
  intros H.
  specialize (H fragmentParser 1%positive (lit "Hi") 0%Q
                (freshPage {[ 1%positive := InnerHTML (lit "<b>Hi</b>") ]})).
  assert (Hc : (0 < childElementCount fragmentParser
                     (contentOf (freshPage {[ 1%positive := InnerHTML (lit "<b>Hi</b>") ]})
                        1%positive))%nat) by (vm_compute; lia).
  specialize (H Hc). vm_compute in H. discriminate H.
Qed.

(** C4 (amended). With the reduced-motion preference set, a translated
    string is written as plain text at once: only the element's content
    changes, so no callback is asked for. A call on an element that has
    child elements and displays another text than the new string writes
    the new string as plain text at once, asks for no callback and leaves
    no session waiting for the element. *)
Theorem disabled_animation_sets_text (P : parser) (e : element) (next : jsstring)
    (clock : Q) (st : state) :
  (forall animate,
     applyTranslation P (shouldAnimate animate true) e next clock st
     = setContent e (TextContent next) st
     /\ frameCallbacks (setContent e (TextContent next) st) = frameCallbacks st
     /\ nextHandle (setContent e (TextContent next) st) = nextHandle st)
  /\ ((0 < childElementCount P (contentOf st e))%nat ->
      textContent P (contentOf st e) <> next ->
      let st' := animateTextScramble P (Some e) next clock st in
      contentOf st' e = TextContent next
      /\ nextHandle st' = nextHandle st
      /\ frameCallbacks st' ⊆ frameCallbacks st
      /\ (tracked st -> idle e st')).
Proof.
  split.
  - intros animate. unfold shouldAnimate. rewrite andb_false_r. now cbn.
  - intros Hc Hne st'. subst st'. rewrite animate_nested by trivial.
    split; [apply contentOf_setContent|].
    split; [apply nextHandle_cancelPrevious|].
    split; [apply callbacks_cancelPrevious_subseteq|].
    intros Ht. now apply idle_setContent, idle_cancelPrevious.
Qed.

Lemma disabled_animation_sets_text_witness :
  let st := freshPage {[ 1%positive := InnerHTML (lit "<b>Hi</b> there") ]} in
  (0 < childElementCount fragmentParser (contentOf st 1%positive))%nat
  /\ textContent fragmentParser (contentOf st 1%positive) <> lit "Bye"
  /\ contentOf (animateTextScramble fragmentParser (Some 1%positive) (lit "Bye") 0%Q st)
       1%positive = TextContent (lit "Bye").
Proof.
  intros st.
  assert (Hc : (0 < childElementCount fragmentParser (contentOf st 1%positive))%nat)
    by (vm_compute; lia).
  assert (Hne : textContent fragmentParser (contentOf st 1%positive) <> lit "Bye")
    by (vm_compute; discriminate).
  split; [exact Hc|]. split; [exact Hne|].
  exact (proj1 (proj2 (disabled_animation_sets_text fragmentParser 1%positive
                         (lit "Bye") 0%Q st) Hc Hne)).
Defined.

(** ** One session per element *)

Lemma invoke_on_idle_plain (P : parser) (e : element) (b : jsstring) (clock : Q)
    (st : state) :
  consistent st -> idle e st ->
  textContent P (contentOf st e) <> b ->
  childElementCount P (contentOf st e) = 0%nat ->
  animateTextScramble P (Some e) b clock st
  = rafsSet e (nextHandle st)
      (snd (requestAnimationFrame
              (Step (newSession e (textContent P (contentOf st e)) b clock)) st)).
Proof.
  intros Hc Hi Hne Hplain. rewrite animate_plain by trivial.
  rewrite cancelPrevious_stale; [reflexivity|]. now apply idle_stale.
Qed.

(** C3, as stated, fails: when a second call comes before any tick, the
    element still displays its old text, so the session that remains
    starts from that text and its frames show characters of it. Here the
    element displays [ab], the calls ask for [cd] and then [ef], and the
    frame half-way shows [e] followed by the [b] of [ab]. *)
Lemma second_session_shows_old_text :
  let ab := lit "ab" in
  let cd := lit "cd" in
  let ef := lit "ef" in
  let st0 := freshPage {[ 1%positive := TextContent ab ]} in
  let st1 := animateTextScramble fragmentParser (Some 1%positive) cd 0%Q st0 in
  let st2 := animateTextScramble fragmentParser (Some 1%positive) ef 0%Q st1 in
  let st3 := runFrameCallback 2%positive 500%Q st2 in
  frameCallbacks st2 !! 2%positive = Some (Step (newSession 1%positive ab ef 0%Q))
  /\ contentOf st3 1%positive = InnerHTML (lit "e" ++ span_open ++ lit "b" ++ span_close)
  /\ textContent fragmentParser (contentOf st3 1%positive) = lit "eb"
  /\ In 98 (textContent fragmentParser (contentOf st3 1%positive))
  /\ In 98 ab /\ ~ In 98 cd /\ ~ In 98 ef.
Proof.
  cbv zeta. split; [vm_compute; reflexivity|]. split; [vm_compute; reflexivity|].
  split; [vm_compute; reflexivity|].
  split; [vm_compute; tauto|]. split; [vm_compute; tauto|].
  split; vm_compute; intros H; repeat (destruct H as [H|H]; [discriminate H|]);
    exact H.
Qed.

(** C3 (amended). On every page reached from a fresh one by calls of the
    animator, translations, frame callbacks and requests of other code,
    at most one session is waiting per element, and it is the one the
    table names. A call cancels the callback recorded for the element
    before it does anything else, so none is waiting under that handle
    afterwards. When a plain-text element without a session displays [a]
    and two calls ask for [b] and then for [c] before any frame, both
    different from [a], exactly one session is left for the element: it
    targets [c], it starts from [a], and [b] takes no part in it; the
    content is still untouched. When the second call asks for [a] itself,
    no session is left. *)
Theorem at_most_one_session (P : parser) :
  (forall d evs,
     consistent (run P evs (freshPage d))
     /\ one_session_per_element (run P evs (freshPage d)))
  /\ (forall e next clock st h,
        consistent st ->
        textAnimationRafs st !! e = Some h ->
        frameCallbacks (animateTextScramble P (Some e) next clock st) !! h = None)
  /\ (forall e a b c t1 t2 st,
        consistent st -> idle e st ->
        textContent P (contentOf st e) = a ->
        childElementCount P (contentOf st e) = 0%nat ->
        a <> b -> a <> c ->
        let st2 := animateTextScramble P (Some e) c t2
                     (animateTextScramble P (Some e) b t1 st) in
        let h2 := (nextHandle st + 1)%positive in
        frameCallbacks st2 !! h2 = Some (Step (newSession e a c t2))
        /\ textAnimationRafs st2 !! e = Some h2
        /\ frameCallbacks st2 !! nextHandle st = None
        /\ (forall h s, frameCallbacks st2 !! h = Some (Step s) -> el s = e ->
              h = h2 /\ s = newSession e a c t2)
        /\ contentOf st2 e = contentOf st e)
  /\ (forall e a b t1 t2 st,
        consistent st -> idle e st ->
        textContent P (contentOf st e) = a ->
        childElementCount P (contentOf st e) = 0%nat ->
        a <> b ->
        let st2 := animateTextScramble P (Some e) a t2
                     (animateTextScramble P (Some e) b t1 st) in
        idle e st2 /\ contentOf st2 e = contentOf st e).
Proof.
  split; [|split; [|split]].
  - intros d evs.
    pose proof (run_keeps P evs _ (freshPage_consistent d)) as Hc.
    split; [exact Hc|]. apply tracked_one_session, Hc.
  - intros e next clock st h Hc Hh.
    assert (Hcancel : frameCallbacks (cancelPrevious e st)
                      = delete h (frameCallbacks st)).
    { unfold cancelPrevious. now rewrite Hh. }
    unfold animateTextScramble.
    destruct (bool_decide _).
    { rewrite Hcancel. apply lookup_delete_eq. }
    destruct (0 <? _)%nat.
    { cbn. rewrite Hcancel. apply lookup_delete_eq. }
    cbn. rewrite nextHandle_cancelPrevious, Hcancel.
    destruct Hc as (_ & _ & _ & Htf). apply Htf in Hh.
    rewrite lookup_insert_ne by lia. apply lookup_delete_eq.
  - intros e a b c t1 t2 st Hc Hi Ha Hplain Hab Hac st2 h2.
    subst st2 h2.
    rewrite (invoke_on_idle_plain P e b t1 st Hc Hi) by (rewrite ?Ha; trivial).
    rewrite Ha.
    set (st1 := rafsSet e (nextHandle st)
                  (snd (requestAnimationFrame (Step (newSession e a b t1)) st))).
    assert (Hcontent : contentOf st1 e = contentOf st e) by reflexivity.
    assert (Hcancel : cancelPrevious e st1 = cancelAnimationFrame (nextHandle st) st1).
    { unfold cancelPrevious. cbn. now rewrite lookup_insert_eq. }
    rewrite animate_plain by (rewrite Hcontent, ?Ha; trivial).
    rewrite Hcontent, Ha, Hcancel. cbn.
    assert (Hfresh : frameCallbacks st !! nextHandle st = None).
    { destruct (frameCallbacks st !! nextHandle st) eqn:E; [|reflexivity].
      destruct Hc as (_ & Hf & _). specialize (Hf (nextHandle st)).
      rewrite E in Hf. specialize (Hf (mk_is_Some _ _ eq_refl)). lia. }
    split; [apply lookup_insert_eq|]. split; [apply lookup_insert_eq|].
    split.
    { rewrite lookup_insert_ne by lia. apply lookup_delete_eq. }
    split; [|reflexivity].
    intros h s Hs He.
    apply lookup_insert_Some in Hs as [[<- [= <-]]|[Hne Hs]]; [now split|].
    apply lookup_delete_Some in Hs as [Hne' Hs].
    rewrite lookup_insert_ne in Hs by exact Hne'.
    now destruct (Hi _ _ Hs).
  - intros e a b t1 t2 st Hc Hi Ha Hplain Hab st2. subst st2.
    set (st1 := animateTextScramble P (Some e) b t1 st).
    assert (Hc1 : consistent st1) by now apply animate_keeps.
    assert (Hcontent : contentOf st1 e = contentOf st e).
    { subst st1. rewrite (invoke_on_idle_plain P e b t1 st Hc Hi)
        by (rewrite ?Ha; trivial). reflexivity. }
    rewrite animate_identical by (rewrite Hcontent; exact Ha).
    split; [apply idle_cancelPrevious, Hc1|].
    now rewrite contentOf_cancelPrevious.
Qed.

Lemma at_most_one_session_witness :
  let st := freshPage {[ 1%positive := TextContent (lit "ab") ]} in
  let st2 := animateTextScramble fragmentParser (Some 1%positive) (lit "ef") 7%Q
               (animateTextScramble fragmentParser (Some 1%positive) (lit "cd") 5%Q st) in
  consistent st /\ idle 1%positive st
  /\ frameCallbacks st2 !! 2%positive
     = Some (Step (newSession 1%positive (lit "ab") (lit "ef") 7%Q))
  /\ frameCallbacks st2 !! 1%positive = None.
Proof.
  intros st st2.
  assert (Hc : consistent st) by apply freshPage_consistent.
  assert (Hi : idle 1%positive st).
  { intros h s Hs. cbn in Hs. now rewrite lookup_empty in Hs. }
  split; [exact Hc|]. split; [exact Hi|].
  destruct (proj1 (proj2 (proj2 (at_most_one_session fragmentParser)))
              1%positive (lit "ab") (lit "cd") (lit "ef") 5%Q 7%Q st Hc Hi
              eq_refl eq_refl) as (H1 & _ & H3 & _).
  - discriminate.
  - discriminate.
  - split; [exact H1|exact H3].
Defined.

(** ** Frames *)

(** C1, as stated, fails: with [a ] displayed and [xy] asked for, the
    tick at the start time has reveal count 0 and should show both
    positions of the source, but the trailing blank is stripped and the
    element shows [a] alone. *)
Lemma frame_drops_trailing_blank :
  let a := lit "a " in
  let b := lit "xy" in
  let st0 := freshPage {[ 1%positive := TextContent a ]} in
  let st1 := animateTextScramble fragmentParser (Some 1%positive) b 0%Q st0 in
  let st2 := runFrameCallback 1%positive 0%Q st1 in
  Spec.revealCount 0%Q 0%Q (length (Array_from b)) = 0
  /\ Spec.prefixThenSource a b 0 = lit "a "
  /\ contentOf st2 1%positive = InnerHTML (span_open ++ lit "a" ++ span_close)
  /\ textContent fragmentParser (contentOf st2 1%positive) = lit "a"
  /\ textContent fragmentParser (contentOf st2 1%positive)
     <> Spec.prefixThenSource a b (Spec.revealCount 0%Q 0%Q (length (Array_from b))).
Proof.
  cbv zeta. split; [reflexivity|]. split; [reflexivity|].
  split; [vm_compute; reflexivity|].
  split; [vm_compute; reflexivity|]. vm_compute. discriminate.
Qed.

(** The rounding shows: for a target of 50 characters the tick 580 ms
    after the start computes [0.58 * 50] as a number just below 29 and
    reveals 28 characters, where the exact quotient and product give
    29. *)
Lemma reveal_count_is_rounded :
  let s := newSession 1%positive (replicate 50 97) (replicate 50 98) 0%Q in
  revealCountAt s 580%Q = 28
  /\ Spec.revealCount 0%Q 580%Q 50 = 29.
Proof. cbv zeta. split; vm_compute; reflexivity. Qed.

(** C1 (amended). A call on a plain-text element that displays [a], with
    a new string [b] other than [a], puts on the platform's list a
    callback closed over the session from [a] to [b]. Whenever that
    callback runs, at timestamp [now]: the elapsed fraction is
    [min((now - start) / 1000, 1)] and the reveal count is
    [floor(fraction * length b)], lengths counted in code points, each
    of [-], [/] and [*] being the binary64 operation, which rounds; the
    count is at most [length b]; when the fraction is 1 the element's
    content is the plain text [b]; otherwise it is markup, built position
    by position (escaped, the character at the reveal count inside the
    highlight span when it is not white space), whose characters are the
    first reveal-count characters of [b] followed by the remaining
    positions of [a] padded with empty strings or truncated to the
    length of [b], a space of [a] being shown as U+00A0 and the run of
    U+00A0 that ends the whole being removed; the platform reads that
    text back with its line breaks as LF and its NULs dropped; and the
    same callback is put on the list again. *)
Theorem tick_frame (P : parser) (e : element) (a b : jsstring) (clock : Q)
    (st0 : state) :
  textContent P (contentOf st0 e) = a -> a <> b ->
  childElementCount P (contentOf st0 e) = 0%nat ->
  let s := newSession e a b clock in
  let len := Z.of_nat (length (Array_from b)) in
  frameCallbacks (animateTextScramble P (Some e) b clock st0) !! nextHandle st0
  = Some (Step s)
  /\ forall (h : handle) (now : Q) (st : state),
       frameCallbacks st !! h = Some (Step s) ->
       let fraction := Qmin (Binary64.div (Binary64.sub now clock) 1000) 1 in
       let k := Qfloor (Binary64.mul fraction (inject_Z len)) in
       progressAt s now = fraction
       /\ revealCountAt s now = k
       /\ (len <= 2 ^ 53 -> k <= len)
       /\ renderOut s k = Some (List.map (cellAt s k) (seq 0 (length (Array_from b))))
       /\ contentOf (runFrameCallback h now st) e
          = (if Qle_bool 1 fraction then TextContent b
             else InnerHTML (frameMarkup s k))
       /\ (frameMarkup s k = escapeHtml (Spec.revealedFrame a b k)
           \/ exists p c q,
                Spec.revealedFrame a b k = p ++ c ++ q
                /\ c = sourceAt s (Z.to_nat k)
                /\ frameMarkup s k
                   = escapeHtml p ++ (span_open ++ escapeHtml c ++ span_close)
                     ++ escapeHtml q)
       /\ fragmentText (frameMarkup s k) = readBack (Spec.revealedFrame a b k)
       /\ (Qle_bool 1 fraction = false ->
           frameCallbacks (runFrameCallback h now st) !! nextHandle st = Some (Step s)).
Proof.
  intros Ha Hab Hplain s len. split.
  - subst s. rewrite <- Ha. apply animate_registers; [now rewrite Ha|exact Hplain].
  - intros h now st Hh fraction k.
    assert (Hwf : well_formed s) by apply newSession_well_formed.
    split; [reflexivity|]. split; [reflexivity|].
    split; [intros Hlen; now apply (revealCountAt_le s now)|].
    split; [apply (renderOut_cells s k Hwf)|].
    split; [apply (tick_content h s now st Hwf Hh)|].
    split.
    { rewrite <- (frameShown_of_newSession e a b clock k). fold s.
      destruct (frameMarkup_shape s k (newSession_sources e a b clock))
        as [[E _]|(p & c & q & E & Hs & Hc & _)].
      - now left.
      - right. now exists p, c, q. }
    split; [apply frame_of_newSession|].
    intros Hp. now apply tick_rearms.
Qed.

Lemma tick_frame_witness :
  let home := lit "Home" in
  let about := lit "About us" in
  let st0 := freshPage {[ 1%positive := TextContent home ]} in
  textContent fragmentParser (contentOf st0 1%positive) = home
  /\ home <> about
  /\ childElementCount fragmentParser (contentOf st0 1%positive) = 0%nat
  /\ frameCallbacks (animateTextScramble fragmentParser (Some 1%positive) about 0%Q st0)
       !! 1%positive
     = Some (Step (newSession 1%positive home about 0%Q)).
Proof.
  intros home about st0.
  assert (H1 : textContent fragmentParser (contentOf st0 1%positive) = home)
    by reflexivity.
  assert (H2 : home <> about) by discriminate.
  assert (H3 : childElementCount fragmentParser (contentOf st0 1%positive) = 0%nat)
    by reflexivity.
  split; [exact H1|]. split; [exact H2|]. split; [exact H3|].
  exact (proj1 (tick_frame fragmentParser 1%positive home about 0%Q st0 H1 H2 H3)).
Defined.






(** ** Blank positions *)

Lemma padTo_beyond (len : nat) (l : list jsstring) (i : nat) :
  (length l <= i < len)%nat -> padTo len l !! i = Some [].
Proof.
  intros H. unfold padTo.
  rewrite lookup_app_r by (rewrite length_take; lia).
  apply lookup_replicate_2. rewrite length_take. lia.
Qed.

Lemma padTo_within (len : nat) (l : list jsstring) (i : nat) :
  (i < len)%nat -> (i < length l)%nat -> padTo len l !! i = l !! i.
Proof.
  intros H1 H2. unfold padTo.
  rewrite lookup_app_l by (rewrite length_take; lia).
  now apply lookup_take_lt.
Qed.

(** C5, as stated, fails: from [Home] to the seven characters of the
    Ukrainian for [About us], half-way through, the reveal count is 3 and
    position 3 shows the [e] of [Home], but positions 4 to 6, where the
    source is padding, contribute the empty string, not U+00A0; the
    element then holds four characters. *)
Lemma padding_is_not_nbsp :
  let home := lit "Home" in
  let pro_nas := [1055; 1088; 1086; 32; 1085; 1072; 1089] in
  let s := newSession 1%positive home pro_nas 0%Q in
  let st1 := animateTextScramble fragmentParser (Some 1%positive) pro_nas 0%Q
               (freshPage {[ 1%positive := TextContent home ]}) in
  revealCountAt s 500%Q = 3
  /\ sourceAt s 4 = []
  /\ pushed s 3 (highlightIndexOf s 3) 4 = Some []
  /\ pushed s 3 (highlightIndexOf s 3) 4 <> Some [NBSP]
  /\ contentOf (runFrameCallback 1%positive 500%Q st1) 1%positive
     = InnerHTML ([1055; 1088; 1086] ++ span_open ++ lit "e" ++ span_close).
Proof.
  cbv zeta. split; [reflexivity|]. split; [reflexivity|]. split; [reflexivity|].
  split; [discriminate|]. vm_compute. reflexivity.
Qed.

(** C5 (amended). For an unrevealed position of a session from [a] to
    [b]: where the source character is a space, U+00A0 is pushed (the
    strip of the trailing run may remove it again); where [a] has no
    character, the padded source is the empty string and the empty string
    is pushed. From [Home] to the seven characters of the Ukrainian for
    [About us], half-way through: the reveal count is 3, the first three
    strings pushed are the first three characters of the target, the
    fourth is the [e] of [Home] inside the highlight span, and the last
    three are empty. *)
Theorem unrevealed_blanks (e : element) (a b : jsstring) (clock : Q) (k : Z) (i : nat) :
  (i < length (Array_from b))%nat -> k <= Z.of_nat i ->
  let s := newSession e a b clock in
  (Array_from a !! i = Some [SPACE] ->
     pushed s k (highlightIndexOf s k) i = Some [NBSP])
  /\ ((length (Array_from a) <= i)%nat ->
        fromPadded s !! i = Some []
        /\ pushed s k (highlightIndexOf s k) i = Some [])
  /\ (let home := lit "Home" in
      let pro_nas := [1055; 1088; 1086; 32; 1085; 1072; 1089] in
      let sc := newSession e home pro_nas clock in
      revealCountAt sc (clock + 500)%Q = 3
      /\ renderOut sc 3
         = Some [[1055]; [1088]; [1086]; span_open ++ lit "e" ++ span_close;
                 []; []; []]).
Proof.
  intros Hi Hk s.
  assert (Hlt : (Z.of_nat i <? k) = false) by (apply Z.ltb_ge; lia).
  split; [|split].
  - intros Ha. unfold pushed. rewrite Hlt.
    assert (Hsrc : fromPadded s !! i = Some [SPACE]).
    { cbn. rewrite padTo_within; [exact Ha|exact Hi|].
      apply lookup_lt_is_Some. now rewrite Ha. }
    rewrite Hsrc. cbn [mbind option_bind].
    replace (bool_decide (trim [SPACE] = [])) with true by reflexivity.
    now rewrite andb_false_r.
  - intros Ha.
    assert (Hsrc : fromPadded s !! i = Some []).
    { cbn. apply padTo_beyond. lia. }
    split; [exact Hsrc|]. unfold pushed. rewrite Hlt, Hsrc. cbn [mbind option_bind].
    replace (bool_decide (trim [] = [])) with true by reflexivity.
    now rewrite andb_false_r.
  - cbv zeta. split; [|reflexivity].
    unfold revealCountAt, progressAt. cbn [start newSession targetLen].
    assert (E1 : (Binary64.sub (clock + 500) clock == 500)%Q).
    { unfold Binary64.sub.
      assert (E : (clock + 500 - clock == 500)%Q) by ring.
      rewrite (round_proper _ _ E). apply (round_Z 500). lia. }
    assert (E2 : (Binary64.div (Binary64.sub (clock + 500) clock) I18N_TEXT_SWAP_MS
                  == 1 # 2)%Q).
    { unfold Binary64.div.
      assert (E : (Binary64.sub (clock + 500) clock / I18N_TEXT_SWAP_MS == 1 # 2)%Q)
        by (rewrite E1; reflexivity).
      rewrite (round_proper _ _ E). vm_compute. reflexivity. }
    set (len := length (Array_from [1055; 1088; 1086; 32; 1085; 1072; 1089])).
    assert (E3 : (Qmin (Binary64.div (Binary64.sub (clock + 500) clock) I18N_TEXT_SWAP_MS) 1
                  * inject_Z (Z.of_nat len) == 7 # 2)%Q)
      by (rewrite E2; reflexivity).
    unfold Binary64.mul. rewrite (Qfloor_comp _ _ (round_proper _ _ E3)).
    vm_compute. reflexivity.
Qed.

Lemma unrevealed_blanks_witness :
  let s := newSession 1%positive (lit "a b") (lit "wxyz!") 0%Q in
  (1 < length (Array_from (lit "wxyz!")))%nat /\ 1 <= Z.of_nat 1
  /\ Array_from (lit "a b") !! 1%nat = Some [SPACE]
  /\ pushed s 1 (highlightIndexOf s 1) 1 = Some [NBSP].
Proof.
  intros s.
  assert (H1 : (1 < length (Array_from (lit "wxyz!")))%nat) by (vm_compute; lia).
  assert (H2 : 1 <= Z.of_nat 1) by lia.
  assert (H3 : Array_from (lit "a b") !! 1%nat = Some [SPACE]) by reflexivity.
  split; [exact H1|]. split; [exact H2|]. split; [exact H3|].
  exact (proj1 (unrevealed_blanks 1%positive (lit "a b") (lit "wxyz!") 0%Q 1 1 H1 H2) H3).
Defined.

(** ** Characters *)

Lemma Array_from_keeps_pairs (s : jsstring) :
  forall i h l t,
    Array_from s !! i = Some [h] -> Array_from s !! S i = Some (l :: t) ->
    is_high_surrogate h && is_low_surrogate l = false.
Proof.
  assert (H : (forall i h l t,
                 Array_from s !! i = Some [h] -> Array_from s !! S i = Some (l :: t) ->
                 is_high_surrogate h && is_low_surrogate l = false)
              /\ (forall c rest x r, s = c :: rest -> Array_from s = x :: r ->
                    exists x', x = c :: x')).
  { apply (Array_from_walk (fun s r =>
      (forall i h l t, r !! i = Some [h] -> r !! S i = Some (l :: t) ->
         is_high_surrogate h && is_low_surrogate l = false)
      /\ (forall c rest x r', s = c :: rest -> r = x :: r' -> exists x', x = c :: x'))).
    - split; [intros i h l t Hi; cbn in Hi; discriminate Hi|].
      intros c rest x r' Hs. discriminate Hs.
    - intros c. split.
      + intros i h l t _ Hi. cbn in Hi. discriminate Hi.
      + intros c' rest x r' [= <- <-] [= <- <-]. now exists [].
    - intros c d rest E [IH _]. split.
      + intros [|i] h l t H0 H1; [discriminate H0|]. exact (IH i h l t H0 H1).
      + intros c' rest' x r' [= <- <-] [= <- <-]. now exists [d].
    - intros c d rest E [IH Hhead]. split.
      + intros [|i] h l t H0 H1.
        * injection H0 as <-.
          destruct (Array_from (d :: rest)) as [|x r] eqn:Er; [discriminate H1|].
          injection H1 as ->.
          destruct (Hhead d rest (l :: t) r eq_refl eq_refl) as [x' [= <- <-]].
          exact E.
        * exact (IH i h l t H0 H1).
      + intros c' rest' x r' [= <- <-] [= <- <-]. now exists []. }
  exact (proj1 H).
Qed.

(** C6, as stated, fails: [e] followed by the combining acute accent
    U+0301 is one character to the reader and two elements to
    [Array.from]; half-way from [ab] to it the element shows the bare
    [e] followed by the [b] of the source. *)
Lemma combining_mark_is_split :
  let a := lit "ab" in
  let b := [101; 769] in
  let st1 := animateTextScramble fragmentParser (Some 1%positive) b 0%Q
               (freshPage {[ 1%positive := TextContent a ]}) in
  Spec.is_combining_mark 769 = true
  /\ Array_from b = [[101]; [769]]
  /\ revealCountAt (newSession 1%positive a b 0%Q) 500%Q = 1
  /\ textContent fragmentParser (contentOf (runFrameCallback 1%positive 500%Q st1) 1%positive)
     = [101; 98].
Proof.
  cbv zeta. split; [reflexivity|]. split; [reflexivity|]. split; [reflexivity|].
  vm_compute. reflexivity.
Qed.

(** C6 (amended). Both strings are cut into Unicode code points: the
    pieces put together give the string back, each piece is one code unit
    or a surrogate pair, and a high surrogate followed by a low one is
    never cut in two; the session's arrays and its length are these
    pieces and their number. Nothing groups a combining mark with the
    character before it. *)
Theorem code_point_grouping (s : jsstring) :
  concat (Array_from s) = s
  /\ Forall code_point (Array_from s)
  /\ (forall i h l t,
        Array_from s !! i = Some [h] -> Array_from s !! S i = Some (l :: t) ->
        is_high_surrogate h && is_low_surrogate l = false)
  /\ (forall e other clock,
        toPadded (newSession e other s clock) = Array_from s
        /\ targetLen (newSession e other s clock) = length (Array_from s)
        /\ fromPadded (newSession e s other clock)
           = padTo (length (Array_from other)) (Array_from s)).
Proof.
  split; [apply Array_from_concat|]. split; [apply Array_from_code_points|].
  split; [apply Array_from_keeps_pairs|]. intros e other clock. now repeat split.
Qed.

Lemma code_point_grouping_witness :
  Array_from [97; 55357; 56832; 98] = [[97]; [55357; 56832]; [98]]
  /\ concat [[97]; [55357; 56832]; [98]] = [97; 55357; 56832; 98].
Proof.
  split; [reflexivity|].
  exact (proj1 (code_point_grouping [97; 55357; 56832; 98])).
Defined.

(** * Further properties of the code *)

Import Playback.

(** ** The write head *)

Lemma charToShowOf_visible (c : jsstring) : trim c <> [] -> charToShowOf c = c.
Proof.
  intros H. unfold charToShowOf. rewrite bool_decide_eq_false_2; [reflexivity|].
  intros ->. now apply H.
Qed.

(** X1. In a frame, the string pushed for a position is wrapped in the
    highlight span exactly when the position is the reveal count and its
    source character is not white space; the span then holds the source
    character itself, escaped. Every other position gets the bare escaped
    character, so a frame has at most one highlighted position. *)
Theorem write_head (s : session) (k : Z) (i : nat) :
  well_formed s -> (i < targetLen s)%nat ->
  (Z.of_nat i = k /\ trim (sourceAt s i) <> [] ->
     pushed s k (highlightIndexOf s k) i
     = Some (span_open ++ escapeHtml (sourceAt s i) ++ span_close))
  /\ (~ (Z.of_nat i = k /\ trim (sourceAt s i) <> []) ->
        pushed s k (highlightIndexOf s k) i = Some (escapeHtml (shownAt s k i))).
Proof.
  intros Hwf Hi. rewrite (pushed_cellAt s k i Hwf Hi). unfold cellAt. split.
  - intros [Hk Htrim].
    assert (Hh : highlightedAt s k i = true).
    { unfold highlightedAt, highlightIndexOf.
      destruct (Z.ltb_spec (Z.of_nat i) k); [lia|].
      destruct (Z.ltb_spec k (Z.of_nat (targetLen s))); [|lia].
      rewrite (proj2 (Z.eqb_eq _ _) Hk), bool_decide_eq_false_2 by exact Htrim.
      reflexivity. }
    rewrite Hh, (shownAt_highlighted s k i Hh).
    now rewrite charToShowOf_visible.
  - intros Hno. destruct (highlightedAt s k i) eqn:Hh; [|reflexivity].
    exfalso. apply Hno. apply highlightedAt_index in Hh. tauto.
Qed.

Lemma write_head_witness :
  let s := newSession 1%positive (lit "Home") (lit "About us") 0%Q in
  well_formed s /\ (3 < targetLen s)%nat
  /\ pushed s 3 (highlightIndexOf s 3) 3 = Some (span_open ++ lit "e" ++ span_close).
Proof.
  intros s.
  assert (Hwf : well_formed s) by apply newSession_well_formed.
  assert (Hi : (3 < targetLen s)%nat) by (vm_compute; lia).
  split; [exact Hwf|]. split; [exact Hi|].
  apply (proj1 (write_head s 3 3 Hwf Hi)).
  split; [reflexivity|discriminate].
Defined.

(** X2. For a target of fewer than [2^53] characters, as every array
    has: while the elapsed fraction is below 1 the reveal count stays
    below the length of a target that is not empty, whatever the
    rounding of the three operations; for the empty target it is 0; once
    the fraction is 1 it is the length; it never passes the length and
    is not negative from the start time on. So a tick that writes markup
    towards a target that is not empty always leaves at least the last
    character unrevealed. *)
Theorem reveal_count_range (s : session) (now : Q) :
  Z.of_nat (targetLen s) < 2 ^ 53 ->
  (Qle_bool 1 (progressAt s now) = false ->
     (0 < targetLen s)%nat -> revealCountAt s now < Z.of_nat (targetLen s))
  /\ (targetLen s = 0%nat -> revealCountAt s now = 0)
  /\ (Qle_bool 1 (progressAt s now) = true ->
        revealCountAt s now = Z.of_nat (targetLen s))
  /\ ((start s <= now)%Q -> 0 <= revealCountAt s now)
  /\ revealCountAt s now <= Z.of_nat (targetLen s).
Proof.
  intros Hlen. split; [|split; [|split; [|split]]].
  - intros Hp Hn.
    assert (Hlt : (progressAt s now < 1)%Q).
    { apply Qnot_le_lt. intros H. apply Qle_bool_iff in H. congruence. }
    assert (Hb : (progressAt s now <= Binary64.below_one)%Q).
    { unfold progressAt in *. unfold Binary64.div in *.
      set (x := (Binary64.sub now (start s) / I18N_TEXT_SWAP_MS)%Q) in *.
      destruct (Q.min_spec (Binary64.round x) 1) as [[H E]|[H E]].
      - rewrite E. apply round_lt_one. exact H.
      - rewrite E in Hlt. now apply Qlt_irrefl in Hlt. }
    unfold revealCountAt, Binary64.mul. rewrite Zlt_Qlt.
    eapply Qle_lt_trans; [apply Qfloor_le|].
    apply round_fraction_lt; [lia|exact Hb].
  - intros Hn. unfold revealCountAt, Binary64.mul. rewrite Hn.
    assert (E : (progressAt s now * inject_Z (Z.of_nat 0) == 0)%Q)
      by (change (inject_Z (Z.of_nat 0)) with 0%Q; ring).
    rewrite (Qfloor_comp _ _ (round_proper _ _ E)). reflexivity.
  - intros Hp. apply Qle_bool_iff in Hp.
    assert (He : (progressAt s now == 1)%Q).
    { apply Qle_antisym; [apply progressAt_le_1|exact Hp]. }
    unfold revealCountAt, Binary64.mul.
    assert (E : (progressAt s now * inject_Z (Z.of_nat (targetLen s))
                 == inject_Z (Z.of_nat (targetLen s)))%Q)
      by (rewrite He; ring).
    rewrite (Qfloor_comp _ _ (round_proper _ _ E)).
    rewrite (Qfloor_comp _ _ (round_Z (Z.of_nat (targetLen s)) ltac:(lia))).
    apply Qfloor_Z.
  - intros Hs. unfold revealCountAt, Binary64.mul.
    rewrite <- (Qfloor_Z 0). apply Qfloor_resp_le. apply round_nonneg.
    apply Qmult_le_0_compat; [|apply targetLen_nonneg].
    unfold progressAt. apply Q.min_glb; [|discriminate].
    unfold Binary64.div, Binary64.sub. apply round_nonneg.
    apply Qle_shift_div_l; [reflexivity|]. rewrite Qmult_0_l.
    apply round_nonneg. lra.
  - apply revealCountAt_le. lia.
Qed.

Lemma reveal_count_range_witness :
  let s := newSession 1%positive (lit "Home") (lit "About us") 0%Q in
  Z.of_nat (targetLen s) < 2 ^ 53 /\ (0 < targetLen s)%nat
  /\ Qle_bool 1 (progressAt s 999%Q) = false
  /\ revealCountAt s 999%Q < Z.of_nat (targetLen s).
Proof.
  intros s.
  assert (Hl : Z.of_nat (targetLen s) < 2 ^ 53) by (vm_compute; reflexivity).
  assert (Hn : (0 < targetLen s)%nat) by (vm_compute; lia).
  assert (Hp : Qle_bool 1 (progressAt s 999%Q) = false) by (vm_compute; reflexivity).
  split; [exact Hl|]. split; [exact Hn|]. split; [exact Hp|].
  exact (proj1 (reveal_count_range s 999%Q Hl) Hp Hn).
Defined.

(** ** A session from its start to its end *)

Lemma tickElement_idle (e : element) (now : Q) (st : state) :
  textAnimationRafs st !! e = None -> tickElement e now st = st.
Proof. intros H. unfold tickElement. now rewrite H. Qed.

Lemma tickElement_armed (e : element) (s : session) (h : handle) (now : Q)
    (st : state) :
  well_formed s -> el s = e -> consistent st ->
  textAnimationRafs st !! e = Some h -> frameCallbacks st !! h = Some (Step s) ->
  let st' := tickElement e now st in
  consistent st'
  /\ (Qle_bool 1 (progressAt s now) = true ->
        contentOf st' e = TextContent (nextText s)
        /\ textAnimationRafs st' !! e = None /\ idle e st')
  /\ (Qle_bool 1 (progressAt s now) = false ->
        textAnimationRafs st' !! e = Some (nextHandle st)
        /\ frameCallbacks st' !! nextHandle st = Some (Step s)).
Proof.
  intros Hwf He Hc Hr Hh st'. subst st'. unfold tickElement. rewrite Hr.
  assert (Hc' : consistent (runFrameCallback h now st)).
  { apply (perform_keeps fragmentParser (Frame h now) st Hc). }
  split; [exact Hc'|].
  pose proof (idle_take h s st (proj1 Hc) Hh) as Hidle. rewrite He in Hidle.
  unfold runFrameCallback in *. rewrite Hh in *. rewrite step_unfold in * by exact Hwf.
  rewrite He in *. split.
  - intros Hp. rewrite Hp in *. split; [|split].
    + unfold contentOf. cbn. now rewrite lookup_insert_eq.
    + cbn. apply lookup_delete_eq.
    + exact Hidle.
  - intros Hp. rewrite Hp in *. cbn. now rewrite !lookup_insert_eq.
Qed.

Lemma tickElementAll_snoc (e : element) (times : list Q) (final : Q) (st : state) :
  tickElementAll e (times ++ [final]) st
  = tickElement e final (tickElementAll e times st).
Proof. unfold tickElementAll. now rewrite fold_left_app. Qed.

(** X3. A session, once started on a plain-text element, runs to its end
    whatever the frames in between: after any ticks of the element and
    then one at or after [start + 1000], the element holds exactly the
    new string as plain text, its entry in the table is gone and no
    callback of the session is left; further ticks change nothing. *)
Theorem session_runs_to_completion (P : parser) (e : element) (b : jsstring)
    (clock : Q) (st0 : state) (times later : list Q) (final : Q) :
  consistent st0 ->
  textContent P (contentOf st0 e) <> b ->
  childElementCount P (contentOf st0 e) = 0%nat ->
  (clock + 1000 <= final)%Q ->
  let st1 := animateTextScramble P (Some e) b clock st0 in
  let st' := tickElementAll e (times ++ [final]) st1 in
  contentOf st' e = TextContent b
  /\ textAnimationRafs st' !! e = None
  /\ idle e st'
  /\ tickElementAll e later st' = st'.
Proof.
  intros Hc Hne Hplain Hfinal st1.
  set (s := newSession e (textContent P (contentOf st0 e)) b clock).
  assert (Hwf : well_formed s) by apply newSession_well_formed.
  pose (armed := fun st : state =>
    consistent st /\ exists h, textAnimationRafs st !! e = Some h
                               /\ frameCallbacks st !! h = Some (Step s)).
  pose (done := fun st : state =>
    contentOf st e = TextContent b /\ textAnimationRafs st !! e = None /\ idle e st).
  assert (Hstart : armed st1).
  { split; [now apply animate_keeps|]. subst st1.
    rewrite animate_plain by trivial. cbn.
    exists (nextHandle (cancelPrevious e st0)). now rewrite !lookup_insert_eq. }
  assert (Hstep : forall now st, armed st \/ done st ->
            (armed (tickElement e now st) \/ done (tickElement e now st))
            /\ ((clock + 1000 <= now)%Q -> done (tickElement e now st))).
  { intros now st [[Hcs (h & Hr & Hh)]|Hd].
    - destruct (tickElement_armed e s h now st Hwf eq_refl Hcs Hr Hh)
        as (Hc' & Hdone & Hgo).
      destruct (Qle_bool 1 (progressAt s now)) eqn:Hp.
      + split; [right|intros _]; exact (Hdone eq_refl).
      + split.
        * left. split; [exact Hc'|]. exists (nextHandle st). exact (Hgo eq_refl).
        * intros Hnow. rewrite (progressAt_done s now Hnow) in Hp. discriminate Hp.
    - destruct Hd as (Hd1 & Hd2 & Hd3).
      rewrite (tickElement_idle e now st Hd2). split; [right|intros _]; now repeat split. }
  assert (Hall : forall ts st, armed st \/ done st ->
            armed (tickElementAll e ts st) \/ done (tickElementAll e ts st)).
  { induction ts as [|t ts IH]; intros st Hst; [exact Hst|].
    cbn [tickElementAll fold_left]. apply IH. now apply Hstep. }
  assert (Hstay : forall ts st, done st -> tickElementAll e ts st = st).
  { induction ts as [|t ts IH]; intros st Hd; [reflexivity|].
    cbn [tickElementAll fold_left].
    rewrite (tickElement_idle e t st (proj1 (proj2 Hd))). now apply IH. }
  intros st'. subst st'. rewrite tickElementAll_snoc.
  assert (Hd : done (tickElement e final (tickElementAll e times st1))).
  { apply (Hstep final); [|exact Hfinal]. apply Hall. now left. }
  split; [apply Hd|]. split; [apply Hd|]. split; [apply Hd|]. now apply Hstay.
Qed.

Lemma session_runs_to_completion_witness :
  let st0 := freshPage {[ 1%positive := TextContent (lit "Home") ]} in
  let st' := tickElementAll 1%positive ([16; 500; 983] ++ [1001])%Q
               (animateTextScramble fragmentParser (Some 1%positive) (lit "About us")
                  0%Q st0) in
  consistent st0 /\ (0 + 1000 <= 1001)%Q
  /\ contentOf st' 1%positive = TextContent (lit "About us").
Proof.
  intros st0 st'.
  assert (Hc : consistent st0) by apply freshPage_consistent.
  assert (Hf : (0 + 1000 <= 1001)%Q) by (unfold Qle; cbn; lia).
  split; [exact Hc|]. split; [exact Hf|].
  refine (proj1 (session_runs_to_completion fragmentParser 1%positive (lit "About us")
                   0%Q st0 [16; 500; 983]%Q [] 1001%Q Hc _ _ Hf)).
  - vm_compute. discriminate.
  - reflexivity.
Defined.

(** ** Escaping twice *)









(** ** A call that arrives in the middle of a session *)

(** X5. A frame's markup has one child element, the highlight span, when
    the write head stands on a source character other than white space,
    and none otherwise. So a call that arrives after such a frame, with a
    string other than the text shown, does not animate: it writes the new
    string as plain text at once, asks for no frame and leaves no session
    for the element. *)
Theorem interrupted_session_snaps (e : element) (a b next : jsstring)
    (clock now clock' : Q) (h : handle) (st : state) :
  let s := newSession e a b clock in
  let k := revealCountAt s now in
  let st1 := runFrameCallback h now st in
  let st2 := animateTextScramble fragmentParser (Some e) next clock' st1 in
  consistent st -> frameCallbacks st !! h = Some (Step s) ->
  Qle_bool 1 (progressAt s now) = false ->
  childElementCount fragmentParser (contentOf st1 e)
  = (if highlightedAt s k (Z.to_nat k) then 1 else 0)%nat
  /\ (0 <= k -> trim (sourceAt s (Z.to_nat k)) <> [] ->
      textContent fragmentParser (contentOf st1 e) <> next ->
      contentOf st2 e = TextContent next
      /\ idle e st2
      /\ nextHandle st2 = nextHandle st1).
Proof.
  intros s k st1 st2 Hc Hh Hp.
  assert (Hwf : well_formed s) by apply newSession_well_formed.
  assert (Hcontent : contentOf st1 e = InnerHTML (frameMarkup s k)).
  { subst st1. pose proof (tick_content h s now st Hwf Hh) as H.
    rewrite Hp in H. exact H. }
  assert (Hcount : childElementCount fragmentParser (contentOf st1 e)
                   = (if highlightedAt s k (Z.to_nat k) then 1 else 0)%nat).
  { rewrite Hcontent. cbn [childElementCount parsedChildren fragmentParser].
    destruct (frameMarkup_shape s k (newSession_sources e a b clock))
      as [[-> Hnone]|(p & c & q & -> & _ & _ & Hl)].
    - rewrite fragmentChildren_plain.
      destruct (highlightedAt s k (Z.to_nat k)) eqn:E; [|reflexivity].
      pose proof (highlightedAt_index _ _ _ E) as (_ & Hi & _).
      rewrite (Hnone _ Hi) in E. discriminate E.
    - now rewrite fragmentChildren_span, Hl. }
  split; [exact Hcount|].
  intros Hk Htrim Hne.
  assert (Hin : (Z.to_nat k < targetLen s)%nat).
  { destruct (lookup_lt_is_Some (fromPadded s) (Z.to_nat k)) as [Hlt _].
    rewrite <- (proj1 Hwf). apply Hlt. unfold sourceAt in Htrim.
    destruct (fromPadded s !! Z.to_nat k); [eauto|now contradiction Htrim]. }
  assert (Hl : highlightedAt s k (Z.to_nat k) = true).
  { unfold highlightedAt, highlightIndexOf.
    rewrite Z2Nat.id by exact Hk. rewrite Z.ltb_irrefl.
    destruct (Z.ltb_spec k (Z.of_nat (targetLen s))); [|lia].
    rewrite Z.eqb_refl, bool_decide_eq_false_2 by exact Htrim. reflexivity. }
  rewrite Hl in Hcount.
  assert (Hc1 : consistent st1).
  { subst st1. apply (perform_keeps fragmentParser (Frame h now) st Hc). }
  subst st2. rewrite animate_nested by (trivial; rewrite Hcount; lia).
  split; [apply contentOf_setContent|].
  split; [apply idle_setContent, idle_cancelPrevious, Hc1|].
  apply nextHandle_cancelPrevious.
Qed.

Lemma interrupted_session_snaps_witness :
  let st := animateTextScramble fragmentParser (Some 1%positive) (lit "About us") 0%Q
              (freshPage {[ 1%positive := TextContent (lit "Home") ]}) in
  let st1 := runFrameCallback 1%positive 250%Q st in
  consistent st
  /\ childElementCount fragmentParser (contentOf st1 1%positive) = 1%nat
  /\ contentOf (animateTextScramble fragmentParser (Some 1%positive) (lit "Home") 300%Q st1)
       1%positive = TextContent (lit "Home").
Proof.
  intros st st1.
  assert (Hc : consistent st).
  { apply animate_keeps, freshPage_consistent. }
  destruct (interrupted_session_snaps 1%positive (lit "Home") (lit "About us") (lit "Home")
              0%Q 250%Q 300%Q 1%positive st Hc eq_refl eq_refl) as [Hcount Hsnap].
  split; [exact Hc|]. split; [exact Hcount|].
  apply Hsnap.
  - vm_compute. discriminate.
  - vm_compute. discriminate.
  - vm_compute. discriminate.
Defined.

(** ** Translations *)

Section TranslationFacts.
Import Translations.
Context {number : Type} {engine : Engine number}.

Lemma split_on_not_nil sep s : split_on sep s <> [].
Proof.
  destruct s as [|c s]; cbn; [discriminate|].
  destruct (c =? sep); [discriminate|]. now destruct (split_on sep s).
Qed.

Lemma split_on_app sep p q :
  split_on sep (p ++ sep :: q) = split_on sep p ++ split_on sep q.
Proof.
  induction p as [|c p IH]; cbn [app split_on].
  - now rewrite Z.eqb_refl.
  - rewrite IH. destruct (c =? sep); [reflexivity|].
    pose proof (split_on_not_nil sep p) as Hne.
    now destruct (split_on sep p).
Qed.

Lemma split_on_plain sep s : ~ In sep s -> split_on sep s = [s].
Proof.
  induction s as [|c s IH]; intros H; [reflexivity|]. cbn [split_on].
  destruct (Z.eqb_spec c sep) as [->|Hc]; [exfalso; apply H; now left|].
  rewrite IH; [reflexivity|]. intros Hin. apply H. now right.
Qed.

Lemma walk_nullish keys : forall v,
  nullish v = true -> keys <> [] -> fold_left step_key keys v = Undefined.
Proof.
  induction keys as [|key keys IH]; intros v Hv Hk; [contradiction|].
  cbn [fold_left]. replace (step_key v key) with (@Undefined number)
    by (unfold step_key; now rewrite Hv).
  destruct keys as [|key' keys]; [reflexivity|]. now apply IH.
Qed.

Lemma nullish_falsy v : nullish v = true -> falsy v = true.
Proof. now destruct v. Qed.

Lemma walk_from (v : value number) (q : jsstring) :
  q <> [] -> nullish v = true \/ falsy v = false ->
  fold_left step_key (split_on DOT q) v = getByPath v q.
Proof.
  intros Hq [Hn|Ht]; unfold getByPath.
  - rewrite (nullish_falsy v Hn). cbn [orb].
    apply walk_nullish; [exact Hn|apply split_on_not_nil].
  - rewrite Ht. now rewrite bool_decide_eq_false_2.
Qed.

(** X6. Paths compose, for a truthy object and a path [p] that is not
    empty: looking up [p.q] is walking the keys of [q] from what [p]
    leads to. When [q] is not empty and [p] leads to null, undefined or
    a truthy value, that is looking up [q] in that value; when [p] leads
    to null or undefined, the longer path gives [undefined] whatever [q]
    is. The provisos matter: an empty [q] looks up the empty key, which
    an object may have, while [getByPath] answers [undefined] to the
    empty path; and a falsy value such as the empty string is walked
    into, while [getByPath] started on it answers [undefined]. *)
Theorem getByPath_compose (obj : value number) (p q : jsstring) :
  falsy obj = false -> p <> [] ->
  let v := getByPath obj p in
  getByPath obj (p ++ DOT :: q) = fold_left step_key (split_on DOT q) v
  /\ (q <> [] -> nullish v = true \/ falsy v = false ->
      getByPath obj (p ++ DOT :: q) = getByPath v q)
  /\ (nullish v = true -> getByPath obj (p ++ DOT :: q) = Undefined)
  /\ (q = [] -> getByPath obj (p ++ DOT :: q) = step_key v []
                /\ getByPath v q = Undefined).
Proof.
  intros Hobj Hp v.
  assert (Hwalk : getByPath obj (p ++ DOT :: q)
                  = fold_left step_key (split_on DOT q) v).
  { subst v. unfold getByPath. rewrite Hobj.
    rewrite bool_decide_eq_false_2 by now destruct p.
    rewrite (bool_decide_eq_false_2 _ Hp). cbn [orb].
    now rewrite split_on_app, fold_left_app. }
  split; [exact Hwalk|]. split; [|split].
  - intros Hq Hv. rewrite Hwalk. now apply walk_from.
  - intros Hn. rewrite Hwalk. apply walk_nullish; [exact Hn|apply split_on_not_nil].
  - intros ->. split; [exact Hwalk|].
    unfold getByPath. rewrite bool_decide_eq_true_2 by reflexivity.
    now rewrite orb_true_r.
Qed.

(** X7. For a key that is not empty and has no dot: an own property of
    an object is found under its key, and a key the object does not have
    is looked up on the prototype and nowhere else. Under a longer path
    [key.q] the keys of [q] are walked from the property's value; when
    [q] is not empty and the value is null, undefined or truthy, that is
    what [getByPath] finds for [q] in the value. (A falsy value such as
    the empty string is walked into as well, whereas [getByPath] started
    on it answers [undefined].) *)
Theorem getByPath_own (fields : list (jsstring * value number)) (key : jsstring) :
  key <> [] -> ~ In DOT key ->
  (forall v, own fields key = Some v ->
     getByPath (Obj fields) key = v
     /\ (forall q, getByPath (Obj fields) (key ++ DOT :: q)
                   = fold_left step_key (split_on DOT q) v)
     /\ (forall q, q <> [] -> nullish v = true \/ falsy v = false ->
           getByPath (Obj fields) (key ++ DOT :: q) = getByPath v q))
  /\ (own fields key = None ->
        getByPath (Obj fields) key = inherited (Obj fields) key).
Proof.
  intros Hk Hdot.
  assert (Hone : getByPath (Obj fields) key
                 = default (inherited (Obj fields) key) (own fields key)).
  { unfold getByPath. cbn [falsy orb].
    rewrite bool_decide_eq_false_2 by exact Hk.
    now rewrite (split_on_plain DOT key Hdot). }
  assert (Hlong : forall q,
            getByPath (Obj fields) (key ++ DOT :: q)
            = fold_left step_key (split_on DOT q)
                (default (inherited (Obj fields) key) (own fields key))).
  { intros q. unfold getByPath. cbn [falsy orb].
    rewrite bool_decide_eq_false_2 by now destruct key.
    rewrite split_on_app, (split_on_plain DOT key Hdot). reflexivity. }
  split.
  - intros v Hv. rewrite Hone, Hv. split; [reflexivity|]. split.
    + intros q. now rewrite Hlong, Hv.
    + intros q Hq Hvq. rewrite Hlong, Hv. now apply walk_from.
  - intros Hnone. now rewrite Hone, Hnone.
Qed.

Lemma number_of_digits_zeros z key :
  number_of_digits (replicate z 48 ++ key) = number_of_digits key.
Proof.
  unfold number_of_digits. rewrite fold_left_app.
  replace (fold_left (fun acc c => 10 * acc + (c - 48)) (replicate z 48) 0) with 0;
    [reflexivity|].
  induction z as [|z IH]; [reflexivity|exact IH].
Qed.

Lemma all_digits_no_dot key : all_digits key = true -> key <> [] /\ ~ In DOT key.
Proof.
  unfold all_digits. intros H. apply andb_true_iff in H as [Hne Hd].
  apply negb_true_iff, bool_decide_eq_false in Hne. split; [exact Hne|].
  intros Hin. rewrite forallb_forall in Hd. specialize (Hd _ Hin). discriminate Hd.
Qed.

(** X8. A key made of decimal digits indexes an array by its numeric
    value, leading zeros included: past the end the outcome is
    [undefined], and zeros put in front of the key change nothing. *)
Theorem getByPath_index (items : list (value number)) (key : jsstring) (z : nat) :
  all_digits key = true ->
  getByPath (Arr items) key
  = default Undefined (items !! Z.to_nat (number_of_digits key))
  /\ getByPath (Arr items) (replicate z 48 ++ key) = getByPath (Arr items) key
  /\ ((length items <= Z.to_nat (number_of_digits key))%nat ->
      getByPath (Arr items) key = Undefined).
Proof.
  intros Hd.
  assert (Hread : forall k, all_digits k = true ->
            getByPath (Arr items) k
            = default Undefined (items !! Z.to_nat (number_of_digits k))).
  { intros k Hk. destruct (all_digits_no_dot k Hk) as [Hne Hdot].
    unfold getByPath. cbn [falsy orb].
    rewrite bool_decide_eq_false_2 by exact Hne.
    rewrite (split_on_plain DOT k Hdot). cbn [fold_left].
    unfold step_key. cbn [nullish]. now rewrite Hk. }
  assert (Hz : all_digits (replicate z 48 ++ key) = true).
  { unfold all_digits in *. apply andb_true_iff in Hd as [Hne Hall].
    apply andb_true_iff. split.
    - apply negb_true_iff, bool_decide_eq_false. intros H.
      apply app_eq_nil in H as [_ ->]. discriminate Hne.
    - rewrite forallb_app, Hall, andb_true_r.
      clear. induction z as [|z IH]; [reflexivity|exact IH]. }
  split; [now apply Hread|]. split.
  - rewrite (Hread _ Hz), (Hread _ Hd). now rewrite number_of_digits_zeros.
  - intros Hlen. rewrite (Hread _ Hd). now rewrite lookup_ge_None_2.
Qed.

(** [t] gives the fallback exactly when the path leads to null or
    undefined. *)
Lemma t_fallback (translations : value number) (path : jsstring)
    (fallback : value number) :
  (nullish (getByPath translations path) = true ->
     t translations path fallback = fallback)
  /\ (nullish (getByPath translations path) = false ->
        t translations path fallback = getByPath translations path)
  /\ (falsy translations = true -> t translations path fallback = fallback)
  /\ (nullish (t translations path fallback) = true -> nullish fallback = true).
Proof.
  unfold t. split; [|split; [|split]].
  - now intros ->.
  - now intros ->.
  - intros Hf. unfold getByPath. now rewrite Hf.
  - destruct (nullish (getByPath translations path)) eqn:E; [trivial|congruence].
Qed.

Variable P : parser.

(** X9. What the page does with an element whose key is missing from
    the translations, or leads to null: the fallback is the empty string,
    so the element is emptied (at once without animation, by a session
    towards the empty string with it). A key that leads to an object, an
    array, a number or a boolean leaves the page untouched. *)
Theorem translateElement_missing (translations : value number) (e : element)
    (key : jsstring) (clock : Q) (st : state) :
  (nullish (getByPath translations key) = true ->
     translateElement P translations false e key clock st
     = setContent e (TextContent []) st
     /\ translateElement P translations true e key clock st
        = animateTextScramble P (Some e) [] clock st)
  /\ (forall s, getByPath translations key = Str s ->
        translateElement P translations false e key clock st
        = setContent e (TextContent s) st)
  /\ (nullish (getByPath translations key) = false ->
      (forall s, getByPath translations key <> Str s) ->
      forall animateText,
        translateElement P translations animateText e key
          clock st = st).
Proof.
  unfold translateElement, t. split; [|split].
  - intros ->. now split.
  - intros s ->. reflexivity.
  - intros Hn Hs animateText. rewrite Hn.
    destruct (getByPath translations key) eqn:E; try reflexivity.
    now destruct (Hs s).
Qed.

End TranslationFacts.

Lemma getByPath_compose_witness :
  let nav := Translations.Obj [(lit "home", Translations.Str (lit "Home")); (lit "about", Translations.Str (lit "About us"))] in
  let tr := Translations.Obj [(lit "nav", nav)] in
  @Translations.falsy Z Translations.bareEngine tr = false
  /\ @Translations.getByPath Z Translations.bareEngine tr (lit "nav" ++ Translations.DOT :: lit "about")
     = Translations.Str (lit "About us").
Proof.
  intros nav tr.
  assert (Hf : @Translations.falsy Z Translations.bareEngine tr = false) by reflexivity.
  split; [exact Hf|].
  refine (eq_trans (proj1 (proj2 (@getByPath_compose Z Translations.bareEngine tr
                                    (lit "nav") (lit "about") Hf _)) _ _) _).
  - discriminate.
  - discriminate.
  - right. reflexivity.
  - reflexivity.
Defined.

Lemma getByPath_own_witness :
  let fields := [(lit "title", @Translations.Str Z (lit "Portfolio"))] in
  lit "title" <> [] /\ ~ In Translations.DOT (lit "title")
  /\ @Translations.getByPath Z Translations.bareEngine (Translations.Obj fields) (lit "title")
     = Translations.Str (lit "Portfolio").
Proof.
  intros fields.
  assert (Hk : lit "title" <> []) by discriminate.
  assert (Hd : ~ In Translations.DOT (lit "title")).
  { vm_compute. intros H. repeat (destruct H as [H|H]; [discriminate H|]). exact H. }
  split; [exact Hk|]. split; [exact Hd|].
  exact (proj1 (proj1 (@getByPath_own Z Translations.bareEngine fields (lit "title") Hk Hd)
                  _ eq_refl)).
Defined.

Lemma getByPath_index_witness :
  let items := [@Translations.Str Z (lit "zero"); Translations.Str (lit "one"); Translations.Str (lit "two")] in
  Translations.all_digits (lit "2") = true
  /\ @Translations.getByPath Z Translations.bareEngine (Translations.Arr items) (lit "002") = Translations.Str (lit "two").
Proof.
  intros items.
  assert (Hd : Translations.all_digits (lit "2") = true) by reflexivity.
  split; [exact Hd|].
  destruct (@getByPath_index Z Translations.bareEngine items (lit "2") 2 Hd)
    as (Hread & Hzeros & _).
  exact (eq_trans Hzeros Hread).
Defined.

(** ** Projects *)

Section ProjectFacts.
Import Projects.

Lemma setOf_In (l : list jsstring) (x : jsstring) : In x (setOf l) <-> In x l.
Proof.
  induction l as [|y l IH]; [reflexivity|]. cbn [setOf In].
  rewrite filter_In, IH. split.
  - intros [->|[Hin _]]; [now left|now right].
  - intros [->|Hin]; [now left|].
    destruct (decide (x = y)) as [->|Hne]; [now left|right].
    split; [exact Hin|]. now rewrite bool_decide_eq_false_2.
Qed.

Lemma NoDup_filter_bool {A} (f : A -> bool) (l : list A) :
  List.NoDup l -> List.NoDup (List.filter f l).
Proof.
  induction 1 as [|x l Hx Hl IH]; cbn; [constructor|].
  destruct (f x); [|exact IH]. constructor; [|exact IH].
  rewrite filter_In. tauto.
Qed.

Lemma setOf_NoDup (l : list jsstring) : List.NoDup (setOf l).
Proof.
  induction l as [|y l IH]; cbn [setOf]; constructor.
  - rewrite filter_In. intros [_ H]. now rewrite bool_decide_eq_true_2 in H.
  - now apply NoDup_filter_bool.
Qed.

Lemma insertSorted_perm cmp x l : Permutation (insertSorted cmp x l) (x :: l).
Proof.
  induction l as [|y l IH]; cbn [insertSorted]; [reflexivity|].
  destruct (cmp x y <? 0); [reflexivity|].
  rewrite IH. apply perm_swap.
Qed.

Lemma sortWith_perm cmp l : Permutation (sortWith cmp l) l.
Proof.
  unfold sortWith.
  assert (H : forall acc, Permutation (fold_left (fun s x => insertSorted cmp x s) l acc)
                            (acc ++ l)).
  { induction l as [|x l IH]; intros acc; cbn [fold_left].
    - now rewrite app_nil_r.
    - rewrite IH, insertSorted_perm. now rewrite <- Permutation_middle. }
  exact (H []).
Qed.

Lemma uniqueTags_spec localeCompare lang projects :
  List.NoDup (uniqueTags localeCompare lang projects)
  /\ forall tag, In tag (uniqueTags localeCompare lang projects)
                 <-> exists p, In p projects /\ In tag (tags p).
Proof.
  unfold uniqueTags. split.
  - eapply Permutation_NoDup; [symmetry; apply sortWith_perm|apply setOf_NoDup].
  - intros tag. rewrite (Permutation_in' eq_refl (sortWith_perm _ _)).
    rewrite setOf_In, in_flat_map. reflexivity.
Qed.

Lemma count_active (stateTag : jsstring) (l : list jsstring) :
  List.NoDup l ->
  length (List.filter active (List.map (fun t => createTagButton stateTag t t) l))
  = if bool_decide (stateTag ∈ l) then 1%nat else 0%nat.
Proof.
  induction 1 as [|x l Hx Hl IH]; [reflexivity|].
  cbn [List.map List.filter active createTagButton].
  destruct (decide (x = stateTag)) as [->|Hne].
  - rewrite bool_decide_eq_true_2 by reflexivity. cbn [length]. rewrite IH.
    rewrite (bool_decide_eq_false_2 (stateTag ∈ l)) by now rewrite list_elem_of_In.
    now rewrite bool_decide_eq_true_2 by left.
  - rewrite bool_decide_eq_false_2 by exact Hne. rewrite IH.
    destruct (decide (stateTag ∈ l)) as [Hin|Hnin].
    + rewrite bool_decide_eq_true_2 by exact Hin.
      now rewrite bool_decide_eq_true_2 by now right.
    + rewrite bool_decide_eq_false_2 by exact Hnin.
      rewrite bool_decide_eq_false_2; [reflexivity|].
      intros H. apply elem_of_cons in H as [H|H]; [congruence|contradiction].
Qed.

(** X10. The tag list holds the button [all] followed by one button for
    each tag that some project carries, each such tag once, whatever the
    collation. The button [all] is marked active when the state's tag is
    [all], and a tag's button when the state's tag is that tag: so two
    buttons are active at once only if a project carries a tag spelled
    [all], and none is when the state's tag is no longer a tag of any
    project. *)
Theorem tag_buttons_cover (localeCompare : jsstring -> jsstring -> jsstring -> Z)
    (lang allLabel stateTag : jsstring) (projects : list project) :
  let buttons := renderTagButtons localeCompare lang allLabel stateTag projects in
  let carried := fun tag => exists p, In p projects /\ In tag (tags p) in
  (exists rest, List.map dataTag buttons = lit "all" :: rest
     /\ List.NoDup rest /\ forall tag, In tag rest <-> carried tag)
  /\ length (List.filter active buttons)
     = ((if bool_decide (stateTag = lit "all") then 1 else 0)
        + (if bool_decide (stateTag ∈ uniqueTags localeCompare lang projects)
           then 1 else 0))%nat
  /\ (In stateTag (uniqueTags localeCompare lang projects) <-> carried stateTag).
Proof.
  intros buttons carried.
  destruct (uniqueTags_spec localeCompare lang projects) as [Hnd Hin].
  split; [|split].
  - exists (uniqueTags localeCompare lang projects). split; [|split; assumption].
    subst buttons. unfold renderTagButtons. cbn [List.map dataTag createTagButton].
    f_equal. rewrite List.map_map. cbn. apply map_id.
  - subst buttons. unfold renderTagButtons. cbn [List.filter active createTagButton].
    rewrite <- (count_active stateTag _ Hnd).
    destruct (decide (lit "all" = stateTag)) as [<-|Hne].
    + now rewrite !bool_decide_eq_true_2 by reflexivity.
    + rewrite bool_decide_eq_false_2 by exact Hne.
      rewrite bool_decide_eq_false_2 by congruence. reflexivity.
  - apply Hin.
Qed.

Lemma defaultProjects_not_nil : defaultProjects <> [].
Proof. discriminate. Qed.

Lemma getProjectsData_not_nil translated : getProjectsData translated <> [].
Proof.
  unfold getProjectsData. destruct translated as [[|p items]|]; cbn;
    try apply defaultProjects_not_nil. discriminate.
Qed.

(** X11. The project data are never empty: a translated list is used
    when it has an element, the built-in five otherwise. Hence choosing
    any button of the tag list never leads to the nothing-found card: the
    grid gets one project card per project carrying the tag, in the order
    of the data, and one per project for [all]; every card bears its
    project's id. *)
Theorem tag_button_never_empty (localeCompare : jsstring -> jsstring -> jsstring -> Z)
    (lang allLabel stateTag : jsstring) (l : labels)
    (translated : option (list project)) (button : tagButton) :
  let projects := getProjectsData translated in
  In button (renderTagButtons localeCompare lang allLabel stateTag projects) ->
  let shown := List.filter (matchesTag (dataTag button)) projects in
  shown <> []
  /\ cards (renderProjects l (dataTag button) projects)
     = List.map (fun p => {| className := lit "card project-card";
                             projectId := Some (id p);
                             innerHTML := cardMarkup l p |}) shown
  /\ (dataTag button = lit "all" -> shown = projects)
  /\ (forall p, In p shown <->
        In p projects /\ (dataTag button = lit "all" \/ In (dataTag button) (tags p))).
Proof.
  intros projects Hb shown.
  assert (Hmatch : forall p, matchesTag (dataTag button) p = true
                     <-> dataTag button = lit "all" \/ In (dataTag button) (tags p)).
  { intros p. unfold matchesTag. rewrite orb_true_iff, !bool_decide_eq_true.
    now rewrite list_elem_of_In. }
  assert (Hshown : forall p, In p shown <->
            In p projects /\ (dataTag button = lit "all" \/ In (dataTag button) (tags p))).
  { intros p. subst shown. now rewrite filter_In, Hmatch. }
  assert (Hne : shown <> []).
  { unfold renderTagButtons in Hb. destruct Hb as [<-|Hb].
    - cbn [dataTag createTagButton] in *.
      pose proof (getProjectsData_not_nil translated) as Hp. fold projects in Hp.
      destruct projects as [|p ps] eqn:E; [contradiction|].
      intros Hnil. assert (Hin : In p shown) by (apply Hshown; split; [now left|now left]).
      rewrite Hnil in Hin. exact Hin.
    - apply in_map_iff in Hb as (tag & <- & Htag). cbn [dataTag createTagButton] in *.
      apply (proj2 (uniqueTags_spec localeCompare lang projects)) in Htag
        as (p & Hp & Hpt).
      intros Hnil. assert (Hin : In p shown) by (apply Hshown; split; [exact Hp|now right]).
      rewrite Hnil in Hin. exact Hin. }
  split; [exact Hne|]. split; [|split; [|exact Hshown]].
  - unfold renderProjects. cbn [cards]. fold shown.
    destruct shown; [contradiction|reflexivity].
  - intros Hall. subst shown. apply forallb_filter_id. apply forallb_forall.
    intros p _. apply Hmatch. now left.
Qed.

(** *** Cards *)

Lemma delimiters_escapeHtml (s : jsstring) :
  List.filter is_delimiter (escapeHtml s) = [].
Proof.
  induction s as [|c s IH]; [reflexivity|].
  rewrite escapeHtml_cons, List.filter_app, IH, app_nil_r.
  destruct (escapeUnit_view c) as [->| -> | -> | -> | -> |Ha Hl Hg Hq Hp];
    try reflexivity.
  cbn. unfold is_delimiter.
  destruct (Z.eqb_spec c LT); [contradiction|].
  destruct (Z.eqb_spec c GT); [contradiction|].
  destruct (Z.eqb_spec c QUOT); [contradiction|].
  destruct (Z.eqb_spec c APOS); [contradiction|]. reflexivity.
Qed.

Lemma delimiters_tagSpans (ts : list jsstring) :
  List.filter is_delimiter (join (List.map tagSpan ts))
  = concat (replicate (length ts) (List.filter is_delimiter (tag_open ++ tag_close))).
Proof.
  unfold join. induction ts as [|x ts IH]; [reflexivity|].
  cbn [List.map concat length replicate]. rewrite List.filter_app, IH.
  unfold tagSpan. rewrite !List.filter_app, delimiters_escapeHtml.
  reflexivity.
Qed.

(** X12. No text of a project and no label can add or remove a
    character that opens or closes a tag or an attribute value: two cards
    whose projects have the same number of tags have the same sequence of
    [<], [>], quotes and apostrophes, and the nothing-found card always
    has the same one. *)
Theorem card_delimiters (l l' : labels) (p p' : project) :
  (length (tags p) = length (tags p') ->
     List.filter is_delimiter (cardMarkup l p)
     = List.filter is_delimiter (cardMarkup l' p'))
  /\ List.filter is_delimiter (emptyMarkup l)
     = List.filter is_delimiter (emptyMarkup l')
  /\ List.filter is_delimiter (emptyMarkup l) = lit "<><><><>".
Proof.
  split; [|split].
  - intros Hlen. unfold cardMarkup, escapeHtmlAttr.
    rewrite !List.filter_app, !delimiters_escapeHtml, !delimiters_tagSpans, Hlen.
    reflexivity.
  - unfold emptyMarkup. rewrite !List.filter_app, !delimiters_escapeHtml.
    reflexivity.
  - unfold emptyMarkup. rewrite !List.filter_app, !delimiters_escapeHtml.
    reflexivity.
Qed.

Lemma fragmentText_in_tag (s rest : jsstring) :
  fragmentTextFrom Tag (escapeHtml s ++ rest) = fragmentTextFrom Tag rest.
Proof.
  induction s as [|c s IH]; [reflexivity|].
  rewrite escapeHtml_cons, <- app_assoc.
  destruct (escapeUnit_view c) as [->| -> | -> | -> | -> |Ha Hl Hg Hq Hp];
    try exact IH.
  cbn [app fragmentTextFrom].
  destruct (Z.eqb_spec c GT); [contradiction|exact IH].
Qed.

Lemma normalizeNewlines_plain (a b : jsstring) :
  forallb (fun c => negb (c =? CR)) a = true ->
  normalizeNewlines (a ++ b) = a ++ normalizeNewlines b.
Proof.
  induction a as [|c a IH]; [reflexivity|]. cbn [forallb app]. intros H.
  apply andb_true_iff in H as [Hc Ha]. apply negb_true_iff, Z.eqb_neq in Hc.
  rewrite normalizeNewlines_other by exact Hc. now rewrite IH.
Qed.

(** A fixed part of the template has no CR; a text written escaped is
    followed by a fixed part that starts with a quote or with [<]. *)
Ltac template_part := rewrite normalizeNewlines_plain by reflexivity.
Ltac escaped_part :=
  rewrite normalizeNewlines_app_r by (intros ? E; discriminate E);
  rewrite normalizeNewlines_escapeHtml.

Lemma normalizeNewlines_tagSpans (ts : list jsstring) (rest : jsstring) :
  normalizeNewlines (join (List.map tagSpan ts) ++ rest)
  = join (List.map tagSpan (List.map normalizeNewlines ts)) ++ normalizeNewlines rest.
Proof.
  unfold join. induction ts as [|x ts IH]; [reflexivity|].
  cbn [List.map concat]. unfold tagSpan at 1 3. rewrite <- !app_assoc.
  template_part. escaped_part. template_part. now rewrite IH.
Qed.

Lemma fragmentTextFrom_tagSpans (ts : list jsstring) (rest : jsstring) :
  fragmentTextFrom (Text 0) (join (List.map tagSpan ts) ++ rest)
  = concat (List.map (List.filter (fun c => negb (c =? NUL))) ts)
    ++ fragmentTextFrom (Text 0) rest.
Proof.
  unfold join. induction ts as [|x ts IH]; [reflexivity|].
  cbn [List.map concat]. unfold tagSpan at 1. rewrite <- !app_assoc.
  change (fragmentTextFrom (Text 0) (tag_open ++ ?r)) with (fragmentTextFrom (Text 0) r).
  rewrite fragmentTextFrom_escapeHtml_app.
  change (fragmentTextFrom (Text 0) (tag_close ++ ?r)) with (fragmentTextFrom (Text 0) r).
  now rewrite IH.
Qed.

Lemma readBack_each_survives (ts : list jsstring) :
  forallb survives ts = true -> List.map readBack ts = ts.
Proof.
  induction ts as [|x ts IH]; [reflexivity|]. cbn [forallb List.map]. intros H.
  apply andb_true_iff in H as [Hx Hts]. now rewrite (readBack_survives x Hx), IH.
Qed.

(** X13. What a card displays is its template's layout around the
    project's title, description, tags and the two labels, each as it
    is read back from the markup: a CR LF pair and a CR on its own as
    one LF, a NUL dropped, every other character as it is. So a text
    with neither CR nor NUL shows character for character whatever else
    it contains. The image address, the alternative text and the link
    target never show as text. *)
Theorem card_text (l : labels) (p : project) :
  fragmentText (cardMarkup l p) = cardText l p
  /\ (survives (title p) = true -> survives (description p) = true ->
      forallb survives (tags p) = true ->
      survives (detailsButton l) = true -> survives (repoLink l) = true ->
      fragmentText (cardMarkup l p)
      = cardLayout (title p) (description p) (tags p) (detailsButton l) (repoLink l)).
Proof.
  assert (Hread : fragmentText (cardMarkup l p) = cardText l p).
  { unfold cardMarkup, escapeHtmlAttr, fragmentText.
    template_part. escaped_part. template_part. escaped_part.
    template_part. escaped_part. template_part. escaped_part.
    template_part. rewrite normalizeNewlines_tagSpans.
    template_part. escaped_part. template_part. escaped_part.
    template_part. escaped_part.
    change (normalizeNewlines card_8) with card_8.
    change (fragmentTextFrom (Text 0) (card_0 ++ ?r))
      with (indent 6 ++ fragmentTextFrom Tag r).
    rewrite fragmentText_in_tag.
    change (fragmentTextFrom Tag (card_1 ++ ?r)) with (fragmentTextFrom Tag r).
    rewrite fragmentText_in_tag.
    change (fragmentTextFrom Tag (card_2 ++ ?r))
      with (indent 6 ++ fragmentTextFrom (Text 0) r).
    rewrite fragmentTextFrom_escapeHtml_app.
    change (fragmentTextFrom (Text 0) (card_3 ++ ?r))
      with (indent 6 ++ fragmentTextFrom (Text 0) r).
    rewrite fragmentTextFrom_escapeHtml_app.
    change (fragmentTextFrom (Text 0) (card_4 ++ ?r))
      with ([10] ++ indent 6 ++ indent 8 ++ fragmentTextFrom (Text 0) r).
    rewrite fragmentTextFrom_tagSpans.
    change (fragmentTextFrom (Text 0) (card_5 ++ ?r))
      with (indent 6 ++ [10] ++ indent 6 ++ indent 8 ++ fragmentTextFrom (Text 0) r).
    rewrite fragmentTextFrom_escapeHtml_app.
    change (fragmentTextFrom (Text 0) (card_6 ++ ?r))
      with (indent 8 ++ fragmentTextFrom Tag r).
    rewrite fragmentText_in_tag.
    change (fragmentTextFrom Tag (card_7 ++ ?r)) with (fragmentTextFrom (Text 0) r).
    rewrite fragmentTextFrom_escapeHtml_app.
    change (fragmentTextFrom (Text 0) card_8) with (indent 6 ++ indent 4).
    unfold cardText, cardLayout, readBack. rewrite List.map_map.
    rewrite <- ?app_assoc. reflexivity. }
  split; [exact Hread|].
  intros Ht Hd Hts Hb Hr. rewrite Hread. unfold cardText.
  now rewrite (readBack_survives _ Ht), (readBack_survives _ Hd),
    (readBack_each_survives _ Hts), (readBack_survives _ Hb), (readBack_survives _ Hr).
Qed.

End ProjectFacts.

Lemma tag_button_never_empty_witness :
  let localeCompare := fun _ _ _ : jsstring => 0 in
  let button := Projects.createTagButton (lit "all") (lit "CSS") (lit "CSS") in
  let projects := Projects.getProjectsData None in
  In button (Projects.renderTagButtons localeCompare (lit "uk") (lit "All") (lit "all")
               projects)
  /\ List.filter (Projects.matchesTag (lit "CSS")) projects <> [].
Proof.
  intros localeCompare button projects.
  assert (Hb : In button (Projects.renderTagButtons localeCompare (lit "uk") (lit "All")
                            (lit "all") projects)).
  { vm_compute. tauto. }
  split; [exact Hb|].
  exact (proj1 (tag_button_never_empty localeCompare (lit "uk") (lit "All") (lit "all")
                  {| Projects.emptyTitle := []; Projects.emptyText := [];
                     Projects.detailsButton := []; Projects.repoLink := [] |}
                  None button Hb)).
Defined.

Lemma card_delimiters_witness :
  let l := {| Projects.emptyTitle := []; Projects.emptyText := [];
              Projects.detailsButton := lit "<b>"; Projects.repoLink := [] |} in
  length (Projects.tags Projects.project_cv) = length (Projects.tags Projects.project_todo)
  /\ List.filter Projects.is_delimiter (Projects.cardMarkup l Projects.project_cv)
     = List.filter Projects.is_delimiter (Projects.cardMarkup l Projects.project_todo).
Proof.
  intros l.
  assert (H : length (Projects.tags Projects.project_cv)
              = length (Projects.tags Projects.project_todo)) by reflexivity.
  split; [exact H|].
  exact (proj1 (card_delimiters l l Projects.project_cv Projects.project_todo) H).
Defined.

(** ** The details modal *)

Section ModalFacts.
Import Projects Modal.

#[local] Set Warnings "-clear-no-such-hyp".

Lemma classes_distinct :
  MODAL_OPEN <> MODAL_VISIBLE /\ MODAL_OPEN <> MODAL_CLOSING
  /\ MODAL_VISIBLE <> MODAL_CLOSING.
Proof. repeat split; discriminate. Qed.

Lemma strings_distinct : TRUE <> FALSE.
Proof. discriminate. Qed.

Lemma fresh_none {A} (m : gmap positive A) n :
  (forall h, is_Some (m !! h) -> (h < n)%positive) -> m !! n = None.
Proof.
  intros H. destruct (m !! n) eqn:E; [|reflexivity].
  assert (n < n)%positive by (apply H; rewrite E; eauto). lia.
Qed.

Ltac modal_eval :=
  cbv [openProjectModal closeModal onKeydown syncOpenModalTranslation runFrame
    runTimer showModal finishClose dropCloseTimer dropOpenFrame fillProjectModal
    requestAnimationFrame cancelAnimationFrame setTimeout clearTimeout
    withClasses withBodyClasses setAriaHidden setActiveProjectId
    setModalCloseTimer setModalOpenFrame classAdd classRemove classContains shown
    modalClasses ariaHidden bodyClasses modalTitle modalDesc modalTags
    modalRepo activeProjectId modalCloseTimer modalOpenFrame timers frames nextTimer
    nextFrame fst snd negb hasModal hasParts] in *.

Ltac modal_sets :=
  repeat match goal with H : forall h : positive, _ |- _ => clear H end;
  rewrite ?is_Some_alt in *; set_solver by eauto using strings_distinct.

Ltac modal_lookup :=
  repeat match goal with
  | H : forall h, is_Some (?m !! h) -> (h < ?n)%positive |- _ =>
    pose proof (fresh_none m n H); clear H
  end;
  repeat match goal with
  | H : _ <-> _ |- _ => clear H
  | H : ~ _ |- _ => clear H
  | H : _ -> _ /\ _ |- _ => clear H
  | H : _ ∈ _ -> _ |- _ => clear H
  end;
  intros ?;
  rewrite ?lookup_insert_Some, ?lookup_delete_Some;
  naive_solver.

Ltac modal_fresh :=
  repeat match goal with
  | H : _ <-> _ |- _ => clear H
  | H : forall h, _ <-> _ |- _ => clear H
  | H : ~ _ |- _ => clear H
  | H : _ -> _ /\ _ |- _ => clear H
  | H : _ ∈ _ -> _ |- _ => clear H
  end;
  intros ?;
  rewrite ?lookup_insert_is_Some, ?lookup_delete_is_Some;
  naive_solver lia.

Ltac modal_coherent :=
  constructor; modal_eval;
  [ modal_sets | modal_lookup | modal_lookup | modal_sets | modal_sets | modal_sets
  | modal_sets | modal_sets | modal_sets | modal_sets | modal_fresh | modal_fresh ].

Lemma coherent_open pg translated projectId st :
  coherent st -> coherent (openProjectModal pg translated projectId st).
Proof.
  destruct classes_distinct as (D1 & D2 & D3).
  unfold openProjectModal.
  destruct pg as [[|] [|]]; cbn [hasModal hasParts andb negb]; try easy.
  destruct (findProject translated projectId) as [p|]; [|easy].
  destruct st as [mc ah bc ti de ta re ac ct opf tm fr nt nf].
  intros [H1 H2 H3 H4 H5 H6 H7 H8 H9 H10 H11 H12].
  destruct ct as [c|], opf as [o|]; modal_eval; modal_coherent.
Qed.

Lemma coherent_close pg st :
  coherent st -> coherent (closeModal pg st).
Proof.
  destruct classes_distinct as (D1 & D2 & D3).
  unfold closeModal.
  destruct pg as [[|] hp]; cbn [hasModal negb]; try easy.
  destruct (classContains MODAL_OPEN (modalClasses st)) eqn:Hopen;
    cbn [negb]; [|easy].
  apply bool_decide_eq_true in Hopen.
  destruct st as [mc ah bc ti de ta re ac ct opf tm fr nt nf].
  intros [H1 H2 H3 H4 H5 H6 H7 H8 H9 H10 H11 H12].
  destruct ct as [c|], opf as [o|]; modal_eval; modal_coherent.
Qed.

Lemma coherent_keydown pg key st :
  coherent st -> coherent (onKeydown pg key st).
Proof.
  intros H. unfold onKeydown.
  destruct (negb (hasModal pg)); [easy|].
  destruct (negb (classContains MODAL_OPEN (modalClasses st))); [easy|].
  destruct (bool_decide (key = ESCAPE)); [now apply coherent_close|easy].
Qed.

Lemma coherent_fill pg p st :
  coherent st -> coherent (fillProjectModal pg p st).
Proof.
  unfold fillProjectModal. destruct (negb (hasParts pg)); [easy|].
  destruct st as [mc ah bc ti de ta re ac ct opf tm fr nt nf].
  intros [H1 H2 H3 H4 H5 H6 H7 H8 H9 H10 H11 H12].
  constructor; assumption.
Qed.

Lemma coherent_sync pg translated st :
  coherent st -> coherent (syncOpenModalTranslation pg translated st).
Proof.
  intros H. unfold syncOpenModalTranslation.
  destruct (activeProjectId st) as [active|]; [|easy].
  destruct (bool_decide (active = [])); [easy|].
  destruct (negb (hasModal pg) || bool_decide (ariaHidden st = Some TRUE)); [easy|].
  destruct (findProject translated active); [|easy].
  now apply coherent_fill.
Qed.

Lemma coherent_runFrame h st :
  coherent st -> coherent (runFrame h st).
Proof.
  destruct classes_distinct as (D1 & D2 & D3).
  unfold runFrame.
  destruct (frames st !! h) as [[|]|] eqn:E; [| |easy].
  - destruct st as [mc ah bc ti de ta re ac ct opf tm fr nt nf].
    intros [H1 H2 H3 H4 H5 H6 H7 H8 H9 H10 H11 H12].
    modal_eval. apply H3 in E as ->.
    destruct (H4 (ltac:(eauto))) as [Ho Hv].
    modal_coherent.
  - destruct st as [mc ah bc ti de ta re ac ct opf tm fr nt nf].
    intros [H1 H2 H3 H4 H5 H6 H7 H8 H9 H10 H11 H12].
    modal_eval. modal_coherent.
Qed.

Lemma coherent_runTimer h st :
  coherent st -> coherent (runTimer h st).
Proof.
  destruct classes_distinct as (D1 & D2 & D3).
  unfold runTimer.
  destruct (timers st !! h) as [[|]|] eqn:E; [| |easy].
  - destruct st as [mc ah bc ti de ta re ac ct opf tm fr nt nf].
    intros [H1 H2 H3 H4 H5 H6 H7 H8 H9 H10 H11 H12].
    modal_eval. apply H2 in E as ->.
    assert (Hc : MODAL_CLOSING ∈ mc) by (apply H1; eauto).
    modal_coherent.
  - destruct st as [mc ah bc ti de ta re ac ct opf tm fr nt nf].
    intros [H1 H2 H3 H4 H5 H6 H7 H8 H9 H10 H11 H12].
    modal_eval. modal_coherent.
Qed.

Lemma coherent_perform pg ev st :
  coherent st -> coherent (perform pg ev st).
Proof.
  destruct ev; cbn [perform].
  - apply coherent_open.
  - apply coherent_close.
  - apply coherent_keydown.
  - apply coherent_sync.
  - apply coherent_runFrame.
  - apply coherent_runTimer.
  - destruct st as [mc ah bc ti de ta re ac ct opf tm fr nt nf].
    intros [H1 H2 H3 H4 H5 H6 H7 H8 H9 H10 H11 H12].
    modal_eval. modal_coherent.
  - destruct st as [mc ah bc ti de ta re ac ct opf tm fr nt nf].
    intros [H1 H2 H3 H4 H5 H6 H7 H8 H9 H10 H11 H12].
    modal_eval. modal_coherent.
Qed.

Lemma hiddenModal_coherent : coherent hiddenModal.
Proof.
  assert (N : forall c, c <> lit "modal" -> c ∉ ({[ lit "modal" ]} : gset (list Z)))
    by (intros c Hc Hin%elem_of_singleton; contradiction).
  assert (N1 := N MODAL_OPEN ltac:(discriminate)).
  assert (N2 := N MODAL_CLOSING ltac:(discriminate)).
  assert (N3 := N MODAL_VISIBLE ltac:(discriminate)).
  constructor; unfold shown; cbn [hiddenModal modalClasses ariaHidden bodyClasses
    activeProjectId modalCloseTimer modalOpenFrame timers frames nextTimer nextFrame].
  - split; [easy|intros []; discriminate].
  - intros h. now rewrite lookup_empty.
  - intros h. now rewrite lookup_empty.
  - intros []; discriminate.
  - easy.
  - intros []; easy.
  - split; [intros []%elem_of_empty|intros []; easy].
  - split; [discriminate|intros []; easy].
  - split; [intros _ []; easy|reflexivity].
  - split; [intros []; discriminate|intros []; easy].
  - intros h. rewrite lookup_empty. intros []; discriminate.
  - intros h. rewrite lookup_empty. intros []; discriminate.
Qed.

Lemma coherent_run pg evs st :
  coherent st -> coherent (run pg evs st).
Proof.
  revert st. induction evs as [|ev evs IH]; intros st H; [exact H|].
  apply IH, coherent_perform, H.
Qed.

(** X14. Whatever the order in which cards are opened, the modal is
    closed, keys are pressed, the language changes and frames and timers
    fire, the modal's variables and the document agree: the closing class
    is set exactly while [modalCloseTimer] holds a timer, the only
    pending closing callback is the one it names, the only pending
    opening frame is the one [modalOpenFrame] names (and the modal is
    then open and not yet visible), the modal is never open and closing
    at once, and the scroll lock, [aria-hidden="false"] and a recorded
    [activeProjectId] are present exactly while it is open or closing. *)
Theorem modal_stays_coherent pg evs st :
  coherent st -> coherent (run pg evs st).
Proof.
  revert st. induction evs as [|ev evs IH]; intros st H; [exact H|].
  apply IH. destruct ev; cbn [perform].
  - now apply coherent_open.
  - now apply coherent_close.
  - now apply coherent_keydown.
  - now apply coherent_sync.
  - now apply coherent_runFrame.
  - now apply coherent_runTimer.
  - now apply (coherent_perform pg OtherFrameRequest).
  - now apply (coherent_perform pg OtherTimerRequest).
Qed.

(** X15. Closing an open modal leaves exactly one thing to happen, the
    timer recorded in [modalCloseTimer]: the opening frame, if it was
    still waiting, is cancelled, so the modal never becomes visible
    afterwards, and when the timer fires the modal is at rest again
    (none of the three classes, [aria-hidden="true"], no scroll lock, no
    active project, nothing of the modal's waiting), with the content it
    had. *)
Theorem close_completes pg st :
  coherent st -> hasModal pg = true -> MODAL_OPEN ∈ modalClasses st ->
  exists h,
    modalCloseTimer (closeModal pg st) = Some h
    /\ timers (closeModal pg st) !! h = Some FinishClose
    /\ (MODAL_VISIBLE ∉ modalClasses (closeModal pg st))
    /\ (forall h', frames (closeModal pg st) !! h' <> Some ShowModal)
    /\ atRest (runTimer h (closeModal pg st))
    /\ modalTitle (runTimer h (closeModal pg st)) = modalTitle st
    /\ modalDesc (runTimer h (closeModal pg st)) = modalDesc st
    /\ modalTags (runTimer h (closeModal pg st)) = modalTags st
    /\ modalRepo (runTimer h (closeModal pg st)) = modalRepo st.
Proof.
  destruct classes_distinct as (D1 & D2 & D3).
  intros Hc Hm Hopen. exists (nextTimer st).
  destruct pg as [hm hp]. cbn [hasModal] in Hm. subst hm.
  destruct st as [mc ah bc ti de ta re ac ct opf tm fr nt nf].
  destruct Hc as [H1 H2 H3 H4 H5 H6 H7 H8 H9 H10 H11 H12].
  modal_eval.
  assert (Hct : ct = None).
  { destruct ct as [c|]; [|reflexivity].
    exfalso. apply H6. split; [exact Hopen|]. apply H1. eauto. }
  subst ct.
  assert (Hnt : tm !! nt = None) by (apply fresh_none; exact H11).
  assert (Hfin : forall h, tm !! h <> Some FinishClose)
    by (intros h E; apply H2 in E; discriminate).
  assert (Hfr : forall h', match opf with Some o => delete o fr | None => fr end !! h'
                           <> Some ShowModal).
  { intros h' E. destruct opf as [o|].
    - apply lookup_delete_Some in E as [Hne E]. apply H3 in E. congruence.
    - apply H3 in E. discriminate. }
  rewrite !(bool_decide_eq_true_2 _ Hopen).
  destruct opf as [o|]; modal_eval; rewrite !lookup_insert_eq; modal_eval.
  all: repeat split; try reflexivity; try exact Hfr.
  all: try (rewrite delete_insert_id by exact Hnt; exact Hfin).
  all: clear H2 H3 H11 H12 Hfr Hfin; try set_solver.
Qed.


Lemma open_is_open pg translated projectId p st :
  hasModal pg = true -> hasParts pg = true ->
  findProject translated projectId = Some p ->
  MODAL_OPEN ∈ modalClasses (openProjectModal pg translated projectId st).
Proof.
  intros Hm Hp Hfind.
  destruct pg as [hm hp]. cbn [hasModal hasParts] in Hm, Hp. subst hm hp.
  destruct st as [mc ah bc ti de ta re ac ct opf tm fr nt nf].
  unfold openProjectModal. cbn [hasModal hasParts andb negb]. rewrite Hfind.
  destruct ct as [c'|], opf as [o|]; modal_eval; set_solver.
Qed.

Lemma open_kept pg ev st :
  MODAL_OPEN ∈ modalClasses st -> requestsClose ev = false ->
  MODAL_OPEN ∈ modalClasses (perform pg ev st).
Proof.
  destruct classes_distinct as (D1 & D2 & D3).
  intros Hopen Hev.
  destruct ev as [tr pid| |key|tr|h|h| |]; cbn [perform requestsClose] in *;
    try discriminate.
  - unfold openProjectModal.
    destruct (negb (hasModal pg && hasParts pg)); [exact Hopen|].
    destruct (findProject tr pid) as [p|]; [|exact Hopen].
    destruct st as [mc ah bc ti de ta re ac ct opf tm fr nt nf].
    destruct (hasParts pg), ct as [c|], opf as [o|]; modal_eval; set_solver.
  - unfold onKeydown. rewrite Hev.
    destruct (negb (hasModal pg)); [exact Hopen|].
    destruct (negb (classContains MODAL_OPEN (modalClasses st))); exact Hopen.
  - unfold syncOpenModalTranslation.
    destruct (activeProjectId st) as [active|]; [|exact Hopen].
    destruct (bool_decide (active = [])); [exact Hopen|].
    destruct (negb (hasModal pg) || bool_decide (ariaHidden st = Some TRUE));
      [exact Hopen|].
    destruct (findProject tr active); [|exact Hopen].
    unfold fillProjectModal. destruct (negb (hasParts pg)); exact Hopen.
  - unfold runFrame. destruct (frames st !! h) as [[|]|]; [| |exact Hopen].
    + destruct st; modal_eval; set_solver.
    + exact Hopen.
  - unfold runTimer. destruct (timers st !! h) as [[|]|]; [| |exact Hopen].
    + destruct st; modal_eval; set_solver.
    + exact Hopen.
  - exact Hopen.
  - exact Hopen.
Qed.

(** X17. Once the details of a known project are opened, also while the
    modal was closing with its timer still pending, nothing but a
    request to close (the close control or the Escape key) hides it
    again: after any sequence of further openings, other keys, language
    changes, frames and timers, the stale closing timer included, the
    modal is open and not closing, [aria-hidden] is ["false"], the
    scroll lock is in place and an active project is recorded. *)
Theorem opened_modal_stays pg translated projectId p evs st :
  coherent st -> hasModal pg = true -> hasParts pg = true ->
  findProject translated projectId = Some p ->
  forallb (fun ev => negb (requestsClose ev)) evs = true ->
  let st' := run pg evs (openProjectModal pg translated projectId st) in
  MODAL_OPEN ∈ modalClasses st' /\ (MODAL_CLOSING ∉ modalClasses st')
  /\ ariaHidden st' = Some FALSE /\ NO_SCROLL ∈ bodyClasses st'
  /\ is_Some (activeProjectId st').
Proof.
  intros Hc Hm Hp Hfind Hevs st'.
  assert (Hopen : MODAL_OPEN ∈ modalClasses st').
  { subst st'.
    pose proof (open_is_open pg translated projectId p st Hm Hp Hfind) as Hopen.
    revert Hopen. generalize (openProjectModal pg translated projectId st).
    induction evs as [|ev evs IH]; intros s Hs; [exact Hs|].
    cbn [forallb] in Hevs. apply andb_true_iff in Hevs as [Hev Hevs].
    apply (IH Hevs). apply open_kept; [exact Hs|].
    now apply negb_true_iff in Hev. }
  assert (Hc' : coherent st') by (apply coherent_run, coherent_open, Hc).
  destruct Hc' as [H1 H2 H3 H4 H5 H6 H7 H8 H9 H10 H11 H12].
  unfold shown in *. repeat split.
  - exact Hopen.
  - intros Hcl. apply H6. now split.
  - apply H8. now left.
  - apply H7. now left.
  - apply H10. now left.
Qed.

(** X18. Changing the language while the details of a project are shown
    gives the modal the state it would have had if the project had been
    opened in the new language from the start, provided the project's
    id is not the empty string and the new data has a project with that
    id. *)
Theorem sync_after_open pg translated translated' projectId p p' st :
  hasModal pg = true -> hasParts pg = true ->
  projectId <> [] ->
  findProject translated projectId = Some p ->
  findProject translated' projectId = Some p' ->
  syncOpenModalTranslation pg translated' (openProjectModal pg translated projectId st)
  = openProjectModal pg translated' projectId st.
Proof.
  intros Hm Hp Hid Hfind Hfind'.
  unfold syncOpenModalTranslation, openProjectModal.
  rewrite Hm, Hp, Hfind, Hfind'. cbn [andb negb orb].
  destruct st as [mc ah bc ti de ta re ac ct opf tm fr nt nf].
  destruct ct as [c|], opf as [o|]; modal_eval; rewrite Hp; modal_eval;
    rewrite (bool_decide_eq_false_2 _ Hid);
    rewrite (bool_decide_eq_false_2 (Some FALSE = Some TRUE)) by discriminate;
    rewrite Hfind'; reflexivity.
Qed.

Lemma NoDup_map_eq {A B} (f : A -> B) (l : list A) (x y : A) :
  List.NoDup (List.map f l) -> In x l -> In y l -> f x = f y -> x = y.
Proof.
  induction l as [|a l IH]; cbn [List.map]; intros Hnd Hx Hy Hf; [contradiction|].
  apply List.NoDup_cons_iff in Hnd as [Hna Hnd].
  destruct Hx as [<-|Hx], Hy as [<-|Hy]; try reflexivity.
  - exfalso. apply Hna. rewrite Hf. now apply in_map.
  - exfalso. apply Hna. rewrite <- Hf. now apply in_map.
  - now apply IH.
Qed.

(** X19. The details button of every project card the grid shows opens
    the modal: the id the card carries is found in the project data, the
    modal becomes open and takes the title of the first project with
    that id, which is the card's own project when no two projects share
    an id. *)
Theorem card_opens_its_project pg (l : labels) (stateTag : jsstring)
    (translated : option (list project)) (c : card) (pid : jsstring) (st : state) :
  hasModal pg = true -> hasParts pg = true ->
  In c (cards (renderProjects l stateTag (getProjectsData translated))) ->
  projectId c = Some pid ->
  exists p,
    In p (getProjectsData translated) /\ id p = pid
    /\ findProject translated pid = Some p
    /\ MODAL_OPEN ∈ modalClasses (openProjectModal pg translated pid st)
    /\ modalTitle (openProjectModal pg translated pid st) = title p
    /\ activeProjectId (openProjectModal pg translated pid st) = Some pid
    /\ (List.NoDup (List.map id (getProjectsData translated)) ->
        innerHTML c = cardMarkup l p).
Proof.
  intros Hm Hp Hc Hpid.
  assert (H0 : exists p0, In p0 (getProjectsData translated) /\ id p0 = pid
                          /\ innerHTML c = cardMarkup l p0).
  { unfold renderProjects in Hc. cbn [cards] in Hc.
    destruct (List.filter (matchesTag stateTag) (getProjectsData translated))
      as [|q qs] eqn:E.
    - destruct Hc as [<-|[]]. discriminate.
    - apply in_map_iff in Hc as (p0 & <- & Hin). cbn [projectId innerHTML] in *.
      rewrite <- E in Hin. apply filter_In in Hin as [Hin _].
      exists p0. split; [exact Hin|]. split; [congruence|reflexivity]. }
  destruct H0 as (p0 & Hin0 & Hid0 & Hhtml).
  destruct (findProject translated pid) as [p|] eqn:Hfind.
  - unfold findProject in Hfind. pose proof Hfind as Hsome.
    apply List.find_some in Hsome as [Hin Hid]. apply bool_decide_eq_true in Hid.
    exists p. split; [exact Hin|]. split; [exact Hid|]. split; [reflexivity|].
    destruct pg as [hm hp]. cbn [hasModal hasParts] in Hm, Hp. subst hm hp.
    destruct st as [mc ah bc ti de ta re ac ct opf tm fr nt nf].
    unfold openProjectModal, findProject. cbn [hasModal hasParts andb negb].
    rewrite Hfind.
    split; [|split; [|split]].
    + destruct ct as [c'|], opf as [o|]; modal_eval; set_solver.
    + destruct ct as [c'|], opf as [o|]; reflexivity.
    + destruct ct as [c'|], opf as [o|]; reflexivity.
    + intros Hnd. rewrite Hhtml. f_equal.
      apply (NoDup_map_eq id _ _ _ Hnd Hin0 Hin). congruence.
  - exfalso. unfold findProject in Hfind.
    apply (List.find_none _ _ Hfind) in Hin0.
    apply bool_decide_eq_false in Hin0. contradiction.
Qed.

Lemma modal_stays_coherent_witness :
  coherent hiddenModal
  /\ coherent (run fullPage
                 [Open None (lit "events"); FrameFires 1; Close;
                  Open None (lit "cv"); TimerFires 1] hiddenModal).
Proof.
  split; [apply hiddenModal_coherent|].
  apply (modal_stays_coherent fullPage _ hiddenModal), hiddenModal_coherent.
Defined.

Lemma close_completes_witness :
  let st := openProjectModal fullPage None (lit "events") hiddenModal in
  coherent st /\ hasModal fullPage = true /\ MODAL_OPEN ∈ modalClasses st
  /\ exists h, modalCloseTimer (closeModal fullPage st) = Some h
               /\ atRest (runTimer h (closeModal fullPage st)).
Proof.
  intros st.
  assert (Hc : coherent st) by apply coherent_open, hiddenModal_coherent.
  assert (Ho : MODAL_OPEN ∈ modalClasses st) by (refine (bool_decide_unpack _ _); vm_compute; exact I).
  split; [exact Hc|]. split; [reflexivity|]. split; [exact Ho|].
  destruct (close_completes fullPage st Hc eq_refl Ho)
    as (h & Ht & _ & _ & _ & Hrest & _).
  exists h. split; [exact Ht|exact Hrest].
Defined.


Lemma opened_modal_stays_witness :
  let st := run fullPage [Open None (lit "events"); FrameFires 1; Close] hiddenModal in
  let evs := [TimerFires 1; FrameFires 2; Keydown (lit "Enter"); Sync None] in
  let st' := run fullPage evs (openProjectModal fullPage None (lit "cv") st) in
  coherent st /\ timers st !! 1%positive = Some FinishClose
  /\ findProject None (lit "cv") = Some project_cv
  /\ forallb (fun ev => negb (requestsClose ev)) evs = true
  /\ MODAL_OPEN ∈ modalClasses st' /\ ariaHidden st' = Some FALSE.
Proof.
  intros st evs st'.
  assert (Hc : coherent st) by apply coherent_run, hiddenModal_coherent.
  assert (Hf : findProject None (lit "cv") = Some project_cv)
    by (vm_compute; reflexivity).
  assert (He : forallb (fun ev => negb (requestsClose ev)) evs = true)
    by (vm_compute; reflexivity).
  split; [exact Hc|]. split; [vm_compute; reflexivity|].
  split; [exact Hf|]. split; [exact He|].
  destruct (opened_modal_stays fullPage None (lit "cv") project_cv evs st
              Hc eq_refl eq_refl Hf He) as (Ho & _ & Ha & _).
  split; [exact Ho|exact Ha].
Defined.

Lemma sync_after_open_witness :
  let english :=
    {| id := lit "events"; title := lit "Student events site";
       description := lit "A one-page site"; details := lit "Focus: clean markup";
       tags := [lit "HTML"]; image := lit "events.jpg";
       repo := lit "https://github.com/" |} in
  lit "events" <> []
  /\ findProject None (lit "events") = Some project_events
  /\ findProject (Some [english]) (lit "events") = Some english
  /\ modalTitle (syncOpenModalTranslation fullPage (Some [english])
                   (openProjectModal fullPage None (lit "events") hiddenModal))
     = lit "Student events site".
Proof.
  intros english.
  assert (Hid : lit "events" <> []) by (vm_compute; discriminate).
  assert (Hf : findProject None (lit "events") = Some project_events)
    by (vm_compute; reflexivity).
  assert (Hf' : findProject (Some [english]) (lit "events") = Some english)
    by (vm_compute; reflexivity).
  split; [exact Hid|]. split; [exact Hf|]. split; [exact Hf'|].
  rewrite (sync_after_open fullPage None (Some [english]) (lit "events")
             project_events english hiddenModal eq_refl eq_refl Hid Hf Hf').
  vm_compute. reflexivity.
Defined.

Lemma card_opens_its_project_witness :
  let c := {| className := lit "card project-card"; projectId := Some (lit "cv");
              innerHTML := cardMarkup (Build_labels [] [] [] []) project_cv |} in
  hasModal fullPage = true /\ hasParts fullPage = true
  /\ In c (cards (renderProjects (Build_labels [] [] [] []) (lit "CSS")
                    (getProjectsData None)))
  /\ projectId c = Some (lit "cv")
  /\ exists p, findProject None (lit "cv") = Some p
               /\ modalTitle (openProjectModal fullPage None (lit "cv") hiddenModal)
                  = title p.
Proof.
  intros c.
  assert (Hin : In c (cards (renderProjects (Build_labels [] [] [] []) (lit "CSS")
                               (getProjectsData None)))).
  { vm_compute. right. left. reflexivity. }
  split; [reflexivity|]. split; [reflexivity|]. split; [exact Hin|].
  split; [reflexivity|].
  destruct (card_opens_its_project fullPage (Build_labels [] [] [] []) (lit "CSS") None c
              (lit "cv") hiddenModal eq_refl eq_refl Hin eq_refl)
    as (p & _ & _ & Hf & _ & Ht & _).
  exists p. split; [exact Hf|exact Ht].
Defined.

End ModalFacts.

(** ** The theme switch *)

Section ThemeFacts.
Import Theme.

#[local] Set Warnings "-clear-no-such-hyp".

Lemma theme_names_distinct :
  DARK <> THEME_TRANSITION /\ LIGHT <> DARK.
Proof. split; discriminate. Qed.

Ltac theme_eval :=
  cbv [applyTheme initTheme onToggleClick runTimer relabel updateThemeToggleLabel
    classToggle isDark bodyClasses storedTheme ariaPressed ariaLabel titleAttr
    removals nextTimer negb andb loadedPage] in *.

Lemma in_step_applyTheme w theme animate st :
  (THEME_TRANSITION ∈ bodyClasses st -> exists h, h ∈ removals st) ->
  (forall h, h ∈ removals st -> (h < nextTimer st)%positive) ->
  in_step (applyTheme true w theme animate st).
Proof.
  destruct theme_names_distinct as [D1 D2].
  destruct st as [bc stored pr la ti rm nt]. intros Ht Hf.
  unfold applyTheme.
  destruct (bool_decide (theme = DARK)) eqn:E;
    [apply bool_decide_eq_true in E|apply bool_decide_eq_false in E];
    destruct (animate && negb (prefersReducedMotion w)); theme_eval;
    constructor; theme_eval.
  all: try (split; eauto; fail).
  all: try (eauto; fail).
  all: try (subst theme; split; [reflexivity|set_solver]).
  all: try (split; [set_solver|intros [= ?]; contradiction]).
  all: try (rewrite bool_decide_eq_true_2 by set_solver; reflexivity).
  all: try (rewrite bool_decide_eq_false_2 by set_solver; reflexivity).
  all: try (intros h Hh; apply Hf in Hh; lia).
  all: try (intros h [->%elem_of_singleton|Hh%Hf]%elem_of_union; lia).
  all: try (intros _; exists nt; set_solver).
  all: intros Hin; apply Ht; set_solver.
Qed.

Lemma in_step_click w st : in_step st -> in_step (onToggleClick true w st).
Proof.
  intros [H1 H2 H3 H4 H5 H6]. unfold onToggleClick. cbn [negb].
  apply in_step_applyTheme; assumption.
Qed.

Lemma in_step_runTimer h st : in_step st -> in_step (runTimer h st).
Proof.
  destruct theme_names_distinct as [D1 D2].
  destruct st as [bc stored pr la ti rm nt]. intros [H1 H2 H3 H4 H5 H6].
  theme_eval. destruct (bool_decide (h ∈ rm)); [|now constructor].
  constructor; theme_eval.
  - rewrite <- H1. set_solver.
  - exact H2.
  - rewrite H3. do 2 f_equal. apply bool_decide_ext. set_solver.
  - exact H4.
  - set_solver.
  - intros h' Hh. apply H6. set_solver.
Qed.

Lemma in_step_relabel w st : in_step st -> in_step (relabel true w st).
Proof.
  destruct st as [bc stored pr la ti rm nt]. intros [H1 H2 H3 H4 H5 H6].
  theme_eval. constructor; theme_eval; try assumption.
  - reflexivity.
  - split; [destruct (bool_decide _); eauto|reflexivity].
Qed.

Lemma in_step_perform ev st : in_step st -> in_step (perform true ev st).
Proof.
  destruct ev; cbn [perform].
  - apply in_step_click.
  - apply in_step_runTimer.
  - apply in_step_relabel.
Qed.

Lemma in_step_run evs st : in_step st -> in_step (run true evs st).
Proof.
  revert st. induction evs as [|ev evs IH]; intros st H; [exact H|].
  apply IH, in_step_perform, H.
Qed.

Lemma in_step_initTheme w classes stored :
  in_step (initTheme true w (loadedPage classes stored)).
Proof.
  unfold initTheme. cbn [negb]. apply in_step_applyTheme.
  - cbn [loadedPage bodyClasses]. set_solver.
  - cbn [loadedPage removals]. set_solver.
Qed.

(** X20. On a page with the theme toggle, from the moment [initTheme]
    ran and whatever clicks, language changes and timers follow: the
    body has the class [dark] exactly when [localStorage] holds
    ["dark"] under [theme], something is stored, [aria-pressed] of the
    toggle spells whether the theme is dark, its [title] equals its
    [aria-label], and while the body carries [theme-transition] a timer
    that removes it is waiting. *)
Theorem theme_in_step w classes stored evs :
  in_step (run true evs (initTheme true w (loadedPage classes stored))).
Proof.
  generalize (in_step_initTheme w classes stored).
  generalize (initTheme true w (loadedPage classes stored)).
  induction evs as [|ev evs IH]; intros st H; [exact H|].
  apply IH. destruct ev; cbn [perform].
  - now apply in_step_click.
  - now apply in_step_runTimer.
  - now apply in_step_relabel.
Qed.

(** X21. The theme survives a reload: when the page is loaded again
    with what [localStorage] holds, [initTheme] gives the body the class
    [dark] exactly if it had it before, whatever classes the fresh page
    has and whatever the system's colour scheme is, and leaves the
    stored value as it is. *)
Theorem theme_survives_reload w classes st :
  in_step st ->
  let st' := initTheme true w (loadedPage classes (storedTheme st)) in
  isDark st' = isDark st /\ storedTheme st' = storedTheme st.
Proof.
  destruct theme_names_distinct as [D1 D2].
  destruct st as [bc stored pr la ti rm nt]. intros [H1 H2 H3 H4 H5 H6] st'.
  subst st'. cbn [storedTheme bodyClasses] in *. destruct H2 as [theme ->].
  unfold initTheme, applyTheme, isDark.
  cbn [negb andb loadedPage storedTheme bodyClasses].
  destruct (bool_decide (theme = DARK)) eqn:E;
    [apply bool_decide_eq_true in E|apply bool_decide_eq_false in E];
    theme_eval; (split; [|reflexivity]).
  - subst theme. rewrite !bool_decide_eq_true_2; [reflexivity| |set_solver].
    now apply H1.
  - rewrite !bool_decide_eq_false_2; [reflexivity| |set_solver].
    intros Hin. apply H1 in Hin. congruence.
Qed.

Lemma removals_run_timers hs st :
  removals (run true (map TimerFires hs) st) = removals st ∖ list_to_set hs.
Proof.
  revert st. induction hs as [|h hs IH]; intros st; cbn [map run fold_left].
  - cbn. set_solver.
  - fold (run true (map TimerFires hs) (perform true (TimerFires h) st)).
    rewrite IH. cbn [perform]. unfold runTimer.
    destruct (decide (h ∈ removals st)) as [Hin|Hout].
    + rewrite (bool_decide_eq_true_2 _ Hin). cbn [removals]. set_solver.
    + rewrite (bool_decide_eq_false_2 _ Hout). set_solver.
Qed.

(** X22. The transition class does not outlive its timers: once every
    timer that was waiting has fired, in whatever order and with
    whatever other handles in between, the body no longer carries
    [theme-transition] and none of the timers is left. *)
Theorem transition_ends hs st :
  in_step st ->
  (forall h, h ∈ removals st -> h ∈ hs) ->
  let st' := run true (map TimerFires hs) st in
  (THEME_TRANSITION ∉ bodyClasses st') /\ removals st' = ∅.
Proof.
  intros Hs Hall st'.
  assert (Hr : removals st' = ∅).
  { subst st'. rewrite removals_run_timers. apply set_eq. intros h.
    rewrite elem_of_difference, elem_of_list_to_set. set_solver. }
  split; [|exact Hr].
  intros Hin.
  destruct (transition_pending _ (in_step_run (map TimerFires hs) st Hs) Hin) as [h Hh].
  fold st' in Hh. rewrite Hr in Hh. set_solver.
Qed.

Lemma theme_survives_reload_witness :
  let st := run true [Click (englishLabels false false)]
              (initTheme true (englishLabels false false) (loadedPage ∅ None)) in
  in_step st /\ isDark st = true
  /\ isDark (initTheme true (englishLabels false true) (loadedPage ∅ (storedTheme st)))
     = isDark st.
Proof.
  intros st.
  assert (Hs : in_step st) by apply in_step_run, in_step_initTheme.
  split; [exact Hs|]. split; [vm_compute; reflexivity|].
  exact (proj1 (theme_survives_reload (englishLabels false true) ∅ st Hs)).
Defined.

Lemma transition_ends_witness :
  let st := run true [Click (englishLabels false false); Click (englishLabels false false)]
              (initTheme true (englishLabels false false) (loadedPage ∅ None)) in
  in_step st /\ THEME_TRANSITION ∈ bodyClasses st
  /\ (forall h, h ∈ removals st -> h ∈ [2; 1]%positive)
  /\ (THEME_TRANSITION ∉ bodyClasses (run true (map TimerFires [2; 1]%positive) st)).
Proof.
  intros st.
  assert (Hs : in_step st) by apply in_step_run, in_step_initTheme.
  assert (Hall : forall h, h ∈ removals st -> h ∈ [2; 1]%positive).
  { assert (Hsub : removals st ⊆ ({[ 2%positive; 1%positive ]} : gset positive))
      by (refine (bool_decide_unpack _ _); vm_compute; exact I).
    intros h Hh. apply Hsub in Hh. set_solver. }
  split; [exact Hs|].
  split; [refine (bool_decide_unpack _ _); vm_compute; exact I|].
  split; [exact Hall|].
  exact (proj1 (transition_ends [2; 1]%positive st Hs Hall)).
Defined.

End ThemeFacts.

(** ** The language of the page *)

Section LanguageFacts.
Import I18n.
Context {data : Type}.

#[local] Set Warnings "-clear-no-such-hyp".

Lemma supported_spec (l : jsstring) : supported l = true <-> l ∈ SUPPORTED_LANGS.
Proof. unfold supported. apply bool_decide_eq_true. Qed.

Lemma UK_supported : UK ∈ SUPPORTED_LANGS.
Proof. unfold SUPPORTED_LANGS. set_solver. Qed.

Ltac i18n_eval :=
  cbv [setLanguage applyTranslationsToDom setTranslations setTasks
    lang storedLang translations cache htmlLang tasks nextTask
    requested animate fallback progress] in *.

Ltac i18n_lookup :=
  cbn [lang storedLang translations cache htmlLang tasks nextTask
       requested animate fallback progress setTasks applyTranslationsToDom
       setTranslations];
  repeat (rewrite lookup_insert_eq;
          cbn [lang storedLang translations cache htmlLang tasks nextTask
               requested animate fallback progress setTasks applyTranslationsToDom
               setTranslations]).

Lemma settled_setLanguage doc (l : jsstring) anim (st : state data) :
  l ∈ SUPPORTED_LANGS ->
  (forall i tk, tasks st !! i = Some tk -> requested tk ∈ SUPPORTED_LANGS) ->
  (forall k, is_Some (cache st !! k) -> k ∈ SUPPORTED_LANGS) ->
  (htmlLang st = doc \/ exists k, htmlLang st = Some k /\ k ∈ SUPPORTED_LANGS) ->
  settled_language doc (setLanguage l anim st).
Proof.
  destruct st as [la stored tr ca hl ts nt]. intros Hl Ht Hc Hh.
  constructor; i18n_eval; try assumption; try reflexivity.
  intros i tk [[<- <-]|[_ E]]%lookup_insert_Some; [exact Hl|exact (Ht _ _ E)].
Qed.

Lemma settled_click doc l (st : state data) :
  settled_language doc st -> settled_language doc (onLanguageClick l st).
Proof.
  intros H. unfold onLanguageClick.
  destruct (supported l) eqn:E; cbn [negb orb]; [|exact H].
  destruct (bool_decide (l = lang st)); [exact H|].
  destruct H. apply settled_setLanguage; try assumption.
  now apply supported_spec.
Qed.

Lemma settled_fetchDone doc i o (st : state data) :
  settled_language doc st -> settled_language doc (fetchDone i o st).
Proof.
  intros H. unfold fetchDone.
  destruct (tasks st !! i) as [[rq an fb [|o']]|] eqn:E; cbn [progress];
    [|exact H|exact H].
  destruct st as [la stored tr ca hl ts nt]. destruct H as [H1 H2 H3 H4 H5].
  i18n_eval. pose proof (H3 _ _ E) as Hrq. i18n_eval.
  constructor; i18n_eval; try assumption.
  - intros j tk' [[<- <-]|[_ E']]%lookup_insert_Some; [exact Hrq|exact (H3 _ _ E')].
  - intros k Hk. destruct o as [d|]; [|exact (H4 _ Hk)].
    apply lookup_insert_is_Some in Hk as [<-|[_ Hk]]; [|exact (H4 _ Hk)].
    destruct fb; [exact UK_supported|exact Hrq].
Qed.

Lemma settled_resume doc i (st : state data) :
  settled_language doc st -> settled_language doc (resume i st).
Proof.
  intros H. unfold resume.
  destruct (tasks st !! i) as [[rq an fb [|o]]|] eqn:E; cbn [progress];
    [exact H| |exact H].
  destruct st as [la stored tr ca hl ts nt]. destruct H as [H1 H2 H3 H4 H5].
  i18n_eval. pose proof (H3 _ _ E) as Hrq. i18n_eval.
  assert (Hdel : forall j tk', delete i ts !! j = Some tk' ->
                               requested tk' ∈ SUPPORTED_LANGS)
    by (intros j tk' [_ E']%lookup_delete_Some; exact (H3 _ _ E')).
  destruct o as [d|].
  - constructor; i18n_eval; try assumption. right. eauto.
  - destruct fb.
    + constructor; i18n_eval; assumption.
    + destruct (bool_decide (rq <> UK)).
      * constructor; i18n_eval; try assumption; try reflexivity.
        -- exact UK_supported.
        -- intros j tk' [[<- <-]|[_ E']]%lookup_insert_Some;
             [exact Hrq|exact (Hdel _ _ E')].
      * constructor; i18n_eval; try assumption. right. eauto.
Qed.

Lemma settled_init stored doc :
  settled_language doc (initI18n (loadedPage (data := data) stored doc)).
Proof.
  unfold initI18n. apply settled_setLanguage.
  - cbn [loadedPage storedLang]. destruct stored as [s|]; [|exact UK_supported].
    destruct (supported s) eqn:E; [now apply supported_spec|exact UK_supported].
  - cbn [loadedPage tasks]. intros i tk E. now rewrite lookup_empty in E.
  - cbn [loadedPage cache]. intros k [d E]. now rewrite lookup_empty in E.
  - left. reflexivity.
Qed.

(** X23. From the moment [initI18n] started, whatever [localStorage]
    held, whatever [data-lang] the clicked buttons carry and in whatever
    order requests come back and suspended calls resume:
    [appState.lang] is one of the supported languages and
    [localStorage] holds it, every suspended call was asked for a
    supported language, the cache has entries for supported languages
    only, and the document's [lang] attribute is the one the page came
    with or a supported language. *)
Theorem language_stays_supported stored doc evs :
  settled_language doc (run evs (initI18n (loadedPage (data := data) stored doc))).
Proof.
  generalize (settled_init stored doc).
  generalize (initI18n (loadedPage (data := data) stored doc)).
  induction evs as [|ev evs IH]; intros st H; [exact H|].
  apply IH. destruct ev; cbn [perform].
  - now apply settled_click.
  - now apply settled_fetchDone.
  - now apply settled_resume.
Qed.

(** X24. When the file of a language other than ["uk"] cannot be
    loaded and nothing else happens meanwhile, the page falls back to
    ["uk"]: once the call has resumed and the Ukrainian file has come
    (from the cache, or by a request that succeeds), [appState.lang],
    [localStorage] and the document's [lang] attribute all say ["uk"],
    the Ukrainian translations are the current ones and the call has
    ended. If the Ukrainian file fails too, the language is recorded as
    ["uk"] but the translations and the document are left as they
    were. *)
Theorem failed_language_falls_back (l : jsstring) anim (st : state data) :
  l <> UK -> cache st !! l = None ->
  let i := nextTask st in
  let st1 := run [FetchDone i Failed; Resume i] (setLanguage l anim st) in
  (forall d, cache st !! UK = Some d ->
     let st' := run [Resume i] st1 in
     lang st' = UK /\ storedLang st' = Some UK /\ translations st' = Some d
     /\ htmlLang st' = Some UK /\ tasks st' !! i = None)
  /\ (forall d, cache st !! UK = None ->
     let st' := run [FetchDone i (Loaded d); Resume i] st1 in
     lang st' = UK /\ storedLang st' = Some UK /\ translations st' = Some d
     /\ htmlLang st' = Some UK /\ cache st' !! UK = Some d /\ tasks st' !! i = None)
  /\ (cache st !! UK = None ->
     let st' := run [FetchDone i Failed; Resume i] st1 in
     lang st' = UK /\ storedLang st' = Some UK /\ translations st' = translations st
     /\ htmlLang st' = htmlLang st /\ cache st' = cache st /\ tasks st' !! i = None).
Proof.
  intros Hl Hc i st1.
  destruct st as [la stored tr ca hl ts nt]. cbn [cache nextTask translations htmlLang] in *.
  assert (Hb : bool_decide (l <> UK) = true) by now apply bool_decide_eq_true.
  assert (E1 : exists ts1,
    st1 = {| lang := UK; storedLang := Some UK; translations := tr; cache := ca;
             htmlLang := hl;
             tasks := <[i := {| requested := l; animate := anim; fallback := true;
                                progress := match ca !! UK with
                                            | Some d => Settled (Loaded d)
                                            | None => Fetching
                                            end |}]> ts1;
             nextTask := (nt + 1)%positive |}).
  { eexists. subst st1 i. cbn [run fold_left perform].
    unfold setLanguage, loadTranslations. i18n_lookup. rewrite Hc.
    unfold fetchDone. i18n_lookup.
    unfold resume. i18n_lookup. rewrite Hb.
    unfold loadTranslations. i18n_lookup. reflexivity. }
  destruct E1 as [ts1 ->]. clearbody i. clear Hc Hb.
  split; [|split].
  - intros d Hd. cbv zeta. rewrite Hd. cbn [run fold_left perform].
    unfold resume. i18n_lookup. repeat split. apply lookup_delete_eq.
  - intros d Hd. cbv zeta. rewrite Hd. cbn [run fold_left perform].
    unfold fetchDone. i18n_lookup.
    unfold resume. i18n_lookup.
    repeat split; first [apply lookup_insert_eq|apply lookup_delete_eq].
  - intros Hd. cbv zeta. rewrite Hd. cbn [run fold_left perform].
    unfold fetchDone. i18n_lookup.
    unfold resume. i18n_lookup.
    repeat split; apply lookup_delete_eq.
Qed.

End LanguageFacts.

Lemma failed_language_falls_back_witness :
  let st := I18n.run [I18n.FetchDone 1 (I18n.Loaded 7%nat); I18n.Resume 1]
              (I18n.initI18n (I18n.loadedPage None (Some I18n.UK))) in
  let i := I18n.nextTask st in
  let st1 := I18n.run [I18n.FetchDone i I18n.Failed; I18n.Resume i]
               (I18n.setLanguage I18n.EN true st) in
  I18n.EN <> I18n.UK /\ I18n.cache st !! I18n.EN = None
  /\ I18n.cache st !! I18n.UK = Some 7%nat
  /\ I18n.lang st1 = I18n.UK
  /\ I18n.translations (I18n.run [I18n.Resume i] st1) = Some 7%nat.
Proof.
  intros st i st1.
  assert (Hne : I18n.EN <> I18n.UK) by discriminate.
  assert (Hc : I18n.cache st !! I18n.EN = None) by (vm_compute; reflexivity).
  assert (Hu : I18n.cache st !! I18n.UK = Some 7%nat) by (vm_compute; reflexivity).
  split; [exact Hne|]. split; [exact Hc|]. split; [exact Hu|].
  split; [vm_compute; reflexivity|].
  exact (proj1 (proj2 (proj2 (proj1 (failed_language_falls_back I18n.EN true st Hne Hc)
                                 7%nat Hu)))).
Defined.
